(** * NPArray: an N-dimensional array container with .npy persistence

    A shallow embedding of [include/nparray.hpp]: the address
    linearisation of [NPArray<T>] (row-major and column-major), its
    shape-changing methods, the DType registry, the byte-swap helpers
    and the .npy codec ([load_npy] / [write_npy]), followed by the
    properties established about them.

    Conventions of the embedding:
    - [size_t], [uint64_t], [uint32_t], [uint16_t] and [uint8_t] values
      are integers of [Z]; every product and sum the source computes in
      such a type is reduced modulo the width explicitly.  A loop
      counter that stays below the size of a vector is a natural number.
    - [std::vector<X>] and [std::string] are lists; [v[i]] outside the
      vector is undefined behaviour and is the outcome [Undefined].
    - A C++ exception is the outcome [Throw e], where [e] names the
      exception class that is thrown.
    - A non-const method takes the object and returns the object as the
      method leaves it, together with the outcome of the call.
    - A file is the list of its characters; [size_t] has 64 bits.
    - Memory is not bounded: [new] does not fail ([std::bad_alloc] is
      not modelled).  A [std::vector<T>] holds at most [max_size()]
      elements: [resize] and the range constructor throw
      [std::length_error] beyond it. *)

From Stdlib Require Import ZArith Lia List Ascii String Bool.
From stdpp Require Import base list strings.

Open Scope Z_scope.

(** ** Outcomes of a call *)

(** The exception classes thrown by the source and by the library calls
    it makes: [std::stoi] throws [std::out_of_range] and
    [std::invalid_argument], [std::vector] throws
    [std::length_error]. *)
Inductive exn : Type :=
| runtime_error
| out_of_range
| invalid_argument
| length_error.

Inductive outcome (A : Type) : Type :=
| Ok (a : A)
| Throw (e : exn)
| Undefined.

Arguments Ok {A} a.
Arguments Throw {A} e.
Arguments Undefined {A}.

#[global] Instance outcome_ret : MRet outcome := fun A a => Ok a.

#[global] Instance outcome_bind : MBind outcome := fun A B f m =>
  match m with
  | Ok a => f a
  | Throw e => Throw e
  | Undefined => Undefined
  end.

(** [raises m]: the call ends in an exception. *)
Definition raises {A} (m : outcome A) : Prop := exists e, m = Throw e.

(** ** Fixed-width unsigned arithmetic *)

Definition wrap (x : Z) : Z := x mod 2 ^ 64.
Definition is_size_t (x : Z) : Prop := 0 <= x < 2 ^ 64.

Definition mul64 (a b : Z) : Z := wrap (a * b).
Definition add64 (a b : Z) : Z := wrap (a + b).
Definition sub64 (a b : Z) : Z := wrap (a - b).

(** [v[i]] on a vector, a string or an array. *)
Definition vec_at {A} (v : list A) (i : Z) : outcome A :=
  match v !! Z.to_nat i with
  | Some x => Ok x
  | None => Undefined
  end.

(** [v.size()] *)
Definition vec_size {A} (v : list A) : Z := Z.of_nat (length v).

(** The element count every constructor and method computes:
    [ne = shape[0]; for (i = 1; i < shape.size(); i++) ne *= shape[i];] *)
Definition count_elements (s0 : Z) (rest : list Z) : Z :=
  fold_left mul64 rest s0.

(** ** The array container *)

Record NPArray (T : Type) : Type := mkNPArray {
  data_ : list T;
  shape_ : list Z;
  c_continuous_ : bool;
  dimensions_ : Z
}.

Arguments mkNPArray {T} _ _ _ _.
Arguments data_ {T} _.
Arguments shape_ {T} _.
Arguments c_continuous_ {T} _.
Arguments dimensions_ {T} _.

Section Container.
Context {T : Type}.

(** [T()], the value [std::vector<T>::resize] fills new slots with. *)
Variable value_init : T.

(** [std::vector<T>::max_size()] *)
Variable max_size : Z.

(** [v.resize(n)]: beyond [max_size()] it throws [std::length_error]
    and leaves the vector as it was. *)
Definition vec_resize (n : Z) (v : list T) : outcome (list T) :=
  if n >? max_size then Throw length_error
  else Ok (resize (Z.to_nat n) value_init v).

(** [NPArray()] initialises neither [c_continuous_] nor [dimensions_]:
    their indeterminate contents are the two arguments. *)
Definition NPArray_default (junk_c : bool) (junk_dims : Z) : NPArray T :=
  mkNPArray [] [] junk_c junk_dims.

(** [NPArray(init_shape, c_continuous)] *)
Definition NPArray_shape (init_shape : list Z) (c_continuous : bool)
  : outcome (NPArray T) :=
  match init_shape with
  | s0 :: rest =>
      let ne := count_elements s0 rest in
      data ← vec_resize ne [];
      Ok (mkNPArray data init_shape c_continuous (vec_size init_shape))
  | [] => Throw runtime_error
  end.

(** [NPArray(data, init_shape, c_continuous)] *)
Definition NPArray_data (data : list T) (init_shape : list Z)
    (c_continuous : bool) : outcome (NPArray T) :=
  match init_shape with
  | s0 :: rest =>
      let ne := count_elements s0 rest in
      if negb (ne =? vec_size data) then Throw runtime_error
      else Ok (mkNPArray data init_shape c_continuous (vec_size init_shape))
  | [] => Throw runtime_error
  end.

Definition shape (a : NPArray T) : list Z := shape_ a.
Definition size (a : NPArray T) : Z := vec_size (data_ a).
Definition c_continuous (a : NPArray T) : bool := c_continuous_ a.

(** The loop of [check_indices]:
    [for (i = 0; i < dimensions_; i++) if (indices[i] >= shape_[i]) throw].
    [n] counts the iterations left, [i] is the loop variable. *)
Fixpoint check_loop (n : nat) (i : nat) (shp indices : list Z)
  : outcome unit :=
  match n with
  | O => Ok tt
  | S n' =>
      x ← vec_at indices (Z.of_nat i);
      s ← vec_at shp (Z.of_nat i);
      if x >=? s then Throw out_of_range
      else check_loop n' (S i) shp indices
  end.

Definition check_indices (a : NPArray T) (indices : list Z) : outcome unit :=
  if negb (vec_size indices =? dimensions_ a) then Throw runtime_error
  else check_loop (Z.to_nat (dimensions_ a)) 0 (shape_ a) indices.

(** The loop of [c_continuous_index], [for (i = dimensions_ - 1; i > 0; i--)],
    by recursion on the loop variable. *)
Fixpoint c_loop (i : nat) (shp indices : list Z) (coeff indx : Z)
  : outcome Z :=
  match i with
  | O => Ok indx
  | S i' =>
      s ← vec_at shp (Z.of_nat i);
      let coeff := mul64 coeff s in
      x ← vec_at indices (Z.of_nat i');
      let indx := add64 indx (mul64 coeff x) in
      c_loop i' shp indices coeff indx
  end.

Definition c_continuous_index (a : NPArray T) (indices : list Z)
  : outcome Z :=
  indx ← vec_at indices (sub64 (dimensions_ a) 1);
  c_loop (Z.to_nat (sub64 (dimensions_ a) 1)) (shape_ a) indices 1 indx.

(** The loop of [fortran_continuous_index],
    [for (i = 0; i < dimensions_ - 1; i++)]: [n] iterations are left and
    [i] is the loop variable. *)
Fixpoint f_loop (n : nat) (i : nat) (shp indices : list Z) (coeff indx : Z)
  : outcome Z :=
  match n with
  | O => Ok indx
  | S n' =>
      s ← vec_at shp (Z.of_nat i);
      let coeff := mul64 coeff s in
      x ← vec_at indices (Z.of_nat (S i));
      let indx := add64 indx (mul64 coeff x) in
      f_loop n' (S i) shp indices coeff indx
  end.

Definition fortran_continuous_index (a : NPArray T) (indices : list Z)
  : outcome Z :=
  indx ← vec_at indices 0;
  f_loop (Z.to_nat (sub64 (dimensions_ a) 1)) 0 (shape_ a) indices 1 indx.

(** [linear_index(indices)] *)
Definition linear_index (a : NPArray T) (indices : list Z) : outcome Z :=
  _ ← check_indices a indices;
  if c_continuous_ a then c_continuous_index a indices
  else fortran_continuous_index a indices.

(** [operator()(indices)], read through the reference it returns. *)
Definition call (a : NPArray T) (indices : list Z) : outcome T :=
  _ ← check_indices a indices;
  indx ← (if c_continuous_ a then c_continuous_index a indices
          else fortran_continuous_index a indices);
  vec_at (data_ a) indx.

(** [operator()(indices) = v], a write through the reference. *)
Definition call_assign (indices : list Z) (v : T) (a : NPArray T)
  : NPArray T * outcome unit :=
  match (_ ← check_indices a indices;
         if c_continuous_ a then c_continuous_index a indices
         else fortran_continuous_index a indices) with
  | Ok indx =>
      match data_ a !! Z.to_nat indx with
      | Some _ =>
          (mkNPArray (<[Z.to_nat indx := v]> (data_ a)) (shape_ a)
                     (c_continuous_ a) (dimensions_ a), Ok tt)
      | None => (a, Undefined)
      end
  | Throw e => (a, Throw e)
  | Undefined => (a, Undefined)
  end.

(** [operator[](i)], read through the reference it returns. *)
Definition subscript (a : NPArray T) (i : Z) : outcome T :=
  vec_at (data_ a) i.

(** [operator[](i) = v] *)
Definition subscript_assign (i : Z) (v : T) (a : NPArray T)
  : NPArray T * outcome unit :=
  match data_ a !! Z.to_nat i with
  | Some _ =>
      (mkNPArray (<[Z.to_nat i := v]> (data_ a)) (shape_ a)
                 (c_continuous_ a) (dimensions_ a), Ok tt)
  | None => (a, Undefined)
  end.

(** [fill(val)] *)
Definition fill (val : T) (a : NPArray T) : NPArray T :=
  mkNPArray (replicate (length (data_ a)) val) (shape_ a)
            (c_continuous_ a) (dimensions_ a).

(** [reshape(new_shape)] *)
Definition reshape (new_shape : list Z) (a : NPArray T)
  : NPArray T * outcome unit :=
  match new_shape with
  | [] => (a, Throw runtime_error)
  | s0 :: rest =>
      let ne := count_elements s0 rest in
      if ne =? vec_size (data_ a) then
        (mkNPArray (data_ a) new_shape (c_continuous_ a)
                   (vec_size new_shape), Ok tt)
      else (a, Throw runtime_error)
  end.

(** [reallocate(new_shape)]: [shape_] and [dimensions_] are assigned
    before [data_.resize(ne)]; when that throws, the array keeps the
    new shape with the old elements. *)
Definition reallocate (new_shape : list Z) (a : NPArray T)
  : NPArray T * outcome unit :=
  match new_shape with
  | [] => (a, Throw runtime_error)
  | s0 :: rest =>
      let ne := count_elements s0 rest in
      match vec_resize ne (data_ a) with
      | Ok data =>
          (mkNPArray data new_shape (c_continuous_ a) (vec_size new_shape),
           Ok tt)
      | Throw e =>
          (mkNPArray (data_ a) new_shape (c_continuous_ a)
                     (vec_size new_shape), Throw e)
      | Undefined =>
          (mkNPArray (data_ a) new_shape (c_continuous_ a)
                     (vec_size new_shape), Undefined)
      end
  end.

End Container.

(** ** Characters, strings and the host *)

(** A C++ [char] is one byte; [std::string] and byte buffers are lists of
    them. *)
Abbreviation char := ascii.
Abbreviation str := list_ascii_of_string.

Definition char_code (c : char) : Z := Z.of_N (N_of_ascii c).

(** What the program observes of the machine it runs on: the byte order
    that [system_is_little_endian] probes, and whether plain [char] is a
    signed type. *)
Record Host : Type := mkHost {
  little_endian : bool;
  char_is_signed : bool
}.

Definition x86_64 : Host := mkHost true true.
Definition s390x : Host := mkHost false false.

(** The value of a [char] after integer promotion. *)
Definition char_to_int (h : Host) (c : char) : Z :=
  if char_is_signed h && (128 <=? char_code c) then char_code c - 256
  else char_code c.

Definition system_is_little_endian (h : Host) : bool := little_endian h.

(** ** Dtype registry *)

Inductive DType : Type :=
| CHAR | UCHAR | INT16 | INT32 | INT64 | UINT16 | UINT32 | UINT64
| FLOAT32 | DOUBLE64 | COMPLEX64 | COMPLEX128.

#[global] Instance DType_eq_dec : EqDecision DType.
Proof. solve_decision. Defined.

Definition descr_to_DType (dtype : list char) : outcome DType :=
  if bool_decide (dtype = str "b1") then Ok CHAR
  else if bool_decide (dtype = str "B1") then Ok UCHAR
  else if bool_decide (dtype = str "i2") then Ok INT16
  else if bool_decide (dtype = str "i4") then Ok INT32
  else if bool_decide (dtype = str "i8") then Ok INT64
  else if bool_decide (dtype = str "u2") then Ok UINT16
  else if bool_decide (dtype = str "u4") then Ok UINT32
  else if bool_decide (dtype = str "u8") then Ok UINT64
  else if bool_decide (dtype = str "f4") then Ok FLOAT32
  else if bool_decide (dtype = str "f8") then Ok DOUBLE64
  else if bool_decide (dtype = str "c8") then Ok COMPLEX64
  else if bool_decide (dtype = str "c16") then Ok COMPLEX128
  else Throw runtime_error.

(** The last [else] of [DType_to_descr] and of [size_of_DType], which
    throws for a value outside the enumeration, has no counterpart: the
    match is over the twelve kinds. *)
Definition DType_to_descr (dtype : DType) : list char :=
  match dtype with
  | CHAR => str "b1"
  | UCHAR => str "B1"
  | INT16 => str "i2"
  | INT32 => str "i4"
  | INT64 => str "i8"
  | UINT16 => str "u2"
  | UINT32 => str "u4"
  | UINT64 => str "u8"
  | FLOAT32 => str "f4"
  | DOUBLE64 => str "f8"
  | COMPLEX64 => str "c8"
  | COMPLEX128 => str "c16"
  end.

Definition size_of_DType (dtype : DType) : Z :=
  match dtype with
  | CHAR => 1
  | UCHAR => 1
  | INT16 => 2
  | INT32 => 4
  | INT64 => 8
  | UINT16 => 2
  | UINT32 => 4
  | UINT64 => 8
  | FLOAT32 => 4
  | DOUBLE64 => 8
  | COMPLEX64 => 8
  | COMPLEX128 => 16
  end.

(** ** Byte swapping *)

(** [std::memcpy(&temp, bytes, n)]: the [n] bytes of [mem] from offset
    [bytes] on; reading past the buffer is undefined. *)
Definition memcpy (mem : list char) (bytes n : nat) : outcome (list char) :=
  let temp := take n (drop bytes mem) in
  if (length temp =? n)%nat then Ok temp else Undefined.

(** The swap routines take the buffer [mem] and the offset [bytes] their
    pointer argument has in it; [bytes[k] = temp[j]] is an update at
    [bytes + k]. *)
Definition swap_two_bytes (bytes : nat) (mem : list char)
  : outcome (list char) :=
  temp ← memcpy mem bytes 2;
  match temp with
  | [t0; t1] =>
      Ok (<[(bytes + 1)%nat := t0]> (<[bytes := t1]> mem))
  | _ => Undefined
  end.

Definition swap_four_bytes (bytes : nat) (mem : list char)
  : outcome (list char) :=
  temp ← memcpy mem bytes 4;
  match temp with
  | [t0; t1; t2; t3] =>
      Ok (<[(bytes + 3)%nat := t0]> (<[(bytes + 2)%nat := t1]>
         (<[(bytes + 1)%nat := t2]> (<[bytes := t3]> mem))))
  | _ => Undefined
  end.

Definition swap_eight_bytes (bytes : nat) (mem : list char)
  : outcome (list char) :=
  temp ← memcpy mem bytes 8;
  match temp with
  | [t0; t1; t2; t3; t4; t5; t6; t7] =>
      Ok (<[(bytes + 7)%nat := t0]> (<[(bytes + 6)%nat := t1]>
         (<[(bytes + 5)%nat := t2]> (<[(bytes + 4)%nat := t3]>
         (<[(bytes + 3)%nat := t4]> (<[(bytes + 2)%nat := t5]>
         (<[(bytes + 1)%nat := t6]> (<[bytes := t7]> mem))))))))
  | _ => Undefined
  end.

Definition swap_sixteen_bytes (bytes : nat) (mem : list char)
  : outcome (list char) :=
  temp ← memcpy mem bytes 16;
  match temp with
  | [t0; t1; t2; t3; t4; t5; t6; t7; t8; t9; t10; t11; t12; t13; t14; t15] =>
      Ok (<[(bytes + 15)%nat := t0]> (<[(bytes + 14)%nat := t1]>
         (<[(bytes + 13)%nat := t2]> (<[(bytes + 12)%nat := t3]>
         (<[(bytes + 11)%nat := t4]> (<[(bytes + 10)%nat := t5]>
         (<[(bytes + 9)%nat := t6]> (<[(bytes + 8)%nat := t7]>
         (<[(bytes + 7)%nat := t8]> (<[(bytes + 6)%nat := t9]>
         (<[(bytes + 5)%nat := t10]> (<[(bytes + 4)%nat := t11]>
         (<[(bytes + 3)%nat := t12]> (<[(bytes + 2)%nat := t13]>
         (<[(bytes + 1)%nat := t14]> (<[bytes := t15]> mem))))))))))))))))
  | _ => Undefined
  end.

(** The body of the loop of [swap_bytes] at offset [i]. *)
Definition swap_element (element_size : Z) (i : Z) (data : list char)
  : outcome (list char) :=
  if element_size =? 1 then Ok data
  else if element_size =? 2 then swap_two_bytes (Z.to_nat i) data
  else if element_size =? 4 then swap_four_bytes (Z.to_nat i) data
  else if element_size =? 8 then swap_eight_bytes (Z.to_nat i) data
  else if element_size =? 16 then swap_sixteen_bytes (Z.to_nat i) data
  else Throw runtime_error.

(** [for (i = 0; i < number_of_bytes; i += element_size)]; [fuel] bounds
    the iterations, and [number_of_bytes] of them are enough: an
    iteration that does not throw advances [i] by at least one. *)
Fixpoint swap_loop (fuel : nat) (i number_of_bytes element_size : Z)
    (data : list char) : outcome (list char) :=
  if i <? number_of_bytes then
    match fuel with
    | O => Undefined
    | S fuel' =>
        data' ← swap_element element_size i data;
        swap_loop fuel' (add64 i element_size) number_of_bytes element_size
                  data'
    end
  else Ok data.

Definition swap_bytes (data : list char) (n_elements element_size : Z)
  : outcome (list char) :=
  let number_of_bytes := mul64 n_elements element_size in
  swap_loop (Z.to_nat number_of_bytes) 0 number_of_bytes element_size data.

(** ** Library string functions *)

(** [std::string::npos] *)
Definition npos : Z := 2 ^ 64 - 1.

Fixpoint starts_with (needle hay : list char) : bool :=
  match needle, hay with
  | [], _ => true
  | c :: needle', d :: hay' => bool_decide (c = d) && starts_with needle' hay'
  | _ :: _, [] => false
  end.

Fixpoint find_from (pos : Z) (needle hay : list char) : Z :=
  if starts_with needle hay then pos
  else match hay with
       | [] => npos
       | _ :: hay' => find_from (pos + 1) needle hay'
       end.

(** [hay.find(needle)]: the position of the first occurrence, or [npos]. *)
Definition find (needle hay : list char) : Z := find_from 0 needle hay.

(** [s[i]] on a [std::string]: [s[s.size()]] is the terminating null
    character, anything further is undefined. *)
Definition str_at (s : list char) (i : Z) : outcome char :=
  match s !! Z.to_nat i with
  | Some c => Ok c
  | None => if i =? vec_size s then Ok "000"%char else Undefined
  end.

(** [std::string(const char* p)] on the buffer [buf]: the characters up
    to the first null one.  The constructor reads until it meets a null
    character: on a buffer that holds none it reads past the end of the
    buffer, which is undefined. *)
Fixpoint c_string (buf : list char) : outcome (list char) :=
  match buf with
  | [] => Undefined
  | c :: buf' =>
      if bool_decide (c = "000"%char) then Ok []
      else s ← c_string buf'; Ok (c :: s)
  end.

Definition digit_char (d : Z) : char := ascii_of_N (Z.to_N (48 + d)).

Fixpoint to_string_digits (fuel : nat) (n : Z) (acc : list char)
  : list char :=
  match fuel with
  | O => acc
  | S fuel' =>
      let acc' := digit_char (n mod 10) :: acc in
      if n <? 10 then acc' else to_string_digits fuel' (n / 10) acc'
  end.

(** [std::to_string] of a [size_t]: its decimal digits (at most twenty). *)
Definition to_string (n : Z) : list char := to_string_digits 20 n [].

Definition isspace (c : char) : bool :=
  (char_code c =? 32) || ((9 <=? char_code c) && (char_code c <=? 13)).

Definition isdigit (c : char) : bool :=
  (48 <=? char_code c) && (char_code c <=? 57).

Fixpoint skip_spaces (s : list char) : list char :=
  match s with
  | c :: s' => if isspace c then skip_spaces s' else s
  | [] => []
  end.

Fixpoint leading_digits (s : list char) : list char :=
  match s with
  | c :: s' => if isdigit c then c :: leading_digits s' else []
  | [] => []
  end.

Definition digits_value (ds : list char) : Z :=
  fold_left (fun acc c => acc * 10 + (char_code c - 48)) ds 0.

(** [std::stoi(s)]: leading white space is skipped, an optional sign and
    the longest run of decimal digits are converted; no digit at all
    throws [std::invalid_argument], a value that does not fit [int]
    throws [std::out_of_range]. *)
Definition stoi (s : list char) : outcome Z :=
  let s1 := skip_spaces s in
  let '(negative, s2) :=
    match s1 with
    | c :: t =>
        if bool_decide (c = "-"%char) then (true, t)
        else if bool_decide (c = "+"%char) then (false, t)
        else (false, s1)
    | [] => (false, s1)
    end in
  match leading_digits s2 with
  | [] => Throw invalid_argument
  | ds =>
      let v := if negative : bool then - digits_value ds else digits_value ds in
      if (v <? - 2 ^ 31) || (2 ^ 31 - 1 <? v) then Throw out_of_range
      else Ok v
  end.

(** ** Integers as bytes *)

Fixpoint le_value (bytes : list char) : Z :=
  match bytes with
  | [] => 0
  | c :: bytes' => char_code c + 256 * le_value bytes'
  end.

Fixpoint le_bytes (width : nat) (v : Z) : list char :=
  match width with
  | O => []
  | S width' => ascii_of_N (Z.to_N (v mod 256)) :: le_bytes width' (v / 256)
  end.

(** The value of an unsigned integer object whose bytes, in address
    order, are [bytes]. *)
Definition host_uint (h : Host) (bytes : list char) : Z :=
  if little_endian h then le_value bytes else le_value (rev bytes).

(** The bytes, in address order, of an unsigned integer object of [width]
    bytes holding [v]. *)
Definition uint_bytes (h : Host) (width : nat) (v : Z) : list char :=
  if little_endian h then le_bytes width v else rev (le_bytes width v).

(** ** The .npy codec *)

(** [file.read(buf, n)] on the rest of the stream.  When fewer than [n]
    characters are left the buffers of [load_npy] keep indeterminate
    contents that are read afterwards: the outcome is [Undefined]. *)
Definition read (n : Z) (file : list char)
  : outcome (list char * list char) :=
  if vec_size file <? n then Undefined
  else Ok (take (Z.to_nat n) file, drop (Z.to_nat n) file).

Definition magic : list char := "147"%char :: str "NUMPY".

Section Codec.
Variable h : Host.

(** The header-length field of [load_npy], after the two version bytes:
    the value read and the rest of the stream. *)
Definition read_header_length (major_version : char) (file : list char)
  : outcome (Z * list char) :=
  if char_to_int h major_version =? 1 then
    '(length_temp, file) ← read 2 file;
    length_temp ←
      (if negb (system_is_little_endian h) then swap_bytes length_temp 2 1
       else Ok length_temp);
    Ok (host_uint h length_temp, file)
  else if char_to_int h major_version >=? 2 then
    '(length_temp, file) ← read 4 file;
    length_temp ←
      (if negb (system_is_little_endian h) then swap_bytes length_temp 4 1
       else Ok length_temp);
    Ok (host_uint h length_temp, file)
  else Ok (0, file).

(** The [while (true)] loop that collects [f_order_string].  Every
    iteration reads [header[loc1 + i]] one position further and only
    positions up to [header.size()] can be read: with more [fuel] than
    [header.size() + 1] the loop ends before the fuel does. *)
Fixpoint order_loop (fuel : nat) (header : list char) (loc1 i : Z)
    (f_order_string : list char) : outcome (list char) :=
  match fuel with
  | O => Undefined
  | S fuel' =>
      c ← str_at header (add64 loc1 i);
      if negb (bool_decide (c = " "%char)) then
        if bool_decide (c = ","%char) then Ok f_order_string
        else order_loop fuel' header loc1 (add64 i 1) (f_order_string ++ [c])
      else order_loop fuel' header loc1 (add64 i 1) f_order_string
  end.

Definition fortran_order_token (header : list char) : outcome (list char) :=
  let loc1 := find (str "'fortran_order': ") header in
  let loc1 := add64 loc1 17 in
  order_loop (S (S (length header))) header loc1 0 [].

Definition parse_fortran_order (header : list char) : outcome bool :=
  f_order_string ← fortran_order_token header;
  if bool_decide (f_order_string = str "False") then Ok true else Ok false.

(** The [while (true)] loop that collects [descr_string]. *)
Fixpoint descr_loop (fuel : nat) (header : list char) (loc1 i : Z)
    (descr_string : list char) : outcome (list char) :=
  match fuel with
  | O => Undefined
  | S fuel' =>
      c ← str_at header (add64 loc1 i);
      if negb (bool_decide (c = " "%char)) then
        if negb (bool_decide (c = "'"%char)) then
          descr_loop fuel' header loc1 (add64 i 1) (descr_string ++ [c])
        else Ok descr_string
      else descr_loop fuel' header loc1 (add64 i 1) descr_string
  end.

(** The element kind and [data_is_little_endian]. *)
Definition parse_descr (header : list char) : outcome (DType * bool) :=
  let loc1 := find (str "'descr': ") header in
  let loc1 := add64 loc1 9 in
  c ← str_at header (add64 loc1 1);
  let data_is_little_endian :=
    if bool_decide (c = ">"%char) then false else true in
  descr_string ← descr_loop (S (S (length header))) header loc1 2 [];
  dtype ← descr_to_DType descr_string;
  Ok (dtype, data_is_little_endian).

(** [for (i = loc1; i < loc2; i++)] over the text between the
    parentheses; [shape.push_back(std::stoi(temp))] converts the [int]
    to [size_t]. *)
Fixpoint shape_loop (fuel : nat) (header : list char) (i loc2 : Z)
    (temp : list char) (shp : list Z) : outcome (list char * list Z) :=
  if i <? loc2 then
    match fuel with
    | O => Undefined
    | S fuel' =>
        c ← str_at header i;
        if negb (bool_decide (c = ","%char)) then
          shape_loop fuel' header (add64 i 1) loc2 (temp ++ [c]) shp
        else if vec_size temp >? 0 then
          v ← stoi temp;
          shape_loop fuel' header (add64 i 1) loc2 [] (shp ++ [wrap v])
        else shape_loop fuel' header (add64 i 1) loc2 temp shp
    end
  else Ok (temp, shp).

Definition parse_shape (header : list char) : outcome (list Z) :=
  let loc1 := find (str "(") header in
  let loc2 := find (str ")") header in
  let loc1 := add64 loc1 1 in
  if loc1 =? loc2 then Ok [1]
  else
    '(temp, shp) ← shape_loop (S (S (length header))) header loc1 loc2 [] [];
    if vec_size temp >? 0 then
      v ← stoi temp;
      Ok (shp ++ [wrap v])
    else Ok shp.

(** [load_npy(fname, data_ptr, shape, dtype, c_contiguous)] on the
    contents of the file: the four results it returns by reference. *)
Definition load_npy (file : list char)
  : outcome (list char * list Z * DType * bool) :=
  '(magic_string, file) ← read 6 file;
  if negb (bool_decide (magic_string = magic)) then Throw runtime_error
  else
    '(major_version, file) ← read 1 file;
    '(minor_version, file) ← read 1 file;
    major_version ← vec_at major_version 0;
    '(length_of_header, file) ← read_header_length major_version file;
    '(header_char, file) ← read length_of_header file;
    header ← c_string header_char;
    c_contiguous ← parse_fortran_order header;
    '(dtype, data_is_little_endian) ← parse_descr header;
    let element_size := size_of_DType dtype in
    shp ← parse_shape header;
    s0 ← vec_at shp 0;
    let n_elements := count_elements s0 (tail shp) in
    let n_bytes_to_read := mul64 n_elements element_size in
    '(data, file) ← read n_bytes_to_read file;
    data ←
      (if negb (eqb (system_is_little_endian h) data_is_little_endian)
       then swap_bytes data n_elements element_size
       else Ok data);
    Ok (data, shp, dtype, c_contiguous).

(** The header text of [write_npy] up to the opening parenthesis of the
    shape. *)
Definition header_prefix (dtype : DType) (c_contiguous : bool)
  : list char :=
  str "{'descr': '"
  ++ (if system_is_little_endian h then str "<" else str ">")
  ++ DType_to_descr dtype ++ str "', "
  ++ str "'fortran_order': "
  ++ (if c_contiguous then str "False, " else str "True, ")
  ++ str "'shape': (".

(** [for (const auto& e : shape) header += std::to_string(e) + ",";] *)
Definition shape_text (shp : list Z) : list char :=
  flat_map (fun e => to_string e ++ str ",") shp.

(** The header text of [write_npy] before padding. *)
Definition header_text (shp : list Z) (dtype : DType) (c_contiguous : bool)
  : list char :=
  header_prefix dtype c_contiguous ++ shape_text shp ++ str "), }".

(** [padding_needed], a [uint8_t]. *)
Definition padding_needed (beginning_length : Z) : Z :=
  (64 - beginning_length mod 64) mod 2 ^ 8.

(** The version choice of [write_npy]: [major_version] and
    [beginning_length] as the [if] leaves them. *)
Definition choose_version (beginning_length : Z) : Z * Z :=
  if add64 beginning_length (padding_needed beginning_length) >? 65535
  then (2, add64 beginning_length 2)
  else (1, beginning_length).

(** The header with its padding and final newline. *)
Definition padded_header (shp : list Z) (dtype : DType)
    (c_contiguous : bool) : list char :=
  let header := header_text shp dtype c_contiguous in
  let beginning_length := add64 (6 + 2 + 2) (vec_size header) in
  header
  ++ replicate (Z.to_nat (padding_needed beginning_length - 1)) " "%char
  ++ ["010"%char].

(** Everything [write_npy] emits before the payload. *)
Definition preamble (shp : list Z) (dtype : DType) (c_contiguous : bool)
  : outcome (list char) :=
  let header := header_text shp dtype c_contiguous in
  let beginning_length := add64 (6 + 2 + 2) (vec_size header) in
  let '(major_version, beginning_length) :=
    choose_version beginning_length in
  let header := padded_header shp dtype c_contiguous in
  len ←
    (if major_version =? 1 then
       let len := uint_bytes h 2 (vec_size header mod 2 ^ 16) in
       if negb (system_is_little_endian h) then swap_two_bytes 0 len
       else Ok len
     else
       let len := uint_bytes h 4 (vec_size header mod 2 ^ 32) in
       if negb (system_is_little_endian h) then swap_four_bytes 0 len
       else Ok len);
  Ok (magic
      ++ [ascii_of_N (Z.to_N major_version); "000"%char]
      ++ len ++ header).

(** [write_npy(fname, data_ptr, shape, dtype, c_contiguous)]: the
    contents of the file it writes; [data_ptr] is the buffer behind the
    pointer. *)
Definition write_npy (data_ptr : list char) (shp : list Z) (dtype : DType)
    (c_contiguous : bool) : outcome (list char) :=
  s0 ← vec_at shp 0;
  let n_elements := count_elements s0 (tail shp) in
  pre ← preamble shp dtype c_contiguous;
  let n_bytes := mul64 n_elements (size_of_DType dtype) in
  if vec_size data_ptr <? n_bytes then Undefined
  else Ok (pre ++ take (Z.to_nat n_bytes) data_ptr).

(** The offset in the written file at which the payload begins. *)
Definition payload_offset (shp : list Z) (dtype : DType)
    (c_contiguous : bool) : outcome Z :=
  pre ← preamble shp dtype c_contiguous;
  Ok (vec_size pre).

End Codec.

(** ** Persistence of the container *)

(** What [load] and [save] need of the element type [T]: the [DType] the
    [typeid(T)] chain selects ([None] when no branch matches and the
    method throws), [sizeof(T)], and the object representation that
    [reinterpret_cast] exposes. *)
Class Element (T : Type) : Type := {
  typeid_DType : option DType;
  sizeof : Z;
  object_bytes : Host -> T -> list char;
  from_bytes : Host -> list char -> T
}.

(** [unsigned char] *)
#[global] Instance uchar_Element : Element char := {
  typeid_DType := Some UCHAR;
  sizeof := 1;
  object_bytes := fun _ c => [c];
  from_bytes := fun _ bytes => match bytes with c :: _ => c | [] => "000"%char end
}.

(** [uint16_t], its values as integers. *)
Definition uint16_Element : Element Z := {|
  typeid_DType := Some UINT16;
  sizeof := 2;
  object_bytes := fun h v => uint_bytes h 2 v;
  from_bytes := fun h bytes => host_uint h bytes
|}.

Section Persistence.
Context {T : Type} `{Element T}.
Variable h : Host.

(** [std::vector<T>::max_size()] *)
Variable max_size : Z.

(** The elements of the vector [{reinterpret_cast<T*>(data_ptr),
    reinterpret_cast<T*>(data_ptr) + ne}]; a range that does not lie
    in the buffer behind [data_ptr] is undefined. *)
Fixpoint reinterpret (ne : nat) (data_ptr : list char) : outcome (list T) :=
  match ne with
  | O => Ok []
  | S ne' =>
      '(elem, data_ptr) ← read sizeof data_ptr;
      rest ← reinterpret ne' data_ptr;
      Ok (from_bytes h elem :: rest)
  end.

(** [NPArray<T>::load(fname)] on the contents of the file.  The range
    constructor of [data_vector] throws [std::length_error] for more
    than [max_size()] elements. *)
Definition load (file : list char) : outcome (NPArray T) :=
  match typeid_DType with
  | None => Throw runtime_error
  | Some expected_dtype =>
      '(data_ptr, data_shape, data_dtype, data_c_continuous) ←
        load_npy h file;
      if negb (bool_decide (expected_dtype = data_dtype))
      then Throw runtime_error
      else if vec_size data_shape <? 1 then Throw runtime_error
      else
        s0 ← vec_at data_shape 0;
        let ne := count_elements s0 (tail data_shape) in
        data_vector ← reinterpret (Z.to_nat ne) data_ptr;
        data_vector ←
          (if ne >? max_size then Throw length_error else Ok data_vector);
        return_object ← NPArray_data data_vector data_shape true;
        Ok (mkNPArray (data_ return_object) (shape_ return_object)
                      data_c_continuous (dimensions_ return_object))
  end.

(** [save(fname)]: the contents of the file written. *)
Definition save (a : NPArray T) : outcome (list char) :=
  match typeid_DType with
  | None => Throw runtime_error
  | Some dtype =>
      write_npy h (flat_map (object_bytes h) (data_ a)) (shape_ a) dtype
                (c_continuous_ a)
  end.

End Persistence.

(** ** The linearisation formulas of the specification

    Written from the specification's description of the layout engine,
    over the integers: the accumulator is the pair [(coeff, idx)] and one
    step is [coeff *= shape[i]; idx += coeff * indices[j]]. *)

Definition spec_row_major_step (shp indices : list Z) (acc : Z * Z) (i : nat)
  : Z * Z :=
  let coeff := fst acc * nth i shp 0 in
  (coeff, snd acc + coeff * nth (i - 1) indices 0).

(** Row-major: start from [indices[R-1]], axes [R-1] down to [1]. *)
Definition spec_row_major (shp indices : list Z) : Z :=
  let R := length shp in
  snd (fold_left (spec_row_major_step shp indices) (rev (seq 1 (R - 1)))
                 (1, nth (R - 1) indices 0)).

Definition spec_column_major_step (shp indices : list Z) (acc : Z * Z)
    (i : nat) : Z * Z :=
  let coeff := fst acc * nth i shp 0 in
  (coeff, snd acc + coeff * nth (i + 1) indices 0).

(** Column-major: start from [indices[0]], axes [0] up to [R-2]. *)
Definition spec_column_major (shp indices : list Z) : Z :=
  let R := length shp in
  snd (fold_left (spec_column_major_step shp indices) (seq 0 (R - 1))
                 (1, nth 0 indices 0)).

Definition spec_linear_index (shp : list Z) (row_major : bool)
    (indices : list Z) : Z :=
  if row_major then spec_row_major shp indices
  else spec_column_major shp indices.

(** The product of the extents, over the integers. *)
Definition product (shp : list Z) : Z := fold_right Z.mul 1 shp.

(** An index tuple is valid for a shape: same length, every index a
    [size_t] below its extent. *)
Definition valid_indices (indices shp : list Z) : Prop :=
  Forall2 (fun x s => 0 <= x < s) indices shp.

(** What every constructor establishes about the bookkeeping members:
    [dimensions_] is [shape_.size()], and the sizes are [size_t] values. *)
Definition consistent {T} (a : NPArray T) : Prop :=
  dimensions_ a = vec_size (shape_ a)
  /\ is_size_t (dimensions_ a)
  /\ Forall is_size_t (shape_ a).

(** The element count a shape stands for, as the source computes it
    (in [size_t] arithmetic); an empty shape has none. *)
Definition element_count (shp : list Z) : option Z :=
  match shp with
  | [] => None
  | s0 :: rest => Some (count_elements s0 rest)
  end.

(** The invariant of the data model: rank at least one, and as many
    elements as the shape stands for. *)
Definition array_invariant {T} (a : NPArray T) : Prop :=
  (1 <= length (shape a))%nat /\ element_count (shape a) = Some (size a).

(** ** States of an array that the public interface can produce

    [reachable with_default with_failed a]: [a] is built by a
    constructor or by [load] and then changed by any sequence of the
    non-const methods and of writes through the references the
    accessors return.  Arguments are values of their C++ types.
    [with_default] tells whether the default constructor [NPArray()]
    counts among the constructors, [with_failed] whether the state in
    which a [reallocate] that throws leaves the array counts (a
    [reshape] that throws leaves the array as it was). *)
Section Reachable.
Context {T : Type} `{Element T}.
Variable value_init : T.
Variable max_size : Z.

Inductive reachable (with_default with_failed : bool) : NPArray T -> Prop :=
| reach_default junk_c junk_dims :
    with_default = true ->
    reachable with_default with_failed (NPArray_default junk_c junk_dims)
| reach_shape init_shape c a :
    Forall is_size_t init_shape ->
    NPArray_shape value_init max_size init_shape c = Ok a ->
    reachable with_default with_failed a
| reach_data data init_shape c a :
    Forall is_size_t init_shape ->
    NPArray_data data init_shape c = Ok a ->
    reachable with_default with_failed a
| reach_load h file a :
    load h max_size file = Ok a ->
    reachable with_default with_failed a
| reach_fill val a :
    reachable with_default with_failed a ->
    reachable with_default with_failed (fill val a)
| reach_reshape new_shape a :
    Forall is_size_t new_shape ->
    reachable with_default with_failed a ->
    reachable with_default with_failed (fst (reshape new_shape a))
| reach_reallocate new_shape a :
    Forall is_size_t new_shape ->
    reachable with_default with_failed a ->
    with_failed = true
    \/ snd (reallocate value_init max_size new_shape a)
       <> Throw length_error ->
    reachable with_default with_failed
      (fst (reallocate value_init max_size new_shape a))
| reach_call_assign indices v a :
    reachable with_default with_failed a ->
    reachable with_default with_failed (fst (call_assign indices v a))
| reach_subscript_assign i v a :
    reachable with_default with_failed a ->
    reachable with_default with_failed (fst (subscript_assign i v a)).
End Reachable.

(** ** Byte reversal, as the specification describes it *)

(** [mem] with the [w] bytes from offset [p] on in reverse order. *)
Definition reverse_at (w p : nat) (mem : list char) : list char :=
  take p mem ++ reverse (take w (drop p mem)) ++ drop (p + w) mem.

(** [data] with each of its first [n] elements of [w] bytes reversed. *)
Fixpoint reverse_elements (n w : nat) (data : list char) : list char :=
  match n with
  | O => data
  | S n' => reverse (take w data) ++ reverse_elements n' w (drop w data)
  end.

(** The fixed-width swap routines with their widths. *)
Definition swap_routines : list (nat * (nat -> list char -> outcome (list char))) :=
  [(2%nat, swap_two_bytes); (4%nat, swap_four_bytes);
   (8%nat, swap_eight_bytes); (16%nat, swap_sixteen_bytes)].

(** ** The [fortran_order] token, as the specification describes it *)

(** The characters of [s] other than spaces, up to the first [stop]
    character; [None] when [s] has no [stop] character. *)
Fixpoint token_until (stop : char) (s : list char) : option (list char) :=
  match s with
  | [] => None
  | c :: s' =>
      if bool_decide (c = stop) then Some []
      else if bool_decide (c = " "%char) then token_until stop s'
      else cons c <$> token_until stop s'
  end.

(** Where the value of the [fortran_order] field starts. *)
Definition fortran_order_start (header : list char) : nat :=
  Z.to_nat (add64 (find (str "'fortran_order': ") header) 17).

(** The invariant together with the bookkeeping of [dimensions_]. *)
Definition inv {T} (a : NPArray T) : Prop :=
  array_invariant a /\ dimensions_ a = vec_size (shape_ a).

(** ** Sample arrays *)

Definition zeros6 : list Z := [0; 0; 0; 0; 0; 0].

(** The characters [a] to [f] as a row-major array of shape [2,3]. *)
Definition abcdef : NPArray char := mkNPArray (str "abcdef") [2; 3] true 2.

(** A shape of rank 32704 with every extent 1: one element. *)
Definition rank_32704 : list Z := replicate (Z.to_nat 32704) 1.

(** [std::vector<T>::max_size()] as libstdc++ has it on a 64-bit host:
    [PTRDIFF_MAX / sizeof(T)]. *)
Definition vector_max_size (size_of_T : Z) : Z := (2 ^ 63 - 1) / size_of_T.

(** An array with the extent 2^31 on one axis and no element. *)
Definition wide_empty : outcome (NPArray char) :=
  NPArray_shape "000"%char (vector_max_size 1) [2147483648; 0] true.

(** ** Values that survive [reinterpret_cast]

    [representable h x]: the object representation of [x] has
    [sizeof(T)] bytes and reading it back gives [x]; this is what
    "in range" means for an element of a model type that is wider than
    the C++ type. *)
Definition representable {T} `{Element T} (h : Host) (x : T) : Prop :=
  vec_size (object_bytes h x) = sizeof /\ from_bytes h (object_bytes h x) = x.

(** ** The flat index in stride form

    Row-major: the index of axis [k] weighs the product of the extents
    after axis [k]. *)
Fixpoint row_major_offset (shp indices : list Z) : Z :=
  match shp, indices with
  | _ :: shp', x :: indices' =>
      x * product shp' + row_major_offset shp' indices'
  | _, _ => 0
  end.

(** Column-major: the index of axis [k] weighs the product of the
    extents before axis [k]. *)
Fixpoint column_major_offset (shp indices : list Z) : Z :=
  match shp, indices with
  | s :: shp', x :: indices' => x + s * column_major_offset shp' indices'
  | _, _ => 0
  end.

Definition layout_offset (shp : list Z) (row_major : bool) (indices : list Z)
  : Z :=
  if row_major then row_major_offset shp indices
  else column_major_offset shp indices.

(** ** Values that survive a change of host

    [transferable hw hr x]: the object representation of [x] on the
    host [hw] has [sizeof(T)] bytes, and the host [hr] reads [x] from
    it, byte-reversed when the two hosts differ in byte order. *)
Definition transferable {T} `{Element T} (hw hr : Host) (x : T) : Prop :=
  vec_size (object_bytes hw x) = sizeof
  /\ from_bytes hr
       (if eqb (little_endian hw) (little_endian hr) then object_bytes hw x
        else reverse (object_bytes hw x)) = x.

(** ** Shape text with spaces, as NumPy prints it *)

(** An extent after [k] spaces. *)
Definition spaced (k : nat) (e : Z) : list char :=
  replicate k " "%char ++ to_string e.

(** Extents that are each followed by a comma. *)
Definition spaced_items (items : list (nat * Z)) : list char :=
  flat_map (fun item => spaced (fst item) (snd item) ++ str ",") items.

(** The text between the parentheses: extents that are each followed by
    a comma, then possibly a last one without a comma. *)
Definition spaced_body (items : list (nat * Z)) (final : option (nat * Z))
  : list char :=
  spaced_items items
  ++ match final with
     | Some item => spaced (fst item) (snd item)
     | None => []
     end.

Definition spaced_extents (items : list (nat * Z)) (final : option (nat * Z))
  : list Z :=
  map snd items
  ++ match final with
     | Some item => [snd item]
     | None => []
     end.

(** ** Files with a terminated header region

    [npy_file major_version region payload]: a file laid out as
    [write_npy] lays it out, for the versions 1 and 2: the magic string,
    the two version bytes, the length of the header region in two or
    four bytes, least significant byte first, the region and the
    payload. *)
Definition npy_file (major_version : Z) (region payload : list char)
  : list char :=
  magic
  ++ ascii_of_N (Z.to_N major_version) :: "000"%char
  :: le_bytes (if major_version =? 1 then 2 else 4) (vec_size region)
  ++ region ++ payload.

(** A header region that ends the header with a null character. *)
Definition terminated (header junk : list char) : list char :=
  header ++ "000"%char :: junk.

(** The six characters of [abcdef] in a file whose header region is the
    header [write_npy] writes for them, then a null character. *)
Definition abcdef_file : list char :=
  npy_file 1 (terminated (padded_header x86_64 [2; 3] UCHAR true) [])
           (str "abcdef").

(** * Properties *)

(** ** Outcomes and arithmetic *)

Lemma vec_at_lookup {A} (v : list A) (i : nat) x :
  v !! i = Some x -> vec_at v (Z.of_nat i) = Ok x.
Proof. intros Hx. unfold vec_at. rewrite Nat2Z.id, Hx. reflexivity. Qed.

Lemma vec_at_not_raises {A} (v : list A) i : ~ raises (vec_at v i).
Proof.
  unfold vec_at. intros [e He]. destruct (v !! Z.to_nat i); discriminate.
Qed.

Lemma wrap_small x : is_size_t x -> wrap x = x.
Proof. intros Hx. apply Z.mod_small. exact Hx. Qed.

Lemma wrap_range x : is_size_t (wrap x).
Proof. apply Z.mod_pos_bound. reflexivity. Qed.

Lemma wrap_wrap x : wrap (wrap x) = wrap x.
Proof. apply wrap_small, wrap_range. Qed.

Lemma wrap_mul_cong a a' b : wrap a = wrap a' -> wrap (mul64 a b) = wrap (a' * b).
Proof.
  unfold mul64, wrap. intros Ha. rewrite Z.mod_mod by discriminate.
  rewrite (Z.mul_mod a), Ha, <- Z.mul_mod; [reflexivity | discriminate ..].
Qed.

Lemma wrap_add_mul_cong a a' c c' x :
  wrap a = wrap a' -> wrap c = wrap c' ->
  wrap (add64 a (mul64 c x)) = wrap (a' + c' * x).
Proof.
  unfold add64, mul64, wrap. intros Ha Hc. rewrite Z.mod_mod by discriminate.
  rewrite Zplus_mod_idemp_r.
  rewrite (Zplus_mod a), (Zmult_mod c), Ha, Hc.
  rewrite <- Zmult_mod, <- Zplus_mod. reflexivity.
Qed.

Section LayoutFacts.
Context {T : Type}.
Implicit Types (a : NPArray T) (shp indices : list Z).

(** *** [check_indices] *)

Lemma check_loop_pass shp indices n i :
  (forall k, (i <= k < i + n)%nat ->
     exists x s, indices !! k = Some x /\ shp !! k = Some s /\ x < s) ->
  check_loop n i shp indices = Ok tt.
Proof.
  revert i. induction n as [|n IH]; intros i Hk; [reflexivity|].
  destruct (Hk i) as (x & s & Hx & Hs & Hlt); [lia|].
  simpl. rewrite (vec_at_lookup _ _ _ Hx), (vec_at_lookup _ _ _ Hs). simpl.
  destruct (Z.geb_spec x s); [lia|].
  apply IH. intros k Hr. apply Hk. lia.
Qed.

Lemma check_loop_fail shp indices n i k x s :
  (i <= k < i + n)%nat ->
  (i + n <= length indices)%nat -> (i + n <= length shp)%nat ->
  indices !! k = Some x -> shp !! k = Some s -> s <= x ->
  check_loop n i shp indices = Throw out_of_range.
Proof.
  revert i. induction n as [|n IH]; intros i Hr Hli Hls Hx Hs Hge; [lia|].
  destruct (lookup_lt_is_Some_2 indices i) as [x0 Hx0]; [lia|].
  destruct (lookup_lt_is_Some_2 shp i) as [s0 Hs0]; [lia|].
  simpl. rewrite (vec_at_lookup _ _ _ Hx0), (vec_at_lookup _ _ _ Hs0). simpl.
  destruct (Z.geb_spec x0 s0); [reflexivity|].
  apply IH; try lia; try assumption.
  destruct (decide (k = i)) as [->|]; [|lia].
  rewrite Hx in Hx0. rewrite Hs in Hs0. injection Hx0 as ->. injection Hs0 as ->. lia.
Qed.

Lemma check_indices_arity a indices :
  vec_size indices <> dimensions_ a ->
  check_indices a indices = Throw runtime_error.
Proof.
  intros Hne. unfold check_indices.
  destruct (Z.eqb_spec (vec_size indices) (dimensions_ a)); [contradiction|].
  reflexivity.
Qed.

Lemma check_indices_valid a indices :
  dimensions_ a = vec_size (shape_ a) ->
  Forall2 Z.lt indices (shape_ a) ->
  check_indices a indices = Ok tt.
Proof.
  intros Hd Hlt. unfold check_indices.
  pose proof (Forall2_length _ _ _ Hlt) as Hlen.
  rewrite Hd. unfold vec_size. rewrite Hlen, Z.eqb_refl. simpl.
  apply check_loop_pass. intros k Hk. rewrite Nat2Z.id in Hk.
  destruct (lookup_lt_is_Some_2 indices k) as [x Hx]; [lia|].
  destruct (Forall2_lookup_l _ _ _ _ _ Hlt Hx) as (s & Hs & Hxs).
  eauto.
Qed.

Lemma check_indices_out_of_range a indices k x s :
  dimensions_ a = vec_size (shape_ a) ->
  vec_size indices = dimensions_ a ->
  indices !! k = Some x -> shape_ a !! k = Some s -> s <= x ->
  check_indices a indices = Throw out_of_range.
Proof.
  intros Hd Hn Hx Hs Hge. unfold check_indices.
  rewrite Hn, Z.eqb_refl. simpl.
  assert (length indices = length (shape_ a)) as Hlen.
  { unfold vec_size in *. lia. }
  pose proof (lookup_lt_Some _ _ _ Hx).
  apply (check_loop_fail _ _ _ _ k x s); try assumption;
    rewrite Hd; unfold vec_size; rewrite Nat2Z.id; lia.
Qed.
End LayoutFacts.

(** ** The index loops compute the formulas of the specification *)

Section IndexFacts.
Implicit Types (shp indices : list Z).

Lemma nth_of_lookup shp i x : shp !! i = Some x -> nth i shp 0 = x.
Proof. intros Hx. rewrite nth_lookup, Hx. reflexivity. Qed.

Lemma c_loop_refines shp indices i : forall coeff indx coeff' indx',
  wrap coeff = wrap coeff' -> wrap indx = wrap indx' -> is_size_t indx ->
  (i < length shp)%nat -> (i <= length indices)%nat ->
  c_loop i shp indices coeff indx =
  Ok (wrap (snd (fold_left (spec_row_major_step shp indices)
                           (rev (seq 1 i)) (coeff', indx')))).
Proof.
  induction i as [|i IH]; intros coeff indx coeff' indx' Hc Hi Hr Hs Hx.
  - simpl. rewrite <- Hi, wrap_small by assumption. reflexivity.
  - destruct (lookup_lt_is_Some_2 shp (S i)) as [s Es]; [lia|].
    destruct (lookup_lt_is_Some_2 indices i) as [x Ex]; [lia|].
    rewrite seq_S, rev_app_distr. cbn [rev app fold_left c_loop].
    rewrite (vec_at_lookup _ _ _ Es), (vec_at_lookup _ _ _ Ex).
    cbn [mbind outcome_bind].
    apply IH; try lia.
    + unfold spec_row_major_step. cbn [fst snd].
      replace (1 + i)%nat with (S i) by lia.
      rewrite (nth_of_lookup _ _ _ Es).
      rewrite <- wrap_mul_cong with (a := coeff) by assumption.
      unfold mul64. rewrite wrap_wrap. reflexivity.
    + unfold spec_row_major_step. cbn [fst snd].
      replace (1 + i)%nat with (S i) by lia.
      replace (S i - 1)%nat with i by lia.
      rewrite (nth_of_lookup _ _ _ Es), (nth_of_lookup _ _ _ Ex).
      rewrite <- (wrap_add_mul_cong indx indx' (mul64 coeff s) (coeff' * s) x);
        [unfold add64; rewrite wrap_wrap; reflexivity | assumption |].
      apply wrap_mul_cong. assumption.
    + apply wrap_range.
Qed.

Lemma f_loop_refines shp indices n : forall i coeff indx coeff' indx',
  wrap coeff = wrap coeff' -> wrap indx = wrap indx' -> is_size_t indx ->
  (i + n < length shp)%nat -> (i + n < length indices)%nat ->
  f_loop n i shp indices coeff indx =
  Ok (wrap (snd (fold_left (spec_column_major_step shp indices)
                           (seq i n) (coeff', indx')))).
Proof.
  induction n as [|n IH]; intros i coeff indx coeff' indx' Hc Hi Hr Hs Hx.
  - simpl. rewrite <- Hi, wrap_small by assumption. reflexivity.
  - destruct (lookup_lt_is_Some_2 shp i) as [s Es]; [lia|].
    destruct (lookup_lt_is_Some_2 indices (S i)) as [x Ex]; [lia|].
    cbn [seq fold_left f_loop].
    rewrite (vec_at_lookup _ _ _ Es), (vec_at_lookup _ _ _ Ex).
    cbn [mbind outcome_bind].
    apply IH; try lia.
    + unfold spec_column_major_step. cbn [fst snd].
      rewrite (nth_of_lookup _ _ _ Es).
      rewrite <- wrap_mul_cong with (a := coeff) by assumption.
      unfold mul64. rewrite wrap_wrap. reflexivity.
    + unfold spec_column_major_step. cbn [fst snd].
      replace (i + 1)%nat with (S i) by lia.
      rewrite (nth_of_lookup _ _ _ Es), (nth_of_lookup _ _ _ Ex).
      rewrite <- (wrap_add_mul_cong indx indx' (mul64 coeff s) (coeff' * s) x);
        [unfold add64; rewrite wrap_wrap; reflexivity | assumption |].
      apply wrap_mul_cong. assumption.
    + apply wrap_range.
Qed.
End IndexFacts.

(** ** The formulas stay below the product of the extents *)

Section Bounds.
Implicit Types (shp indices : list Z).

Lemma product_app shp x : product (shp ++ [x]) = product shp * x.
Proof.
  induction shp as [|s shp IH]; simpl; [lia|]. rewrite IH. lia.
Qed.

Lemma product_pos shp indices :
  valid_indices indices shp -> 0 < product shp.
Proof.
  induction 1 as [|x s xs ss Hx _ IH]; simpl; [lia|]. nia.
Qed.

Lemma valid_drop indices shp i :
  valid_indices indices shp -> valid_indices (drop i indices) (drop i shp).
Proof. apply Forall2_drop. Qed.

Lemma valid_take indices shp i :
  valid_indices indices shp -> valid_indices (take i indices) (take i shp).
Proof. apply Forall2_take. Qed.

Lemma valid_lookup indices shp i s :
  valid_indices indices shp -> shp !! i = Some s ->
  exists x, indices !! i = Some x /\ 0 <= x < s.
Proof. intros Hv Hs. exact (Forall2_lookup_r _ _ _ _ _ Hv Hs). Qed.

Lemma row_major_bound shp indices i : forall coeff indx,
  valid_indices indices shp -> (i < length shp)%nat ->
  coeff = product (drop (S i) shp) ->
  0 <= indx < product (drop i shp) ->
  0 <= snd (fold_left (spec_row_major_step shp indices) (rev (seq 1 i))
                      (coeff, indx)) < product shp.
Proof.
  induction i as [|i IH]; intros coeff indx Hv Hi Hc Hx.
  - simpl. rewrite drop_0 in Hx. exact Hx.
  - rewrite seq_S, rev_app_distr. cbn [rev app fold_left].
    destruct (lookup_lt_is_Some_2 shp (S i)) as [s Es]; [lia|].
    destruct (lookup_lt_is_Some_2 shp i) as [s' Es']; [lia|].
    destruct (valid_lookup _ _ _ _ Hv Es') as (x & Ex & Hxs).
    pose proof (product_pos _ _ (valid_drop _ _ (S (S i)) Hv)) as Hpos.
    rewrite (drop_S _ _ _ Es) in Hx. simpl in Hx.
    apply IH; try assumption; try lia;
      unfold spec_row_major_step; cbn [fst snd];
      replace (1 + i)%nat with (S i) by lia;
      replace (S i - 1)%nat with i by lia;
      rewrite (nth_of_lookup _ _ _ Es), ?(nth_of_lookup _ _ _ Ex).
    + rewrite (drop_S _ _ _ Es). simpl. lia.
    + rewrite (drop_S _ _ _ Es'), (drop_S _ _ _ Es). simpl. subst coeff. nia.
Qed.

Lemma column_major_bound shp indices n : forall i coeff indx,
  valid_indices indices shp -> (i + n < length shp)%nat ->
  coeff = product (take i shp) ->
  0 <= indx < product (take (S i) shp) ->
  0 <= snd (fold_left (spec_column_major_step shp indices) (seq i n)
                      (coeff, indx)) < product (take (S (i + n)) shp).
Proof.
  induction n as [|n IH]; intros i coeff indx Hv Hi Hc Hx.
  - simpl. rewrite Nat.add_0_r. exact Hx.
  - cbn [seq fold_left].
    destruct (lookup_lt_is_Some_2 shp i) as [s Es]; [lia|].
    destruct (lookup_lt_is_Some_2 shp (S i)) as [s' Es']; [lia|].
    destruct (valid_lookup _ _ _ _ Hv Es') as (x & Ex & Hxs).
    pose proof (product_pos _ _ (valid_take _ _ i Hv)) as Hpos.
    rewrite (take_S_r _ _ _ Es), product_app in Hx.
    replace (S (i + S n)) with (S (S i + n)) by lia.
    apply IH; try assumption; try lia;
      unfold spec_column_major_step; cbn [fst snd];
      replace (i + 1)%nat with (S i) by lia;
      rewrite (nth_of_lookup _ _ _ Es), ?(nth_of_lookup _ _ _ Ex).
    + rewrite (take_S_r _ _ _ Es), product_app. lia.
    + rewrite (take_S_r _ _ _ Es'), (take_S_r _ _ _ Es), !product_app.
      subst coeff. nia.
Qed.

Lemma spec_linear_index_bound shp row_major indices :
  shp <> [] -> valid_indices indices shp ->
  0 <= spec_linear_index shp row_major indices < product shp.
Proof.
  intros Hne Hv.
  assert (0 < length shp)%nat as Hlen by (destruct shp; [congruence | simpl; lia]).
  pose proof (Forall2_length _ _ _ Hv) as Hl.
  destruct row_major; unfold spec_linear_index.
  - unfold spec_row_major.
    destruct (lookup_lt_is_Some_2 shp (length shp - 1)) as [s Es]; [lia|].
    destruct (valid_lookup _ _ _ _ Hv Es) as (x & Ex & Hxs).
    apply row_major_bound; try assumption; try lia.
    + rewrite drop_ge by lia. reflexivity.
    + rewrite (nth_of_lookup _ _ _ Ex), (drop_S _ _ _ Es).
      rewrite drop_ge by lia. simpl. lia.
  - unfold spec_column_major.
    destruct (lookup_lt_is_Some_2 shp 0) as [s Es]; [lia|].
    destruct (valid_lookup _ _ _ _ Hv Es) as (x & Ex & Hxs).
    pose proof (column_major_bound shp indices (length shp - 1) 0%nat 1
                  (nth 0 indices 0) Hv) as Hb.
    rewrite (take_ge shp (S (0 + (length shp - 1)))) in Hb by lia.
    apply Hb; try lia.
    + reflexivity.
    + rewrite (nth_of_lookup _ _ _ Ex), (take_S_r _ _ _ Es). simpl. lia.
Qed.
End Bounds.

(** ** [linear_index] *)

Section LinearIndex.
Context {T : Type}.
Implicit Types (a : NPArray T) (indices : list Z).

Lemma consistent_rank a :
  consistent a -> shape_ a <> [] ->
  sub64 (dimensions_ a) 1 = Z.of_nat (length (shape_ a) - 1)
  /\ (0 < length (shape_ a))%nat.
Proof.
  intros (Hd & Hr & _) Hne.
  assert (0 < length (shape_ a))%nat
    by (destruct (shape_ a); [congruence | simpl; lia]).
  split; [|assumption].
  unfold sub64. rewrite wrap_small; unfold is_size_t, vec_size in *; lia.
Qed.

Lemma valid_index_size_t indices shp i x :
  valid_indices indices shp -> Forall is_size_t shp ->
  indices !! i = Some x -> is_size_t x.
Proof.
  intros Hv Hs Hx.
  destruct (Forall2_lookup_l _ _ _ _ _ Hv Hx) as (s & Es & Hxs).
  pose proof (Forall_lookup_1 _ _ _ _ Hs Es) as Hss.
  unfold is_size_t in *. lia.
Qed.

Lemma c_continuous_index_spec a indices :
  consistent a -> shape_ a <> [] -> valid_indices indices (shape_ a) ->
  c_continuous_index a indices
  = Ok (wrap (spec_row_major (shape_ a) indices)).
Proof.
  intros Hc Hne Hv. destruct (consistent_rank a Hc Hne) as [Hsub Hpos].
  pose proof (Forall2_length _ _ _ Hv) as Hl.
  unfold c_continuous_index. rewrite Hsub.
  destruct (lookup_lt_is_Some_2 indices (length (shape_ a) - 1)) as [x Ex];
    [lia|].
  rewrite (vec_at_lookup _ _ _ Ex). cbn [mbind outcome_bind].
  rewrite Nat2Z.id. unfold spec_row_major.
  rewrite (nth_of_lookup _ _ _ Ex).
  apply c_loop_refines; try reflexivity; try lia.
  destruct Hc as (_ & _ & Hs). eapply valid_index_size_t; eassumption.
Qed.

Lemma fortran_continuous_index_spec a indices :
  consistent a -> shape_ a <> [] -> valid_indices indices (shape_ a) ->
  fortran_continuous_index a indices
  = Ok (wrap (spec_column_major (shape_ a) indices)).
Proof.
  intros Hc Hne Hv. destruct (consistent_rank a Hc Hne) as [Hsub Hpos].
  pose proof (Forall2_length _ _ _ Hv) as Hl.
  unfold fortran_continuous_index. rewrite Hsub.
  destruct (lookup_lt_is_Some_2 indices 0) as [x Ex]; [lia|].
  replace (vec_at indices 0) with (Ok x)
    by (unfold vec_at; change (Z.to_nat 0) with 0%nat; rewrite Ex; reflexivity).
  cbn [mbind outcome_bind].
  rewrite Nat2Z.id. unfold spec_column_major.
  rewrite (nth_of_lookup _ _ _ Ex).
  apply f_loop_refines; try reflexivity; try lia.
  destruct Hc as (_ & _ & Hs). eapply valid_index_size_t; eassumption.
Qed.

Lemma valid_indices_lt indices shp :
  valid_indices indices shp -> Forall2 Z.lt indices shp.
Proof. intros Hv. eapply Forall2_impl; [exact Hv|]. simpl. intros x s Hx. lia. Qed.

Lemma address_spec a indices :
  consistent a -> shape_ a <> [] -> valid_indices indices (shape_ a) ->
  (if c_continuous_ a then c_continuous_index a indices
   else fortran_continuous_index a indices)
  = Ok (wrap (spec_linear_index (shape_ a) (c_continuous_ a) indices)).
Proof.
  intros Hc Hne Hv. unfold spec_linear_index. destruct (c_continuous_ a).
  - apply c_continuous_index_spec; assumption.
  - apply fortran_continuous_index_spec; assumption.
Qed.

(** C2 (as amended): for an array of rank at least one and an index
    tuple with one index below each extent, [linear_index] returns the
    value of the accumulation formula of the specification for the
    array's layout, reduced to [size_t]; it is the exact value of the
    formula whenever the product of the extents fits [size_t].  For
    shape [2,3] the index (1,2) has flat index 5 under both layouts
    (see the witness). *)
Theorem linear_index_formula a indices :
  consistent a -> shape_ a <> [] -> valid_indices indices (shape_ a) ->
  linear_index a indices
  = Ok (wrap (spec_linear_index (shape_ a) (c_continuous_ a) indices))
  /\ (product (shape_ a) < 2 ^ 64 ->
      linear_index a indices
      = Ok (spec_linear_index (shape_ a) (c_continuous_ a) indices)).
Proof.
  intros Hc Hne Hv.
  assert (linear_index a indices
    = Ok (wrap (spec_linear_index (shape_ a) (c_continuous_ a) indices)))
    as Hw.
  { unfold linear_index.
    rewrite check_indices_valid;
      [| apply Hc | apply valid_indices_lt; assumption].
    cbn [mbind outcome_bind]. apply address_spec; assumption. }
  split; [exact Hw|]. intros Hp. rewrite Hw. f_equal. apply wrap_small.
  pose proof (spec_linear_index_bound (shape_ a) (c_continuous_ a) indices
                Hne Hv).
  unfold is_size_t. lia.
Qed.
End LinearIndex.

Lemma linear_index_formula_witness :
  linear_index (mkNPArray zeros6 [2; 3] true 2) [1; 2] = Ok 5
  /\ linear_index (mkNPArray zeros6 [2; 3] false 2) [1; 2] = Ok 5.
Proof.
  split.
  - apply (linear_index_formula (mkNPArray zeros6 [2; 3] true 2) [1; 2]).
    + unfold consistent, is_size_t. simpl. repeat constructor; lia.
    + discriminate.
    + unfold valid_indices. repeat constructor; lia.
    + reflexivity.
  - apply (linear_index_formula (mkNPArray zeros6 [2; 3] false 2) [1; 2]).
    + unfold consistent, is_size_t. simpl. repeat constructor; lia.
    + discriminate.
    + unfold valid_indices. repeat constructor; lia.
    + reflexivity.
Defined.

(** C2, counterexample: under the column-major layout the index (1,2) of
    shape [2,3] does not have the flat index 4; it has 1 + 2 * 2 = 5. *)
Lemma linear_index_column_major_counterexample :
  linear_index (mkNPArray zeros6 [2; 3] false 2) [1; 2] <> Ok 4.
Proof. vm_compute. discriminate. Qed.

(** ** Checked and unchecked indexing *)

Section Indexing.
Context {T : Type}.
Implicit Types (a : NPArray T) (indices : list Z).

Lemma check_first a indices e :
  check_indices a indices = Throw e ->
  linear_index a indices = Throw e /\ call a indices = Throw e.
Proof.
  intros He. unfold linear_index, call. rewrite He. split; reflexivity.
Qed.

Lemma index_not_raises a indices :
  ~ raises (if c_continuous_ a then c_continuous_index a indices
            else fortran_continuous_index a indices).
Proof.
  assert (forall i shp coeff indx, ~ raises (c_loop i shp indices coeff indx))
    as Hc.
  { induction i as [|i IH]; intros shp coeff indx [e He]; [discriminate|].
    cbn [c_loop] in He. unfold vec_at in He.
    destruct (shp !! _); [|discriminate].
    destruct (indices !! _); [|discriminate].
    cbn [mbind outcome_bind] in He. eapply IH. eexists. exact He. }
  assert (forall n i shp coeff indx, ~ raises (f_loop n i shp indices coeff indx))
    as Hf.
  { induction n as [|n IH]; intros i shp coeff indx [e He]; [discriminate|].
    cbn [f_loop] in He. unfold vec_at in He.
    destruct (shp !! _); [|discriminate].
    destruct (indices !! _); [|discriminate].
    cbn [mbind outcome_bind] in He. eapply IH. eexists. exact He. }
  intros [e He]. destruct (c_continuous_ a).
  - unfold c_continuous_index, vec_at in He.
    destruct (indices !! _); [|discriminate].
    eapply Hc. eexists. exact He.
  - unfold fortran_continuous_index, vec_at in He.
    destruct (indices !! _); [|discriminate].
    eapply Hf. eexists. exact He.
Qed.

(** What [check_indices] gives on an array whose [dimensions_] is the
    length of its shape: its exceptions come first, the arity test
    before the range test, and a valid tuple never raises. *)
Lemma checked_indexing a indices :
  consistent a ->
  (forall e, check_indices a indices = Throw e ->
     linear_index a indices = Throw e /\ call a indices = Throw e)
  /\ (vec_size indices <> dimensions_ a ->
      linear_index a indices = Throw runtime_error
      /\ call a indices = Throw runtime_error)
  /\ (vec_size indices = dimensions_ a ->
      (exists i x s,
         indices !! i = Some x /\ shape_ a !! i = Some s /\ s <= x) ->
      linear_index a indices = Throw out_of_range
      /\ call a indices = Throw out_of_range)
  /\ (valid_indices indices (shape_ a) ->
      ~ raises (linear_index a indices)
      /\ ~ raises (call a indices)
      /\ (shape_ a <> [] ->
          (exists k, linear_index a indices = Ok k)
          /\ (size a = product (shape_ a) -> product (shape_ a) < 2 ^ 64 ->
              exists v, call a indices = Ok v))).
Proof.
  intros Hc. split; [|split; [|split]].
  - intros e. apply check_first.
  - intros Hn. apply check_first, check_indices_arity, Hn.
  - intros Hn (i & x & s & Hx & Hs & Hge). apply check_first.
    eapply check_indices_out_of_range; try eassumption. apply Hc.
  - intros Hv.
    assert (check_indices a indices = Ok tt) as Hchk.
    { apply check_indices_valid; [apply Hc | apply valid_indices_lt, Hv]. }
    split; [|split].
    + unfold linear_index. rewrite Hchk. apply index_not_raises.
    + unfold call. rewrite Hchk. cbn [mbind outcome_bind].
      intros [e He].
      destruct (if c_continuous_ a then _ else _) as [k| e' |] eqn:Ek;
        cbn [mbind outcome_bind] in He.
      * exact (vec_at_not_raises _ _ (ex_intro _ e He)).
      * apply (index_not_raises a indices). rewrite Ek. eexists. reflexivity.
      * discriminate.
    + intros Hne.
      pose proof (address_spec a indices Hc Hne Hv) as Ha.
      split.
      * eexists. unfold linear_index. rewrite Hchk. exact Ha.
      * intros Hsz Hp. unfold call. rewrite Hchk. cbn [mbind outcome_bind].
        rewrite Ha. cbn [mbind outcome_bind].
        pose proof (spec_linear_index_bound (shape_ a) (c_continuous_ a)
                      indices Hne Hv) as Hb.
        rewrite wrap_small by (unfold is_size_t; lia).
        unfold size, vec_size in Hsz. unfold vec_at.
        destruct (lookup_lt_is_Some_2 (data_ a)
          (Z.to_nat (spec_linear_index (shape_ a) (c_continuous_ a) indices)))
          as [v Ev]; [lia|].
        rewrite Ev. eexists. reflexivity.
Qed.

(** C9: [operator[](i)] validates nothing: it never raises, it returns
    the element for [i] below [size()], and any other [i] is an
    unguarded access (undefined behaviour), not an error. *)
Theorem subscript_is_unchecked a (i : Z) :
  ~ raises (subscript a i)
  /\ (0 <= i < size a -> exists v, subscript a i = Ok v)
  /\ (size a <= i -> subscript a i = Undefined).
Proof.
  unfold subscript, size, vec_size. split; [apply vec_at_not_raises|].
  unfold vec_at. split.
  - intros Hi. destruct (lookup_lt_is_Some_2 (data_ a) (Z.to_nat i)) as [v Ev];
      [lia|]. rewrite Ev. eexists. reflexivity.
  - intros Hi. rewrite lookup_ge_None_2 by lia. reflexivity.
Qed.
End Indexing.

Lemma abcdef_consistent : consistent abcdef.
Proof. unfold consistent, is_size_t. simpl. repeat constructor; lia. Defined.

(** ** Element counts and [reshape] *)

(** Inversion of a successful bind. *)
Ltac bind_inv H :=
  match type of H with
  | (?m ≫= _) = _ =>
      let E := fresh "E" in
      destruct m eqn:E; cbn [mbind outcome_bind] in H; try discriminate H
  end.

Lemma count_elements_range rest : forall s0,
  is_size_t s0 -> is_size_t (count_elements s0 rest).
Proof.
  unfold count_elements.
  induction rest as [|s rest IH]; intros s0 Hs; [exact Hs|].
  simpl. apply IH, wrap_range.
Qed.

Lemma count_elements_product rest : forall s0,
  wrap (count_elements s0 rest) = wrap (product (s0 :: rest)).
Proof.
  unfold count_elements.
  induction rest as [|s rest IH]; intros s0; simpl.
  - f_equal. lia.
  - rewrite IH. simpl. unfold mul64, wrap.
    rewrite Zmult_mod_idemp_l. f_equal. lia.
Qed.

Lemma element_count_exact shp :
  shp <> [] -> Forall is_size_t shp -> product shp < 2 ^ 64 ->
  0 <= product shp ->
  element_count shp = Some (product shp).
Proof.
  intros Hne Hs Hp Hp0. destruct shp as [|s0 rest]; [congruence|].
  simpl. f_equal.
  rewrite <- (wrap_small (count_elements s0 rest)).
  - rewrite count_elements_product. apply wrap_small. split; assumption.
  - apply count_elements_range. inversion Hs; assumption.
Qed.

Lemma product_nonneg shp : Forall is_size_t shp -> 0 <= product shp.
Proof.
  induction 1 as [|s shp Hs _ IH]; simpl; [lia|].
  unfold is_size_t in Hs. nia.
Qed.

Section Shape.
Context {T : Type}.
Implicit Types (a : NPArray T).

(** C6 (as amended): [reshape(new_shape)] succeeds exactly when
    [new_shape] is not empty and stands for as many elements as the
    array holds, the count being the product of the extents modulo
    2^64 (for a product that fits [size_t]: exactly when the product
    of the extents is [size()]).  On success only [shape_] and
    [dimensions_] change, the elements and the layout stay.
    Otherwise, an empty shape included, it throws
    [std::runtime_error] and leaves the array as it was. *)
Theorem reshape_spec (new_shape : list Z) a :
  (snd (reshape new_shape a) = Ok tt
   <-> element_count new_shape = Some (size a))
  /\ (snd (reshape new_shape a) = Ok tt ->
      data_ (fst (reshape new_shape a)) = data_ a
      /\ shape_ (fst (reshape new_shape a)) = new_shape
      /\ c_continuous_ (fst (reshape new_shape a)) = c_continuous_ a
      /\ dimensions_ (fst (reshape new_shape a)) = vec_size new_shape)
  /\ (snd (reshape new_shape a) <> Ok tt ->
      snd (reshape new_shape a) = Throw runtime_error
      /\ fst (reshape new_shape a) = a)
  /\ (new_shape = [] -> snd (reshape new_shape a) = Throw runtime_error)
  /\ (new_shape <> [] -> Forall is_size_t new_shape ->
      product new_shape < 2 ^ 64 ->
      (snd (reshape new_shape a) = Ok tt <-> product new_shape = size a))
  /\ (new_shape <> [] -> Forall is_size_t new_shape ->
      (snd (reshape new_shape a) = Ok tt
       <-> product new_shape mod 2 ^ 64 = size a)).
Proof.
  assert (snd (reshape new_shape a) = Ok tt
          <-> element_count new_shape = Some (size a)) as Hiff.
  { unfold reshape, size. destruct new_shape as [|s0 rest]; simpl.
    - split; discriminate.
    - destruct (Z.eqb_spec (count_elements s0 rest) (vec_size (data_ a)));
        simpl; split; congruence. }
  split; [exact Hiff|].
  assert (new_shape <> [] -> Forall is_size_t new_shape ->
          product new_shape < 2 ^ 64 ->
          (snd (reshape new_shape a) = Ok tt <-> product new_shape = size a))
    as Hexact.
  { intros Hne Hs Hp. rewrite Hiff.
    rewrite element_count_exact by (auto using product_nonneg).
    split; congruence. }
  assert (new_shape <> [] -> Forall is_size_t new_shape ->
          (snd (reshape new_shape a) = Ok tt
           <-> product new_shape mod 2 ^ 64 = size a)) as Hmod.
  { intros Hne Hs. rewrite Hiff.
    destruct new_shape as [|s0 rest]; [congruence|]. cbn [element_count].
    pose proof (count_elements_range rest s0 (Forall_inv Hs)) as Hr.
    pose proof (count_elements_product rest s0) as Hp.
    rewrite (wrap_small _ Hr) in Hp. unfold wrap in Hp. rewrite <- Hp.
    split; congruence. }
  clear Hiff. revert Hexact Hmod.
  unfold reshape, size. destruct new_shape as [|s0 rest]; simpl.
  - intros _ _. repeat split; try discriminate; try reflexivity;
      intros Hc; try discriminate; congruence.
  - destruct (Z.eqb_spec (count_elements s0 rest) (vec_size (data_ a)))
      as [He|Hne]; simpl; intros Hexact Hmod.
    + repeat split; try reflexivity; try congruence;
        first [apply Hexact | apply Hmod]; assumption.
    + repeat split; try discriminate; try reflexivity;
        try (intros Hc; inversion Hc; congruence);
        first [apply Hexact | apply Hmod]; assumption.
Qed.
End Shape.

Example reshape_2x3_to_3x2 :
  reshape [3; 2] abcdef = (mkNPArray (str "abcdef") [3; 2] true 2, Ok tt).
Proof. reflexivity. Qed.

Example reshape_2x3_to_4x2 :
  reshape [4; 2] abcdef = (abcdef, Throw runtime_error).
Proof. reflexivity. Qed.

(** C6, counterexample: success is not decided by the product of the
    extents itself.  The product of [2^63 + 3, 2] is 2^64 + 6, and
    [reshape] to that shape succeeds on the six-element array. *)
Lemma reshape_product_wraps_counterexample :
  ~ (forall (new_shape : list Z) (a : NPArray char),
       new_shape <> [] -> Forall is_size_t new_shape ->
       (snd (reshape new_shape a) = Ok tt <-> product new_shape = size a)).
Proof.
  intros Hall.
  destruct (Hall [2 ^ 63 + 3; 2] abcdef) as [Hok _].
  - discriminate.
  - repeat constructor; unfold is_size_t; lia.
  - specialize (Hok eq_refl). vm_compute in Hok. discriminate Hok.
Qed.

Example reshape_2x3_to_wrapping_shape :
  reshape [2 ^ 63 + 3; 2] abcdef
  = (mkNPArray (str "abcdef") [2 ^ 63 + 3; 2] true 2, Ok tt).
Proof. reflexivity. Qed.

(** ** The invariant of the container *)

Section Invariant.
Context {T : Type} `{Element T}.
Variable value_init : T.
Variable max_size : Z.
Implicit Types (a : NPArray T).















End Invariant.



(** A [reallocate] to more than [max_size()] elements throws
    [std::length_error] after the shape is assigned: the six elements
    stay under the shape [2^63]. *)
Example failed_reallocate_breaks_invariant :
  reallocate "000"%char (vector_max_size 1) [2 ^ 63] abcdef
  = (mkNPArray (str "abcdef") [2 ^ 63] true 1, Throw length_error)
  /\ ~ (forall a : NPArray char,
          reachable "000"%char (vector_max_size 1) false true a ->
          array_invariant a).
Proof.
  split; [reflexivity|].
  intros Hall.
  destruct (Hall (fst (reallocate "000"%char (vector_max_size 1) [2 ^ 63]
                         abcdef))) as [_ Hcount].
  - apply reach_reallocate; [repeat constructor; unfold is_size_t; lia | |].
    + apply (reach_data _ _ _ _ (str "abcdef") [2; 3] true);
        [repeat constructor; unfold is_size_t; lia | reflexivity].
    + left. reflexivity.
  - vm_compute in Hcount. discriminate Hcount.
Qed.

(** ** Indexing is checked on every array that has a shape *)

Section ShapeTyping.
Implicit Types (header temp : list char) (shp : list Z).

Lemma shape_loop_size_t fuel : forall header i loc2 temp shp temp' shp',
  Forall is_size_t shp ->
  shape_loop fuel header i loc2 temp shp = Ok (temp', shp') ->
  Forall is_size_t shp'.
Proof.
  induction fuel as [|fuel IH]; intros header i loc2 temp shp temp' shp' Hs Hl;
    cbn [shape_loop] in Hl; destruct (i <? loc2);
    try discriminate; try (injection Hl as <- <-; exact Hs).
  bind_inv Hl.
  destruct (negb _); [eapply IH; eassumption|].
  destruct (vec_size temp >? 0); [|eapply IH; eassumption].
  bind_inv Hl. eapply IH; [|exact Hl].
  apply Forall_app. split; [exact Hs|].
  constructor; [apply wrap_range | constructor].
Qed.

Lemma parse_shape_size_t header shp :
  parse_shape header = Ok shp -> Forall is_size_t shp.
Proof.
  unfold parse_shape. intros Hp.
  destruct (_ =? _).
  - injection Hp as <-. repeat constructor; unfold is_size_t; lia.
  - bind_inv Hp. destruct a as [temp shp0].
    pose proof (shape_loop_size_t _ _ _ _ _ _ _ _ (List.Forall_nil _) E) as Hs.
    destruct (vec_size temp >? 0).
    + bind_inv Hp. injection Hp as <-.
      apply Forall_app. split; [exact Hs|].
      constructor; [apply wrap_range | constructor].
    + injection Hp as <-. exact Hs.
Qed.

Lemma load_npy_size_t h file data shp dtype c :
  load_npy h file = Ok (data, shp, dtype, c) -> Forall is_size_t shp.
Proof.
  unfold load_npy. intros Hl.
  bind_inv Hl. destruct a as [magic_string f1].
  destruct (negb _); [discriminate|].
  bind_inv Hl. destruct a as [major f2].
  bind_inv Hl. destruct a as [minor f3].
  bind_inv Hl. bind_inv Hl. destruct a0 as [len f4].
  bind_inv Hl. destruct a0 as [header_char f5].
  bind_inv Hl. bind_inv Hl. bind_inv Hl. destruct a2 as [dt le].
  bind_inv Hl. bind_inv Hl. bind_inv Hl. destruct a4 as [d f6].
  bind_inv Hl. injection Hl as _ <- _ _.
  eapply parse_shape_size_t. eassumption.
Qed.
End ShapeTyping.

Section CheckedIndexing.
Context {T : Type} `{Element T}.
Variable value_init : T.
Variable max_size : Z.
Implicit Types (a : NPArray T) (indices : list Z).

Lemma load_bookkeeping h file a :
  load h max_size file = Ok a ->
  dimensions_ a = vec_size (shape_ a) /\ Forall is_size_t (shape_ a).
Proof.
  unfold load. intros Ha.
  destruct typeid_DType as [expected|]; [|discriminate].
  bind_inv Ha. destruct a0 as [[[data_ptr data_shape] data_dtype] c].
  apply load_npy_size_t in E.
  destruct (negb _); [discriminate|].
  destruct (vec_size data_shape <? 1); [discriminate|].
  bind_inv Ha. bind_inv Ha. bind_inv Ha. bind_inv Ha.
  injection Ha as <-. cbn [dimensions_ shape_].
  unfold NPArray_data in E3. destruct data_shape as [|s0 rest];
    [discriminate|].
  destruct (negb _); [discriminate|]. injection E3 as <-.
  split; [reflexivity | exact E].
Qed.

(** Every array that was not default-constructed knows its rank. *)
Lemma reachable_bookkeeping with_failed a :
  reachable value_init max_size false with_failed a ->
  dimensions_ a = vec_size (shape_ a) /\ Forall is_size_t (shape_ a).
Proof.
  induction 1 as [c d Hd | shp c a Hs Ha | data shp c a Hs Ha | h file a Ha
                 | val a _ IH | shp a Hs _ IH | shp a Hs _ IH Hok
                 | indices v a _ IH | i v a _ IH].
  - discriminate.
  - destruct shp as [|s0 rest]; [discriminate|].
    cbn [NPArray_shape] in Ha. bind_inv Ha. injection Ha as <-.
    split; [reflexivity | exact Hs].
  - destruct shp as [|s0 rest]; [discriminate|].
    cbn [NPArray_data] in Ha. destruct (negb _); [discriminate|].
    injection Ha as <-. split; [reflexivity | exact Hs].
  - eapply load_bookkeeping. eassumption.
  - exact IH.
  - unfold reshape. destruct shp as [|s0 rest]; [exact IH|].
    destruct (_ =? _); [|exact IH].
    split; [reflexivity | exact Hs].
  - unfold reallocate. destruct shp as [|s0 rest]; [exact IH|].
    destruct (vec_resize _ _ _ _); split; (reflexivity || exact Hs).
  - unfold call_assign. destruct (_ ≫= _) as [indx| |]; try exact IH.
    destruct (data_ a !! _); exact IH.
  - unfold subscript_assign. destruct (data_ a !! _); exact IH.
Qed.

(** C4 (as amended): on every array that was not default-constructed
    (built by a constructor that takes a shape or by [load], then
    changed by any of the methods, a [reallocate] that throws
    included) the rank recorded in [dimensions_] is the length of the
    shape, and [linear_index] and [operator()] end with whatever
    [check_indices] throws, before any address is computed:
    [std::runtime_error] when the number of indices differs from the
    rank, [std::out_of_range] when the number matches and some index
    is not below its extent.  With a valid tuple neither raises; for
    rank at least one [linear_index] returns an index, and
    [operator()] returns an element when the array holds as many
    elements as its shape has. *)
Theorem indexing_is_checked a indices :
  reachable value_init max_size false true a ->
  vec_size (shape_ a) < 2 ^ 64 ->
  dimensions_ a = vec_size (shape a)
  /\ (forall e, check_indices a indices = Throw e ->
        linear_index a indices = Throw e /\ call a indices = Throw e)
  /\ (vec_size indices <> dimensions_ a ->
      linear_index a indices = Throw runtime_error
      /\ call a indices = Throw runtime_error)
  /\ (vec_size indices = dimensions_ a ->
      (exists i x s,
         indices !! i = Some x /\ shape_ a !! i = Some s /\ s <= x) ->
      linear_index a indices = Throw out_of_range
      /\ call a indices = Throw out_of_range)
  /\ (valid_indices indices (shape_ a) ->
      ~ raises (linear_index a indices)
      /\ ~ raises (call a indices)
      /\ (shape_ a <> [] ->
          (exists k, linear_index a indices = Ok k)
          /\ (size a = product (shape_ a) -> product (shape_ a) < 2 ^ 64 ->
              exists v, call a indices = Ok v))).
Proof.
  intros Hr Hrank.
  destruct (reachable_bookkeeping _ a Hr) as [Hd Hs].
  split; [exact Hd|]. apply checked_indexing.
  unfold consistent, is_size_t. rewrite Hd. unfold vec_size in *.
  repeat split; try assumption; lia.
Qed.
End CheckedIndexing.

Lemma abcdef_reachable with_default with_failed :
  reachable "000"%char (vector_max_size 1) with_default with_failed abcdef.
Proof.
  apply (reach_data _ _ _ _ (str "abcdef") [2; 3] true);
    [repeat constructor; unfold is_size_t; lia | reflexivity].
Defined.

Lemma indexing_is_checked_witness :
  call abcdef [1] = Throw runtime_error
  /\ call abcdef [2; 0] = Throw out_of_range
  /\ exists v, call abcdef [1; 2] = Ok v.
Proof.
  split; [|split].
  - apply (indexing_is_checked "000"%char (vector_max_size 1) abcdef [1]
             (abcdef_reachable false true) eq_refl).
    discriminate.
  - apply (indexing_is_checked "000"%char (vector_max_size 1) abcdef [2; 0]
             (abcdef_reachable false true) eq_refl);
      [reflexivity|]. exists 0%nat, 2, 2. repeat split; reflexivity || lia.
  - apply (indexing_is_checked "000"%char (vector_max_size 1) abcdef [1; 2]
             (abcdef_reachable false true) eq_refl).
    + unfold valid_indices. repeat constructor; lia.
    + discriminate.
    + reflexivity.
    + reflexivity.
Defined.

(** C4, counterexample: indexing is not checked on every array.  The
    default constructor is public and leaves [dimensions_]
    uninitialised: when it holds 1, a tuple of one index passes the
    arity test on an array of rank 0 and [check_indices] reads
    [shape_[0]] of the empty shape; no exception is raised. *)
Lemma default_constructed_array_is_not_checked :
  ~ (forall (a : NPArray char) (indices : list Z),
       reachable "000"%char (vector_max_size 1) true true a ->
       vec_size indices <> vec_size (shape a) ->
       raises (call a indices) /\ raises (linear_index a indices)).
Proof.
  intros Hall.
  destruct (Hall (NPArray_default true 1) [0]) as [[e He] _].
  - apply reach_default. reflexivity.
  - discriminate.
  - discriminate He.
Qed.

(** ** The fixed-width swap routines *)

Section Swap.
Implicit Types (mem pre post data : list char) (p w n : nat).

Lemma insert_app_0 pre (l : list char) x :
  <[length pre := x]> (pre ++ l) = pre ++ <[0%nat := x]> l.
Proof.
  rewrite <- (Nat.add_0_r (length pre)) at 1. apply insert_app_r.
Qed.

Lemma memcpy_app pre (chunk post : list char) :
  memcpy (pre ++ chunk ++ post) (length pre) (length chunk) = Ok chunk.
Proof.
  unfold memcpy. rewrite drop_app_length, take_app_length, Nat.eqb_refl.
  reflexivity.
Qed.

Ltac swap_app pre chunk post :=
  let Hm := fresh "Hm" in
  pose proof (memcpy_app pre chunk post) as Hm; cbn [length] in Hm;
  rewrite Hm; cbn [mbind outcome_bind]; clear Hm;
  rewrite insert_app_0, !insert_app_r; reflexivity.

Lemma swap_two_bytes_app pre post t0 t1 :
  swap_two_bytes (length pre) (pre ++ [t0; t1] ++ post)
  = Ok (pre ++ [t1; t0] ++ post).
Proof. unfold swap_two_bytes. swap_app pre [t0; t1] post. Qed.

Lemma swap_four_bytes_app pre post t0 t1 t2 t3 :
  swap_four_bytes (length pre) (pre ++ [t0; t1; t2; t3] ++ post)
  = Ok (pre ++ [t3; t2; t1; t0] ++ post).
Proof. unfold swap_four_bytes. swap_app pre [t0; t1; t2; t3] post. Qed.

Lemma swap_eight_bytes_app pre post t0 t1 t2 t3 t4 t5 t6 t7 :
  swap_eight_bytes (length pre)
    (pre ++ [t0; t1; t2; t3; t4; t5; t6; t7] ++ post)
  = Ok (pre ++ [t7; t6; t5; t4; t3; t2; t1; t0] ++ post).
Proof.
  unfold swap_eight_bytes.
  swap_app pre [t0; t1; t2; t3; t4; t5; t6; t7] post.
Qed.

Lemma swap_sixteen_bytes_app pre post
    t0 t1 t2 t3 t4 t5 t6 t7 t8 t9 t10 t11 t12 t13 t14 t15 :
  swap_sixteen_bytes (length pre)
    (pre ++ [t0; t1; t2; t3; t4; t5; t6; t7;
             t8; t9; t10; t11; t12; t13; t14; t15] ++ post)
  = Ok (pre ++ [t15; t14; t13; t12; t11; t10; t9; t8;
                t7; t6; t5; t4; t3; t2; t1; t0] ++ post).
Proof.
  unfold swap_sixteen_bytes.
  swap_app pre [t0; t1; t2; t3; t4; t5; t6; t7;
                t8; t9; t10; t11; t12; t13; t14; t15] post.
Qed.

(** The three parts of a buffer around the [w] bytes at offset [p]. *)
Lemma split_at p w mem :
  (p + w <= length mem)%nat ->
  mem = take p mem ++ take w (drop p mem) ++ drop (p + w) mem
  /\ length (take p mem) = p /\ length (take w (drop p mem)) = w.
Proof.
  intros Hl. split; [|split].
  - rewrite <- drop_drop, take_drop, take_drop. reflexivity.
  - rewrite length_take. lia.
  - rewrite length_take, length_drop. lia.
Qed.

Lemma swap_routines_reverse_at w routine p mem :
  In (w, routine) swap_routines ->
  (p + w <= length mem)%nat ->
  routine p mem = Ok (reverse_at w p mem).
Proof.
  intros Hin Hl. destruct (split_at p w mem Hl) as (Hm & Hp & Hw).
  unfold reverse_at.
  set (pre := take p mem) in *. set (chunk := take w (drop p mem)) in *.
  set (post := drop (p + w) mem) in *. clearbody pre chunk post.
  subst mem p. clear Hl.
  simpl in Hin.
  destruct Hin as [E|[E|[E|[E|[]]]]]; injection E as <- <-.
  - destruct chunk as [|t0 [|t1 [|]]]; try discriminate Hw.
    apply swap_two_bytes_app.
  - destruct chunk as [|t0 [|t1 [|t2 [|t3 [|]]]]]; try discriminate Hw.
    apply swap_four_bytes_app.
  - destruct chunk as [|t0 [|t1 [|t2 [|t3 [|t4 [|t5 [|t6 [|t7 [|]]]]]]]]];
      try discriminate Hw.
    apply swap_eight_bytes_app.
  - destruct chunk as [|t0 [|t1 [|t2 [|t3 [|t4 [|t5 [|t6 [|t7
      [|t8 [|t9 [|t10 [|t11 [|t12 [|t13 [|t14 [|t15 [|]]]]]]]]]]]]]]]]];
      try discriminate Hw.
    apply swap_sixteen_bytes_app.
Qed.
End Swap.

(** ** Reversal of a span and of the elements of a buffer *)

Section Reverse.
Implicit Types (mem data : list char) (p w n : nat).

Lemma length_reverse_at w p mem :
  (p + w <= length mem)%nat -> length (reverse_at w p mem) = length mem.
Proof.
  intros Hl. unfold reverse_at.
  rewrite !length_app, length_reverse, !length_take, !length_drop. lia.
Qed.

Lemma reverse_at_app (pre chunk post : list char) :
  reverse_at (length chunk) (length pre) (pre ++ chunk ++ post)
  = pre ++ reverse chunk ++ post.
Proof.
  unfold reverse_at.
  rewrite take_app_length, drop_app_length, take_app_length.
  rewrite <- length_app, (app_assoc pre chunk post), drop_app_length.
  reflexivity.
Qed.

Lemma reverse_at_involutive w p mem :
  (p + w <= length mem)%nat -> reverse_at w p (reverse_at w p mem) = mem.
Proof.
  intros Hl. destruct (split_at p w mem Hl) as (Hm & Hp & Hw).
  rewrite Hm. rewrite <- Hp at 1 2. rewrite <- Hw at 1 2.
  rewrite <- (length_reverse (take w (drop p mem))) at 1.
  rewrite reverse_at_app, reverse_at_app, reverse_involutive. reflexivity.
Qed.

(** Byte [i] of the span comes from byte [w - 1 - i]. *)
Lemma reverse_at_lookup_in w p mem i :
  (p + w <= length mem)%nat -> (i < w)%nat ->
  reverse_at w p mem !! (p + i)%nat = mem !! (p + (w - 1 - i))%nat.
Proof.
  intros Hl Hi. destruct (split_at p w mem Hl) as (Hm & Hp & Hw).
  unfold reverse_at.
  rewrite lookup_app_r by (rewrite Hp; lia).
  rewrite Hp. replace (p + i - p)%nat with i by lia.
  rewrite lookup_app_l by (rewrite length_reverse, Hw; lia).
  rewrite (reverse_lookup (take w (drop p mem)) i) by (rewrite Hw; exact Hi).
  rewrite Hw, lookup_take_lt by lia.
  rewrite lookup_drop. f_equal. lia.
Qed.

(** Bytes outside the span stay. *)
Lemma reverse_at_lookup_out w p mem j :
  (p + w <= length mem)%nat -> (j < p \/ p + w <= j)%nat ->
  reverse_at w p mem !! j = mem !! j.
Proof.
  intros Hl Hj. destruct (split_at p w mem Hl) as (Hm & Hp & Hw).
  unfold reverse_at. destruct Hj as [Hj|Hj].
  - rewrite lookup_app_l by (rewrite Hp; lia). apply lookup_take_lt. lia.
  - rewrite lookup_app_r by (rewrite Hp; lia).
    rewrite Hp.
    rewrite lookup_app_r by (rewrite length_reverse, Hw; lia).
    rewrite length_reverse, Hw, lookup_drop. f_equal. lia.
Qed.

Lemma length_reverse_elements n w : forall data,
  length (reverse_elements n w data) = length data.
Proof.
  induction n as [|n IH]; intros data; [reflexivity|].
  simpl. rewrite length_app, length_reverse, IH, length_take, length_drop. lia.
Qed.

Lemma reverse_elements_involutive n w : forall data,
  (n * w <= length data)%nat ->
  reverse_elements n w (reverse_elements n w data) = data.
Proof.
  induction n as [|n IH]; intros data Hl; [reflexivity|].
  cbn [reverse_elements].
  assert (length (reverse (take w data)) = w) as Hr
    by (rewrite length_reverse, length_take; lia).
  rewrite <- Hr at 1. rewrite take_app_length, reverse_involutive.
  rewrite <- Hr at 3. rewrite drop_app_length.
  rewrite IH by (rewrite length_drop; lia).
  apply take_drop.
Qed.

(** One more element reversed, at offset [p]. *)
Lemma reverse_elements_step n w p data :
  (p + w <= length data)%nat ->
  take (p + w) (reverse_at w p data)
    ++ reverse_elements n w (drop (p + w) (reverse_at w p data))
  = take p data ++ reverse_elements (S n) w (drop p data).
Proof.
  intros Hl. destruct (split_at p w data Hl) as (Hm & Hp & Hw).
  unfold reverse_at. cbn [reverse_elements].
  assert (length (take p data ++ reverse (take w (drop p data)))
          = (p + w)%nat) as Hpw
    by (rewrite length_app, length_reverse, Hp, Hw; reflexivity).
  rewrite app_assoc.
  rewrite <- Hpw at 1. rewrite take_app_length.
  rewrite <- Hpw at 1. rewrite drop_app_length.
  rewrite drop_drop, <- app_assoc. reflexivity.
Qed.
End Reverse.

(** ** [swap_bytes] *)

Section SwapBytes.
Implicit Types (data : list char) (p w k fuel : nat).

Lemma swap_loop_done fuel i number_of_bytes element_size data :
  number_of_bytes <= i ->
  swap_loop fuel i number_of_bytes element_size data = Ok data.
Proof.
  intros Hi. destruct fuel; simpl;
    destruct (Z.ltb_spec i number_of_bytes); (lia || reflexivity).
Qed.

Lemma swap_loop_step fuel i number_of_bytes element_size data :
  i < number_of_bytes ->
  swap_loop (S fuel) i number_of_bytes element_size data
  = (swap_element element_size i data
     ≫= swap_loop fuel (add64 i element_size) number_of_bytes element_size).
Proof.
  intros Hi. simpl. destruct (Z.ltb_spec i number_of_bytes); [|lia].
  reflexivity.
Qed.

Lemma swap_element_routine w routine i data :
  In (w, routine) swap_routines ->
  swap_element (Z.of_nat w) i data = routine (Z.to_nat i) data.
Proof.
  simpl. intros [E|[E|[E|[E|[]]]]]; injection E as <- <-; reflexivity.
Qed.

Lemma swap_routines_width w routine :
  In (w, routine) swap_routines -> (2 <= w)%nat.
Proof.
  simpl. intros [E|[E|[E|[E|[]]]]]; injection E as <- _; lia.
Qed.

Lemma swap_loop_reverses w routine :
  In (w, routine) swap_routines ->
  forall k fuel p data,
    (k <= fuel)%nat -> (p + k * w <= length data)%nat ->
    Z.of_nat (p + k * w) < 2 ^ 64 ->
    swap_loop fuel (Z.of_nat p) (Z.of_nat (p + k * w)) (Z.of_nat w) data
    = Ok (take p data ++ reverse_elements k w (drop p data)).
Proof.
  intros Hin. pose proof (swap_routines_width _ _ Hin) as Hw.
  induction k as [|k IH]; intros fuel p data Hf Hl Hb.
  - rewrite swap_loop_done by lia. simpl. rewrite take_drop. reflexivity.
  - destruct fuel as [|fuel]; [lia|].
    rewrite swap_loop_step by lia.
    rewrite (swap_element_routine _ _ _ _ Hin), Nat2Z.id.
    rewrite (swap_routines_reverse_at _ _ _ _ Hin) by lia.
    cbn [mbind outcome_bind].
    replace (add64 (Z.of_nat p) (Z.of_nat w)) with (Z.of_nat (p + w))
      by (unfold add64; rewrite wrap_small; unfold is_size_t; lia).
    replace (p + S k * w)%nat with (p + w + k * w)%nat by lia.
    rewrite IH; try lia.
    + rewrite reverse_elements_step by lia. reflexivity.
    + rewrite length_reverse_at by lia. lia.
Qed.

Lemma swap_loop_single_bytes fuel : forall i number_of_bytes data,
  0 <= i -> number_of_bytes < 2 ^ 64 ->
  number_of_bytes - i <= Z.of_nat fuel ->
  swap_loop fuel i number_of_bytes 1 data = Ok data.
Proof.
  induction fuel as [|fuel IH]; intros i nb data Hi Hb Hf.
  - apply swap_loop_done. lia.
  - destruct (Z.lt_ge_cases i nb) as [Hlt|Hge];
      [|apply swap_loop_done; lia].
    rewrite swap_loop_step by assumption. cbn.
    unfold add64. rewrite wrap_small by (unfold is_size_t; lia).
    apply IH; lia.
Qed.

Lemma swap_bytes_reverses (w n : Z) data :
  In w [1; 2; 4; 8; 16] -> 0 <= n -> n * w < 2 ^ 64 ->
  vec_size data = n * w ->
  swap_bytes data n w
  = Ok (reverse_elements (Z.to_nat n) (Z.to_nat w) data).
Proof.
  intros Hw Hn Hb Hl. unfold swap_bytes, mul64.
  rewrite wrap_small by (unfold is_size_t; simpl in Hw; lia).
  unfold vec_size in Hl. simpl in Hw.
  destruct Hw as [<-|Hw].
  - rewrite swap_loop_single_bytes by lia.
    change (Z.to_nat 1) with 1%nat.
    assert (forall k (d : list char), (k <= length d)%nat ->
              reverse_elements k 1 d = d) as Hid.
    { induction k as [|k IH]; intros d Hk; [reflexivity|].
      destruct d as [|c d]; simpl in Hk; [lia|].
      cbn [reverse_elements]. change (drop 1 (c :: d)) with d.
      rewrite IH by lia. reflexivity. }
    rewrite Hid by lia. reflexivity.
  - assert (exists routine, In (Z.to_nat w, routine) swap_routines)
      as [routine Hin].
    { destruct Hw as [<-|[<-|[<-|[<-|[]]]]]; eexists; simpl; eauto 6. }
    assert (0 < w) by (destruct Hw as [<-|[<-|[<-|[<-|[]]]]]; lia).
    pose proof (swap_loop_reverses _ _ Hin (Z.to_nat n) (Z.to_nat (n * w))
                  0%nat data) as Hs.
    replace (Z.of_nat (0 + Z.to_nat n * Z.to_nat w)) with (n * w) in Hs by nia.
    rewrite !Z2Nat.id in Hs by lia. change (Z.of_nat 0) with 0 in Hs.
    rewrite Hs; [rewrite take_0, drop_0; reflexivity | nia | nia | nia].
Qed.
End SwapBytes.

(** C8: each of the swap routines for 2, 4, 8 and 16 bytes turns the
    buffer into the one with that span reversed (byte [i] of the span
    comes from byte [w - 1 - i], the bytes outside stay), and applied
    twice gives the buffer back; [swap_bytes] reverses every element of
    a buffer of [n] elements of width 1, 2, 4, 8 or 16, and applied
    twice is the identity. *)
Theorem swap_is_reversal_and_involution :
  (forall w routine, In (w, routine) swap_routines ->
   forall (p : nat) (mem : list char), (p + w <= length mem)%nat ->
     routine p mem = Ok (reverse_at w p mem)
     /\ (forall i, (i < w)%nat ->
           reverse_at w p mem !! (p + i)%nat = mem !! (p + (w - 1 - i))%nat)
     /\ (forall j, (j < p \/ p + w <= j)%nat ->
           reverse_at w p mem !! j = mem !! j)
     /\ (routine p mem ≫= routine p) = Ok mem)
  /\ (forall (w n : Z) (data : list char),
        In w [1; 2; 4; 8; 16] -> 0 <= n -> n * w < 2 ^ 64 ->
        vec_size data = n * w ->
        swap_bytes data n w
        = Ok (reverse_elements (Z.to_nat n) (Z.to_nat w) data)
        /\ (swap_bytes data n w ≫= fun d => swap_bytes d n w) = Ok data).
Proof.
  split.
  - intros w routine Hin p mem Hl. split; [|split; [|split]].
    + apply swap_routines_reverse_at; assumption.
    + intros i Hi. apply reverse_at_lookup_in; assumption.
    + intros j Hj. apply reverse_at_lookup_out; assumption.
    + rewrite (swap_routines_reverse_at _ _ _ _ Hin Hl).
      cbn [mbind outcome_bind].
      rewrite (swap_routines_reverse_at _ _ _ _ Hin)
        by (rewrite length_reverse_at; assumption).
      rewrite reverse_at_involutive by assumption. reflexivity.
  - intros w n data Hw Hn Hb Hl.
    pose proof (swap_bytes_reverses w n data Hw Hn Hb Hl) as H1.
    split; [exact H1|]. rewrite H1. cbn [mbind outcome_bind].
    rewrite swap_bytes_reverses; try assumption.
    + rewrite reverse_elements_involutive; [reflexivity|].
      unfold vec_size in Hl. simpl in Hw. nia.
    + unfold vec_size in *. rewrite length_reverse_elements. assumption.
Qed.

Lemma swap_is_reversal_and_involution_witness :
  swap_eight_bytes 1 (str "0abcdefgh9") = Ok (str "0hgfedcba9")
  /\ (swap_bytes (str "abcdefgh") 2 4 ≫= fun d => swap_bytes d 2 4)
     = Ok (str "abcdefgh").
Proof.
  destruct swap_is_reversal_and_involution as [Hroutine Hbuffer]. split.
  - apply (Hroutine 8%nat swap_eight_bytes); simpl; [tauto | lia].
  - apply (Hbuffer 4 2 (str "abcdefgh")); simpl; [tauto | lia | lia | reflexivity].
Defined.

(** ** The header-length field *)

Section HeaderLength.
Variable h : Host.

Lemma read_cons n (file : list char) :
  0 <= n <= vec_size file ->
  read n file = Ok (take (Z.to_nat n) file, drop (Z.to_nat n) file).
Proof.
  intros Hn. unfold read. destruct (Z.ltb_spec (vec_size file) n); [lia|].
  reflexivity.
Qed.

(** C7 (as amended): on every host [load_npy] reads the header length
    from the next 2 bytes when the major version is 1 and from the
    next 4 bytes when it is 2 or more; for any other major version it
    reads no byte and the header length is 0.  On a little-endian
    host the bytes read are taken least significant byte first. *)
Theorem header_length_field (major_version : char) (file : list char) :
  (char_to_int h major_version = 1 ->
   forall b0 b1 rest, file = b0 :: b1 :: rest ->
     exists v,
       read_header_length h major_version file = Ok (v, rest)
       /\ (little_endian h = true -> v = le_value [b0; b1]))
  /\ (2 <= char_to_int h major_version ->
      forall b0 b1 b2 b3 rest, file = b0 :: b1 :: b2 :: b3 :: rest ->
        exists v,
          read_header_length h major_version file = Ok (v, rest)
          /\ (little_endian h = true -> v = le_value [b0; b1; b2; b3]))
  /\ (char_to_int h major_version < 1 ->
      read_header_length h major_version file = Ok (0, file)).
Proof.
  unfold read_header_length, system_is_little_endian, host_uint.
  split; [|split].
  - intros Hm b0 b1 rest ->. rewrite Hm. cbn [Z.eqb Pos.eqb].
    rewrite read_cons by (unfold vec_size; cbn [length]; lia).
    cbn [mbind outcome_bind].
    destruct (little_endian h); eexists; (split; [reflexivity|]);
      [reflexivity | discriminate].
  - intros Hm b0 b1 b2 b3 rest ->.
    destruct (Z.eqb_spec (char_to_int h major_version) 1); [lia|].
    destruct (Z.geb_spec (char_to_int h major_version) 2); [|lia].
    rewrite read_cons by (unfold vec_size; cbn [length]; lia).
    cbn [mbind outcome_bind].
    destruct (little_endian h); eexists; (split; [reflexivity|]);
      [reflexivity | discriminate].
  - intros Hm.
    destruct (Z.eqb_spec (char_to_int h major_version) 1); [lia|].
    destruct (Z.geb_spec (char_to_int h major_version) 2); [lia|].
    reflexivity.
Qed.
End HeaderLength.

Lemma header_length_field_witness :
  read_header_length x86_64 "001"%char (str "v" ++ "000"%char :: str "{'descr'")
  = Ok (118, str "{'descr'").
Proof.
  destruct (header_length_field x86_64 "001"%char
              (str "v" ++ "000"%char :: str "{'descr'")) as [Hv1 _].
  destruct (Hv1 eq_refl "v"%char "000"%char (str "{'descr'") eq_refl)
    as (v & Hr & Hv).
  rewrite Hr, (Hv eq_refl). reflexivity.
Defined.

(** C7, counterexample: a major version other than 1 does not always
    make [load_npy] read a 4-byte length; for the version byte 0 nothing
    is read and the length is 0. *)
Lemma header_length_version_0_counterexample :
  ~ (forall (h : Host) (major_version b0 b1 b2 b3 : char) (rest : list char),
       char_to_int h major_version <> 1 ->
       read_header_length h major_version (b0 :: b1 :: b2 :: b3 :: rest)
       = Ok (le_value [b0; b1; b2; b3], rest)).
Proof.
  intros Hall.
  specialize (Hall x86_64 "000"%char "v"%char "000"%char "000"%char "000"%char []).
  vm_compute in Hall. specialize (Hall ltac:(discriminate)). discriminate Hall.
Qed.

(** On a big-endian host the call [swap_bytes(&length_temp, 2, 1)] passes
    two elements of one byte and swaps nothing: the field is taken in
    host order. *)
Example header_length_big_endian_host :
  read_header_length s390x "001"%char (str "v" ++ "000"%char :: str "{'descr'")
  = Ok (118 * 256, str "{'descr'").
Proof. reflexivity. Qed.

(** ** The [fortran_order] field *)

Section FortranOrder.
Implicit Types (header s tok acc : list char).

Lemma str_at_not_raises header i : ~ raises (str_at header i).
Proof.
  unfold str_at. intros [e He].
  destruct (header !! _); [discriminate|].
  destruct (i =? _); discriminate.
Qed.

Lemma str_at_lookup header (n : nat) c :
  header !! n = Some c -> str_at header (Z.of_nat n) = Ok c.
Proof. intros Hc. unfold str_at. rewrite Nat2Z.id, Hc. reflexivity. Qed.

Lemma order_loop_not_raises fuel : forall header loc1 i acc,
  ~ raises (order_loop fuel header loc1 i acc).
Proof.
  induction fuel as [|fuel IH]; intros header loc1 i acc [e He];
    [discriminate|].
  cbn [order_loop] in He.
  destruct (str_at header (add64 loc1 i)) as [c| |] eqn:Ec;
    cbn [mbind outcome_bind] in He.
  - destruct (negb _); [destruct (bool_decide (c = ","%char))|];
      try discriminate; eapply IH; eexists; exact He.
  - apply (str_at_not_raises header (add64 loc1 i)). rewrite Ec. eauto.
    eexists. reflexivity.
  - discriminate.
Qed.

(** The loop collects exactly the token, from any position on. *)
Lemma order_loop_token header (loc1 : Z) : forall s (n : nat) i acc fuel tok,
  drop n header = s -> Z.of_nat n = loc1 + i -> 0 <= loc1 -> 0 <= i ->
  vec_size header < 2 ^ 64 ->
  token_until ","%char s = Some tok ->
  (length s < fuel)%nat ->
  order_loop fuel header loc1 i acc = Ok (acc ++ tok).
Proof.
  induction s as [|c s IH]; intros n i acc fuel tok Hs Hn Hl Hi Hb Ht Hf;
    [discriminate|].
  destruct fuel as [|fuel]; [simpl in Hf; lia|].
  assert (header !! n = Some c) as Hc.
  { rewrite <- (Nat.add_0_r n), <- lookup_drop, Hs. reflexivity. }
  pose proof (lookup_lt_Some _ _ _ Hc) as Hlt.
  assert (drop (S n) header = s) as Hs'.
  { replace (S n) with (n + 1)%nat by lia. rewrite <- drop_drop, Hs.
    reflexivity. }
  assert (add64 i 1 = i + 1) as Hi1.
  { unfold add64. apply wrap_small. unfold is_size_t, vec_size in *. lia. }
  cbn [order_loop].
  replace (add64 loc1 i) with (Z.of_nat n)
    by (unfold add64; rewrite wrap_small;
        unfold is_size_t, vec_size in *; lia).
  rewrite (str_at_lookup _ _ _ Hc). cbn [mbind outcome_bind].
  cbn [token_until] in Ht. rewrite Hi1.
  destruct (bool_decide (c = ","%char)) eqn:Ecomma.
  - injection Ht as <-.
    destruct (bool_decide (c = " "%char)) eqn:Esp.
    + apply bool_decide_eq_true in Ecomma, Esp. congruence.
    + simpl. rewrite app_nil_r. reflexivity.
  - destruct (bool_decide (c = " "%char)) eqn:Esp; simpl.
    + apply (IH (S n)); try assumption; simpl in Hf; lia.
    + destruct (token_until ","%char s) as [tok'|] eqn:Et; [|discriminate].
      injection Ht as <-.
      rewrite (IH (S n) (i + 1) (acc ++ [c]) fuel tok');
        try assumption; try reflexivity; try (simpl in Hf; lia).
      rewrite <- app_assoc. reflexivity.
Qed.

(** C10: parsing the [fortran_order] field never raises; when the value
    is followed by a comma, the layout is row-major ([c_contiguous]
    true) exactly when the characters before that comma, spaces
    dropped, are [False], and column-major for every other token. *)
Theorem fortran_order_only_False_is_row_major header :
  vec_size header < 2 ^ 64 ->
  ~ raises (parse_fortran_order header)
  /\ (forall tok,
        token_until ","%char (drop (fortran_order_start header) header)
        = Some tok ->
        parse_fortran_order header
        = Ok (bool_decide (tok = str "False"))).
Proof.
  intros Hb. split.
  - unfold parse_fortran_order, fortran_order_token. intros [e He].
    destruct (order_loop _ _ _ _ _) as [t| |] eqn:Eo;
      cbn [mbind outcome_bind] in He.
    + destruct (bool_decide _); discriminate.
    + eapply order_loop_not_raises. eexists. exact Eo.
    + discriminate.
  - intros tok Ht. unfold parse_fortran_order, fortran_order_token.
    unfold fortran_order_start in Ht.
    pose proof (wrap_range (find (str "'fortran_order': ") header + 17)) as Hr.
    fold (add64 (find (str "'fortran_order': ") header) 17) in Hr.
    set (loc1 := add64 (find (str "'fortran_order': ") header) 17) in *.
    rewrite (order_loop_token header loc1 _ (Z.to_nat loc1) 0 [] _ tok eq_refl);
      try assumption; try (unfold is_size_t in Hr; lia).
    + cbn [mbind outcome_bind app]. destruct (bool_decide _); reflexivity.
    + rewrite length_drop. lia.
Qed.
End FortranOrder.

Lemma fortran_order_only_False_is_row_major_witness :
  parse_fortran_order
    (str "{'descr': '<f8', 'fortran_order': Ture, 'shape': (2,3,), }")
  = Ok false
  /\ parse_fortran_order
    (str "{'descr': '<f8', 'fortran_order': Fal se, 'shape': (2,3,), }")
  = Ok true.
Proof.
  split.
  - apply (proj2 (fortran_order_only_False_is_row_major
             (str "{'descr': '<f8', 'fortran_order': Ture, 'shape': (2,3,), }")
             eq_refl) (str "Ture")).
    reflexivity.
  - apply (proj2 (fortran_order_only_False_is_row_major
             (str "{'descr': '<f8', 'fortran_order': Fal se, 'shape': (2,3,), }")
             eq_refl) (str "False")).
    reflexivity.
Defined.

(** ** Where the payload begins *)

Section Alignment.
Variable h : Host.

Lemma padding_needed_range beginning_length :
  1 <= padding_needed beginning_length <= 64
  /\ (beginning_length + padding_needed beginning_length) mod 64 = 0.
Proof.
  unfold padding_needed.
  pose proof (Z.mod_pos_bound beginning_length 64 ltac:(lia)) as Hr.
  rewrite (Z.mod_small (64 - beginning_length mod 64)) by lia.
  split; [lia|].
  pose proof (Z_div_mod_eq_full beginning_length 64) as Hd.
  replace (beginning_length + (64 - beginning_length mod 64))
    with ((beginning_length / 64 + 1) * 64) by lia.
  apply Z_mod_mult.
Qed.

Lemma length_le_bytes width : forall v, length (le_bytes width v) = width.
Proof. induction width as [|w IH]; intros v; simpl; [|rewrite IH]; reflexivity. Qed.

Lemma length_padded_header shp dtype c :
  let bl := add64 (6 + 2 + 2) (vec_size (header_text h shp dtype c)) in
  vec_size (padded_header h shp dtype c)
  = vec_size (header_text h shp dtype c) + padding_needed bl.
Proof.
  intros bl. unfold padded_header. fold bl.
  pose proof (padding_needed_range bl) as [Hr _].
  clearbody bl. unfold vec_size.
  rewrite !length_app, length_replicate. cbn [length]. lia.
Qed.

(** The length field has the width its version calls for. *)
Lemma length_field_width (major_version v : Z) :
  exists len,
    (if major_version =? 1 then
       if negb (system_is_little_endian h)
       then swap_two_bytes 0 (uint_bytes h 2 (v mod 2 ^ 16))
       else Ok (uint_bytes h 2 (v mod 2 ^ 16))
     else
       if negb (system_is_little_endian h)
       then swap_four_bytes 0 (uint_bytes h 4 (v mod 2 ^ 32))
       else Ok (uint_bytes h 4 (v mod 2 ^ 32))) = Ok len
    /\ vec_size len = if major_version =? 1 then 2 else 4.
Proof.
  unfold system_is_little_endian, uint_bytes.
  destruct (major_version =? 1), (little_endian h); simpl;
    eexists; split; reflexivity.
Qed.

(** Where the payload begins: aligned under version 1, two bytes past
    an aligned offset under version 2. *)
Lemma payload_offset_alignment shp dtype c :
  vec_size (header_text h shp dtype c) < 2 ^ 64 - 10 ->
  exists off,
    payload_offset h shp dtype c = Ok off
    /\ off mod 64
       = if fst (choose_version
                   (10 + vec_size (header_text h shp dtype c))) =? 1
         then 0 else 2.
Proof.
  intros Hb. unfold payload_offset, preamble.
  assert (add64 (6 + 2 + 2) (vec_size (header_text h shp dtype c))
          = 10 + vec_size (header_text h shp dtype c)) as Hbl.
  { unfold add64. apply wrap_small. unfold is_size_t, vec_size in *. lia. }
  pose proof (length_padded_header shp dtype c) as Hp. cbv zeta in Hp.
  rewrite Hbl in *.
  set (bl := 10 + vec_size (header_text h shp dtype c)) in *.
  destruct (padding_needed_range bl) as [Hr Hm].
  destruct (choose_version bl) as [major_version bl'] eqn:Ev.
  assert (major_version = 1 \/ major_version = 2) as Hmv.
  { unfold choose_version in Ev. destruct (_ >? _); injection Ev; auto. }
  destruct (length_field_width major_version
              (vec_size (padded_header h shp dtype c))) as (len & -> & Hl).
  cbn [mbind outcome_bind fst]. eexists. split; [reflexivity|].
  unfold vec_size in *. rewrite !length_app. cbn [length].
  change (length magic) with 6%nat.
  replace (Z.of_nat (6 + (2 + (length len
             + length (padded_header h shp dtype c)))))
    with (bl + padding_needed bl + (Z.of_nat (length len) - 2))
    by (unfold bl in *; lia).
  destruct Hmv as [-> | ->]; simpl in Hl |- *; rewrite Hl.
  - rewrite Z.add_0_r. exact Hm.
  - rewrite Z.add_mod, Hm by lia. reflexivity.
Qed.
End Alignment.

(** C3, at the failing input: for a [double] array of rank 32704 with
    every extent 1 on a little-endian host, [write_npy] selects version 2
    and the payload begins at byte 65538, which is 2 modulo 64: the
    padding computed for the 2-byte length field is kept. *)
Theorem version_2_payload_offset :
  fst (choose_version (10 + vec_size (header_text x86_64 rank_32704 DOUBLE64 true)))
  = 2
  /\ payload_offset x86_64 rank_32704 DOUBLE64 true = Ok 65538
  /\ 65538 mod 64 = 2.
Proof. vm_compute. repeat split. Qed.

(** C1, at the failing inputs.  On a little-endian host, saving the
    empty array of shape [2147483648, 0] and loading the file is
    undefined: the header region that [write_npy] writes holds no null
    character, and [std::string header(header_char)] reads past the
    buffer (this is so for every array, the 2x3 one included).  With
    the header region terminated, loading ends in [std::out_of_range]:
    [std::stoi] is applied to an extent that does not fit [int].  On a
    big-endian host, loading the saved 2x3 array runs past the end of
    the file, the header length 118 being taken as 30208. *)
Theorem save_load_failing_inputs :
  (a ← wide_empty; file ← save x86_64 a;
   load x86_64 (vector_max_size 1) file) = Undefined
  /\ (a ← wide_empty; save x86_64 a)
     = Ok (npy_file 1 (padded_header x86_64 [2147483648; 0] UCHAR true) [])
  /\ load (T := char) x86_64 (vector_max_size 1)
       (npy_file 1
          (terminated (padded_header x86_64 [2147483648; 0] UCHAR true) [])
          [])
     = Throw out_of_range
  /\ (file ← save x86_64 abcdef; load x86_64 (vector_max_size 1) file)
     = Undefined
  /\ (file ← save s390x abcdef;
      load (T := char) s390x (vector_max_size 1) file) = Undefined
  /\ read_header_length s390x "001"%char (le_bytes 2 118) = Ok (30208, []).
Proof. vm_compute. repeat split. Qed.

Example load_2x3 :
  load x86_64 (vector_max_size 1) abcdef_file = Ok abcdef.
Proof. vm_compute. reflexivity. Qed.

(** ** Decimal text of an extent *)

Section Decimal.
Implicit Types (n d : Z) (acc ds s : list char) (c : char).

Lemma char_code_of_code n :
  0 <= n < 256 -> char_code (ascii_of_N (Z.to_N n)) = n.
Proof.
  intros Hn. unfold char_code. rewrite N_ascii_embedding by lia. lia.
Qed.

Lemma char_code_digit d : 0 <= d < 10 -> char_code (digit_char d) = 48 + d.
Proof. intros Hd. unfold digit_char. apply char_code_of_code. lia. Qed.

Lemma isdigit_digit_char d : 0 <= d < 10 -> isdigit (digit_char d) = true.
Proof.
  intros Hd. unfold isdigit. rewrite char_code_digit by assumption.
  apply andb_true_intro. split; apply Z.leb_le; lia.
Qed.

Lemma digits_value_from ds : forall a : Z,
  fold_left (fun (v : Z) c => v * 10 + (char_code c - 48)) ds a
  = a * 10 ^ Z.of_nat (length ds) + digits_value ds.
Proof.
  unfold digits_value. induction ds as [|c ds IH]; intros a.
  - simpl. lia.
  - cbn [fold_left length]. rewrite IH, (IH (0 * 10 + _)).
    rewrite Nat2Z.inj_succ, Z.pow_succ_r by lia. lia.
Qed.

Lemma digits_value_cons c ds :
  digits_value (c :: ds)
  = (char_code c - 48) * 10 ^ Z.of_nat (length ds) + digits_value ds.
Proof.
  unfold digits_value at 1. cbn [fold_left]. rewrite digits_value_from. lia.
Qed.

Lemma to_string_digits_S fuel n acc :
  to_string_digits (S fuel) n acc
  = if n <? 10 then digit_char (n mod 10) :: acc
    else to_string_digits fuel (n / 10) (digit_char (n mod 10) :: acc).
Proof. reflexivity. Qed.

Lemma to_string_digits_spec fuel : forall n acc,
  0 <= n < 10 ^ Z.of_nat (S fuel) ->
  Forall (fun c => isdigit c = true) acc ->
  let s := to_string_digits (S fuel) n acc in
  Forall (fun c => isdigit c = true) s
  /\ s <> []
  /\ digits_value s = n * 10 ^ Z.of_nat (length acc) + digits_value acc.
Proof.
  induction fuel as [|fuel IH]; intros n acc Hn Hacc;
    rewrite to_string_digits_S;
    pose proof (Z.mod_pos_bound n 10 ltac:(lia)) as Hm;
    assert (Forall (fun c => isdigit c = true) (digit_char (n mod 10) :: acc))
      as Hacc' by (constructor; [apply isdigit_digit_char; lia | exact Hacc]);
    (destruct (Z.ltb_spec n 10) as [Hlt|Hge]; cbv zeta;
     [ split; [exact Hacc'|]; split; [discriminate|];
       rewrite digits_value_cons, char_code_digit by lia;
       rewrite Z.mod_small by lia; lia | ]).
  - simpl in Hn. lia.
  - rewrite Nat2Z.inj_succ, Z.pow_succ_r in Hn by lia.
    destruct (IH (n / 10) (digit_char (n mod 10) :: acc)) as (Hd & Hne & Hv);
      [|exact Hacc'|].
    { split; [apply Z.div_pos; lia|]. apply Z.div_lt_upper_bound; lia. }
    split; [exact Hd|]. split; [exact Hne|].
    rewrite Hv, digits_value_cons, char_code_digit by lia.
    cbn [length]. rewrite Nat2Z.inj_succ, Z.pow_succ_r by lia.
    pose proof (Z_div_mod_eq_full n 10). nia.
Qed.

Lemma to_string_spec n :
  0 <= n < 2 ^ 64 ->
  Forall (fun c => isdigit c = true) (to_string n)
  /\ to_string n <> []
  /\ digits_value (to_string n) = n.
Proof.
  intros Hn. unfold to_string.
  destruct (to_string_digits_spec 19 n []) as (Hd & Hne & Hv);
    [simpl; lia | constructor|].
  split; [exact Hd|]. split; [exact Hne|].
  rewrite Hv. simpl. unfold digits_value. simpl. lia.
Qed.

Lemma digit_not_space c : isdigit c = true -> isspace c = false.
Proof.
  unfold isdigit, isspace. intros Hc.
  apply andb_prop in Hc as [H1 H2]. apply Z.leb_le in H1, H2.
  apply orb_false_intro; [apply Z.eqb_neq; lia|].
  apply andb_false_intro2, Z.leb_gt. lia.
Qed.

Lemma digit_not c c' :
  isdigit c = true -> isdigit c' = false -> bool_decide (c = c') = false.
Proof.
  intros Hc Hc'. apply bool_decide_eq_false. intros ->. congruence.
Qed.

Lemma leading_digits_all ds :
  Forall (fun c => isdigit c = true) ds -> leading_digits ds = ds.
Proof.
  induction 1 as [|c ds Hc _ IH]; [reflexivity|].
  simpl. rewrite Hc, IH. reflexivity.
Qed.

(** What [std::to_string] prints, [std::stoi] reads back, for an extent
    that fits [int]. *)
Lemma stoi_to_string n :
  0 <= n < 2 ^ 31 -> stoi (to_string n) = Ok n.
Proof.
  intros Hn. destruct (to_string_spec n) as (Hd & Hne & Hv); [lia|].
  unfold stoi. destruct (to_string n) as [|c ds] eqn:Es; [congruence|].
  pose proof (Forall_inv Hd) as Hc. cbv beta in Hc.
  cbn [skip_spaces]. rewrite (digit_not_space c Hc).
  rewrite (digit_not c "-"%char Hc eq_refl), (digit_not c "+"%char Hc eq_refl).
  rewrite (leading_digits_all (c :: ds) Hd), Hv.
  destruct (Z.ltb_spec n (- 2 ^ 31)); [lia|].
  destruct (Z.ltb_spec (2 ^ 31 - 1) n); [lia|]. reflexivity.
Qed.
End Decimal.

(** ** Reading the shape back *)

Section ShapeText.
Implicit Types (header s t ds temp : list char) (shp es : list Z) (n : nat).

Lemma find_from_skip c s : forall pos t,
  Forall (fun x => x <> c) s ->
  find_from pos [c] (s ++ t) = find_from (pos + Z.of_nat (length s)) [c] t.
Proof.
  induction s as [|x s IH]; intros pos t Hs.
  - simpl. f_equal. lia.
  - apply Forall_cons in Hs as [Hx Hs].
    cbn [app find_from starts_with].
    rewrite bool_decide_eq_false_2 by congruence. cbn [andb].
    rewrite IH by assumption. f_equal. cbn [length]. lia.
Qed.

Lemma find_from_here c pos t : find_from pos [c] (c :: t) = pos.
Proof.
  cbn [find_from starts_with]. rewrite bool_decide_eq_true_2 by reflexivity.
  destruct t; reflexivity.
Qed.

(** The printed extents hold digits and commas only. *)
Lemma shape_text_chars shp :
  Forall is_size_t shp ->
  Forall (fun x => isdigit x = true \/ x = ","%char) (shape_text shp).
Proof.
  induction 1 as [|e shp He _ IH]; [constructor|].
  unfold shape_text. cbn [flat_map]. rewrite <- app_assoc.
  apply Forall_app. split; [|constructor; [right; reflexivity | exact IH]].
  destruct (to_string_spec e He) as (Hd & _).
  eapply Forall_impl; [exact Hd|]. intros x Hx. left. exact Hx.
Qed.

Lemma shape_text_no_paren shp :
  Forall is_size_t shp -> Forall (fun x => x <> ")"%char) (shape_text shp).
Proof.
  intros Hs. eapply Forall_impl; [exact (shape_text_chars shp Hs)|].
  intros x [Hx|Hx] Heq; subst x; discriminate.
Qed.

Lemma shape_loop_done fuel header i loc2 temp (shp : list Z) :
  loc2 <= i -> shape_loop fuel header i loc2 temp shp = Ok (temp, shp).
Proof.
  intros Hi. destruct fuel; simpl;
    destruct (Z.ltb_spec i loc2); (lia || reflexivity).
Qed.

Lemma shape_loop_step fuel header n loc2 temp (shp : list Z) c :
  header !! n = Some c -> Z.of_nat n < loc2 -> loc2 < 2 ^ 64 ->
  shape_loop (S fuel) header (Z.of_nat n) loc2 temp shp
  = if negb (bool_decide (c = ","%char)) then
      shape_loop fuel header (Z.of_nat (S n)) loc2 (temp ++ [c]) shp
    else if vec_size temp >? 0 then
      v ← stoi temp;
      shape_loop fuel header (Z.of_nat (S n)) loc2 [] (shp ++ [wrap v])
    else shape_loop fuel header (Z.of_nat (S n)) loc2 temp shp.
Proof.
  intros Hc Hn Hb. cbn [shape_loop].
  destruct (Z.ltb_spec (Z.of_nat n) loc2); [|lia].
  rewrite (str_at_lookup _ _ _ Hc). cbn [mbind outcome_bind].
  replace (add64 (Z.of_nat n) 1) with (Z.of_nat (S n))
    by (unfold add64; rewrite wrap_small; unfold is_size_t; lia).
  reflexivity.
Qed.

Lemma lookup_of_drop header n c t :
  drop n header = c :: t -> header !! n = Some c /\ drop (S n) header = t.
Proof.
  intros Hd. split.
  - rewrite <- (Nat.add_0_r n), <- lookup_drop, Hd. reflexivity.
  - replace (S n) with (n + 1)%nat by lia. rewrite <- drop_drop, Hd.
    reflexivity.
Qed.

(** A run of digits goes to [temp]. *)
Lemma shape_loop_digits header loc2 ds : forall n temp (shp : list Z) fuel t,
  drop n header = ds ++ t ->
  Forall (fun c => isdigit c = true) ds ->
  Z.of_nat (n + length ds) <= loc2 -> loc2 < 2 ^ 64 ->
  shape_loop (length ds + fuel) header (Z.of_nat n) loc2 temp shp
  = shape_loop fuel header (Z.of_nat (n + length ds)) loc2 (temp ++ ds) shp.
Proof.
  induction ds as [|c ds IH]; intros n temp shp fuel t Hd Hds Hn Hb.
  - simpl. rewrite Nat.add_0_r, app_nil_r. reflexivity.
  - apply Forall_cons in Hds as [Hc Hds].
    destruct (lookup_of_drop _ _ _ _ Hd) as [Hl Hd'].
    cbn [length Nat.add] in *.
    rewrite (shape_loop_step _ _ _ _ _ _ c Hl) by lia.
    rewrite (digit_not c ","%char Hc eq_refl). cbn [negb].
    rewrite (IH (S n) (temp ++ [c]) shp fuel t) by (assumption || lia).
    rewrite <- app_assoc. f_equal. lia.
Qed.

(** The printed extents are read back, one per comma. *)
Lemma shape_loop_shape_text header loc2 es :
  forall n (shp : list Z) fuel t,
  drop n header = shape_text es ++ t ->
  Forall (fun e => 0 <= e < 2 ^ 31) es ->
  Z.of_nat (n + length (shape_text es)) = loc2 -> loc2 < 2 ^ 64 ->
  shape_loop (length (shape_text es) + fuel) header (Z.of_nat n) loc2 [] shp
  = Ok ([], shp ++ es).
Proof.
  induction es as [|e es IH]; intros n shp fuel t Hd Hes Hn Hb.
  - simpl in *. rewrite app_nil_r. apply shape_loop_done. lia.
  - apply Forall_cons in Hes as [He Hes].
    destruct (to_string_spec e ltac:(lia)) as (Hdig & Hne & _).
    unfold shape_text in *. cbn [flat_map] in *.
    change (str ",") with [","%char] in *.
    rewrite <- !app_assoc in Hd. rewrite <- app_assoc, length_app in *.
    cbn [app length] in *.
    rewrite <- Nat.add_assoc.
    rewrite (shape_loop_digits header loc2 (to_string e) n [] shp _ _ Hd Hdig)
      by lia.
    cbn [app Nat.add].
    assert (drop (n + length (to_string e)) header
            = ","%char :: flat_map (fun e => to_string e ++ str ",") es ++ t)
      as Hd1.
    { rewrite <- drop_drop, Hd, drop_app_length. reflexivity. }
    destruct (lookup_of_drop _ _ _ _ Hd1) as [Hl Hd2].
    rewrite (shape_loop_step _ _ _ _ _ _ _ Hl) by lia.
    cbn [bool_decide decide_rel negb]. rewrite bool_decide_eq_true_2 by reflexivity.
    cbn [negb].
    assert ((vec_size (to_string e) >? 0) = true) as ->.
    { unfold vec_size. destruct (to_string e); [congruence|reflexivity]. }
    rewrite stoi_to_string by assumption. cbn [mbind outcome_bind].
    rewrite wrap_small by (unfold is_size_t; lia).
    rewrite (IH _ (shp ++ [e]) fuel t Hd2 Hes) by lia.
    rewrite <- app_assoc. reflexivity.
Qed.
End ShapeText.

(** ** Reading the header back *)

Section Written.
Variable hw : Host.
Implicit Types (shp : list Z) (dtype : DType) (c : bool)
  (rest payload : list char).

Lemma parse_fortran_order_written dtype c rest :
  parse_fortran_order (header_prefix hw dtype c ++ rest) = Ok c.
Proof. destruct hw as [[] cs], dtype, c; vm_compute; reflexivity. Qed.

Lemma parse_descr_written dtype c rest :
  parse_descr (header_prefix hw dtype c ++ rest)
  = Ok (dtype, little_endian hw).
Proof. destruct hw as [[] cs], dtype, c; vm_compute; reflexivity. Qed.

Lemma header_prefix_parens_written dtype c :
  (forall rest,
     find (str "(") (header_prefix hw dtype c ++ rest)
     = vec_size (header_prefix hw dtype c) - 1)
  /\ Forall (fun x => x <> ")"%char) (header_prefix hw dtype c)
  /\ 50 <= vec_size (header_prefix hw dtype c) <= 60.
Proof.
  destruct hw as [[] cs], dtype, c;
    (split; [intros rest; vm_compute; reflexivity|]);
    (split; [|vm_compute; split; discriminate]);
    repeat constructor; discriminate.
Qed.

Lemma header_prefix_no_nul_written dtype c :
  Forall (fun x => x <> "000"%char) (header_prefix hw dtype c).
Proof.
  destruct hw as [[] cs], dtype, c; repeat constructor; discriminate.
Qed.

Lemma parse_shape_written shp dtype c rest :
  shp <> [] -> Forall (fun e => 0 <= e < 2 ^ 31) shp ->
  vec_size (header_prefix hw dtype c ++ shape_text shp ++ ")"%char :: rest)
    < 2 ^ 64 ->
  parse_shape (header_prefix hw dtype c ++ shape_text shp ++ ")"%char :: rest)
  = Ok shp.
Proof.
  intros Hne Hs Hb.
  destruct (header_prefix_parens_written dtype c) as (Hopen & Hclose & Hlen).
  assert (Forall is_size_t shp) as Hs'.
  { eapply Forall_impl; [exact Hs|]. unfold is_size_t. intros e He. lia. }
  set (P := header_prefix hw dtype c) in *.
  unfold parse_shape. rewrite Hopen.
  unfold find. change (str ")") with [")"%char].
  rewrite find_from_skip by exact Hclose.
  rewrite find_from_skip by (apply shape_text_no_paren; exact Hs').
  rewrite find_from_here.
  unfold vec_size in *. rewrite !length_app in Hb. cbn [length] in Hb.
  replace (add64 (Z.of_nat (length P) - 1) 1) with (Z.of_nat (length P))
    by (unfold add64; rewrite wrap_small; unfold is_size_t; lia).
  assert (0 < length (shape_text shp))%nat as Hpos.
  { destruct shp as [|e shp]; [congruence|].
    unfold shape_text. cbn [flat_map]. rewrite !length_app. simpl. lia. }
  destruct (Z.eqb_spec (Z.of_nat (length P))
              (0 + Z.of_nat (length P) + Z.of_nat (length (shape_text shp))));
    [lia|].
  rewrite !length_app. cbn [length].
  replace (S (S (length P + (length (shape_text shp) + S (length rest)))))
    with (length (shape_text shp) + S (S (length P + S (length rest))))%nat
    by lia.
  rewrite (shape_loop_shape_text _ _ shp (length P) [] _
             (")"%char :: rest));
    [| apply drop_app_length | exact Hs | lia | lia].
  reflexivity.
Qed.
End Written.

Section Bytes.
Implicit Types (v : Z) (s t : list char).

Lemma le_value_le_bytes width : forall v,
  0 <= v -> le_value (le_bytes width v) = v mod 256 ^ Z.of_nat width.
Proof.
  induction width as [|w IH]; intros v Hv.
  - simpl. rewrite Z.mod_1_r. reflexivity.
  - cbn [le_bytes le_value].
    pose proof (Z.mod_pos_bound v 256 ltac:(lia)).
    rewrite char_code_of_code by lia.
    rewrite IH by (apply Z.div_pos; lia).
    rewrite Nat2Z.inj_succ, Z.pow_succ_r by lia.
    rewrite Z.rem_mul_r by lia. lia.
Qed.

(** A buffer without a null character is read past its end. *)
Lemma c_string_unterminated s :
  Forall (fun x => x <> "000"%char) s -> c_string s = Undefined.
Proof.
  induction 1 as [|x s Hx _ IH]; [reflexivity|].
  simpl. rewrite bool_decide_eq_false_2 by exact Hx. rewrite IH. reflexivity.
Qed.

(** The string ends at the first null character of the buffer. *)
Lemma c_string_terminated s junk :
  Forall (fun x => x <> "000"%char) s -> c_string (terminated s junk) = Ok s.
Proof.
  unfold terminated. induction 1 as [|x s Hx _ IH]; [reflexivity|].
  simpl. rewrite bool_decide_eq_false_2 by exact Hx. rewrite IH. reflexivity.
Qed.

Lemma read_app s t : read (vec_size s) (s ++ t) = Ok (s, t).
Proof.
  unfold read, vec_size. rewrite length_app.
  destruct (Z.ltb_spec (Z.of_nat (length s + length t)) (Z.of_nat (length s)));
    [lia|].
  rewrite Nat2Z.id, take_app_length, drop_app_length. reflexivity.
Qed.
End Bytes.

(** ** Reading the preamble back *)

Section CodecRoundTrip.
Variable h : Host.
Hypothesis host_little : little_endian h = true.
Implicit Types (shp : list Z) (dtype : DType) (c : bool)
  (rest payload : list char).

Lemma read_1 (x : char) rest : read 1 (x :: rest) = Ok ([x], rest).
Proof. apply (read_app [x] rest). Qed.

Lemma read_2 (x y : char) rest :
  read 2 (x :: y :: rest) = Ok ([x; y], rest).
Proof. apply (read_app [x; y] rest). Qed.

Lemma read_4 (x y z w : char) rest :
  read 4 (x :: y :: z :: w :: rest) = Ok ([x; y; z; w], rest).
Proof. apply (read_app [x; y; z; w] rest). Qed.

(** The length field written for a header of [v] bytes is read back. *)
Lemma read_header_length_written (major_version v : Z) rest :
  (major_version = 1 /\ 0 <= v < 2 ^ 16)
  \/ (major_version = 2 /\ 0 <= v < 2 ^ 32) ->
  read_header_length h (ascii_of_N (Z.to_N major_version))
    (le_bytes (if major_version =? 1 then 2 else 4) v ++ rest)
  = Ok (v, rest).
Proof.
  destruct h as [le cs]. simpl in host_little. subst le.
  intros [[-> Hv] | [-> Hv]]; unfold read_header_length.
  - assert (exists x y, le_bytes 2 v = [x; y]) as (x & y & E)
      by (eexists; eexists; reflexivity).
    replace (char_to_int _ (ascii_of_N (Z.to_N 1)) =? 1) with true
      by (destruct cs; reflexivity).
    cbn [Z.eqb Pos.eqb]. rewrite E. cbn [app]. rewrite read_2.
    cbn [mbind outcome_bind system_is_little_endian little_endian negb].
    unfold host_uint. cbn [little_endian].
    rewrite <- E, (le_value_le_bytes 2) by lia.
    rewrite Z.mod_small by (simpl; lia). reflexivity.
  - assert (exists x y z w, le_bytes 4 v = [x; y; z; w]) as (x & y & z & w & E)
      by (do 4 eexists; reflexivity).
    replace (char_to_int _ (ascii_of_N (Z.to_N 2)) =? 1) with false
      by (destruct cs; reflexivity).
    replace (char_to_int _ (ascii_of_N (Z.to_N 2)) >=? 2) with true
      by (destruct cs; reflexivity).
    cbn [Z.eqb Pos.eqb]. rewrite E. cbn [app]. rewrite read_4.
    cbn [mbind outcome_bind system_is_little_endian little_endian negb].
    unfold host_uint. cbn [little_endian].
    rewrite <- E, (le_value_le_bytes 4) by lia.
    rewrite Z.mod_small by (simpl; lia). reflexivity.
Qed.

End CodecRoundTrip.

Section Preamble.
Variable hw : Host.
Implicit Types (shp : list Z) (dtype : DType) (c : bool).

(** The length field is written in little-endian order by every
    host. *)
Lemma preamble_written shp dtype c :
  vec_size (padded_header hw shp dtype c) < 2 ^ 32 ->
  exists major_version,
    ((major_version = 1 /\ vec_size (padded_header hw shp dtype c) < 2 ^ 16)
     \/ major_version = 2)
    /\ preamble hw shp dtype c
       = Ok (magic
             ++ ascii_of_N (Z.to_N major_version) :: "000"%char
             :: le_bytes (if major_version =? 1 then 2 else 4)
                  (vec_size (padded_header hw shp dtype c))
             ++ padded_header hw shp dtype c).
Proof.
  intros Hb. pose proof (length_padded_header hw shp dtype c) as Hp.
  cbv zeta in Hp.
  assert (add64 (6 + 2 + 2) (vec_size (header_text hw shp dtype c))
          = 10 + vec_size (header_text hw shp dtype c)) as Hbl.
  { unfold add64. apply wrap_small.
    destruct (padding_needed_range
                (add64 (6 + 2 + 2) (vec_size (header_text hw shp dtype c)))).
    unfold is_size_t, vec_size in *. lia. }
  rewrite Hbl in Hp. unfold preamble. rewrite Hbl.
  set (bl := 10 + vec_size (header_text hw shp dtype c)) in *.
  destruct (padding_needed_range bl) as [Hr _].
  set (v := vec_size (padded_header hw shp dtype c)) in *.
  assert (forall x, exists b0 b1, le_bytes 2 x = [b0; b1]) as H2
    by (intros x; do 2 eexists; reflexivity).
  assert (forall x, exists b0 b1 b2 b3, le_bytes 4 x = [b0; b1; b2; b3])
    as H4 by (intros x; do 4 eexists; reflexivity).
  assert ((if negb (system_is_little_endian hw)
           then swap_two_bytes 0 (uint_bytes hw 2 (v mod 2 ^ 16))
           else Ok (uint_bytes hw 2 (v mod 2 ^ 16)))
          = Ok (le_bytes 2 (v mod 2 ^ 16))) as Hlen2.
  { unfold system_is_little_endian, uint_bytes.
    destruct (little_endian hw); [reflexivity|].
    destruct (H2 (v mod 2 ^ 16)) as (b0 & b1 & ->). reflexivity. }
  assert ((if negb (system_is_little_endian hw)
           then swap_four_bytes 0 (uint_bytes hw 4 (v mod 2 ^ 32))
           else Ok (uint_bytes hw 4 (v mod 2 ^ 32)))
          = Ok (le_bytes 4 (v mod 2 ^ 32))) as Hlen4.
  { unfold system_is_little_endian, uint_bytes.
    destruct (little_endian hw); [reflexivity|].
    destruct (H4 (v mod 2 ^ 32)) as (b0 & b1 & b2 & b3 & ->). reflexivity. }
  unfold choose_version.
  unfold add64 at 1.
  rewrite (wrap_small (bl + padding_needed bl))
    by (unfold is_size_t, bl, vec_size in *; lia).
  destruct (Z.gtb_spec (bl + padding_needed bl) 65535) as [Hgt|Hle].
  - exists 2. split; [right; reflexivity|].
    cbn [Z.eqb Pos.eqb]. rewrite Hlen4. cbn [mbind outcome_bind].
    rewrite Z.mod_small by (unfold v, vec_size in *; lia). reflexivity.
  - exists 1. split; [left; split; [reflexivity | unfold v, bl in *; lia]|].
    cbn [Z.eqb Pos.eqb]. rewrite Hlen2. cbn [mbind outcome_bind].
    rewrite Z.mod_small by (unfold v, bl, vec_size in *; lia). reflexivity.
Qed.
End Preamble.

(** ** [load_npy] on a file laid out as [write_npy] lays it out *)

Section Layout.
Variables hw hr : Host.
Hypothesis reader_little : little_endian hr = true.
Implicit Types (shp : list Z) (dtype : DType) (c : bool)
  (region junk payload : list char).

(** The padded header, by its parts. *)
Lemma padded_header_parts shp dtype c :
  exists trailer,
    padded_header hw shp dtype c
    = header_prefix hw dtype c ++ shape_text shp ++ ")"%char :: trailer
    /\ Forall (fun x => x <> "000"%char) trailer.
Proof.
  unfold padded_header, header_text.
  eexists. split.
  - rewrite <- !app_assoc. change (str "), }") with (")"%char :: str ", }").
    cbn [app]. reflexivity.
  - apply Forall_app. split; [repeat constructor; discriminate|].
    apply Forall_app. split; [|repeat constructor; discriminate].
    apply Forall_replicate. discriminate.
Qed.

Lemma shape_text_no_nul shp :
  Forall is_size_t shp -> Forall (fun x => x <> "000"%char) (shape_text shp).
Proof.
  intros Hs. eapply Forall_impl; [exact (shape_text_chars shp Hs)|].
  intros x [Hx|Hx] Heq; subst x; discriminate.
Qed.

(** The header [write_npy] writes holds no null character. *)
Lemma padded_header_no_nul shp dtype c :
  Forall is_size_t shp ->
  Forall (fun x => x <> "000"%char) (padded_header hw shp dtype c).
Proof.
  intros Hs.
  destruct (padded_header_parts shp dtype c) as (trailer & -> & Htail).
  apply Forall_app. split; [apply header_prefix_no_nul_written|].
  apply Forall_app. split; [apply shape_text_no_nul, Hs|].
  constructor; [discriminate | exact Htail].
Qed.

(** What [write_npy] writes. *)
Lemma write_npy_file shp dtype c payload s0 rest_shape :
  shp = s0 :: rest_shape ->
  vec_size (padded_header hw shp dtype c) < 2 ^ 32 ->
  mul64 (count_elements s0 rest_shape) (size_of_DType dtype)
    <= vec_size payload ->
  exists v,
    ((v = 1 /\ vec_size (padded_header hw shp dtype c) < 2 ^ 16) \/ v = 2)
    /\ write_npy hw payload shp dtype c
       = Ok (npy_file v (padded_header hw shp dtype c)
               (take (Z.to_nat (mul64 (count_elements s0 rest_shape)
                                  (size_of_DType dtype))) payload)).
Proof.
  intros -> Hb Hlen.
  destruct (preamble_written hw (s0 :: rest_shape) dtype c Hb)
    as (v & Hv & Hpre).
  exists v. split; [exact Hv|].
  unfold write_npy. change (vec_at (s0 :: rest_shape) 0) with (Ok s0).
  cbn [mbind outcome_bind tail]. rewrite Hpre. cbn [mbind outcome_bind].
  destruct (Z.ltb_spec (vec_size payload)
              (mul64 (count_elements s0 rest_shape) (size_of_DType dtype)));
    [lia|].
  unfold npy_file. rewrite <- !app_assoc. cbn [app].
  rewrite <- !app_assoc. reflexivity.
Qed.

(** [load_npy] up to the header string, on a little-endian host. *)
Lemma load_npy_region (v : Z) region payload :
  (v = 1 /\ vec_size region < 2 ^ 16) \/ (v = 2 /\ vec_size region < 2 ^ 32) ->
  load_npy hr (npy_file v region payload)
  = (header ← c_string region;
     c_contiguous ← parse_fortran_order header;
     '(dtype, data_is_little_endian) ← parse_descr header;
     shp ← parse_shape header;
     s0 ← vec_at shp 0;
     '(data, _) ←
       read (mul64 (count_elements s0 (tail shp)) (size_of_DType dtype))
            payload;
     data ←
       (if negb (eqb (system_is_little_endian hr) data_is_little_endian)
        then swap_bytes data (count_elements s0 (tail shp))
               (size_of_DType dtype)
        else Ok data);
     Ok (data, shp, dtype, c_contiguous)).
Proof.
  intros Hv. unfold load_npy, npy_file.
  change 6 with (vec_size magic). rewrite read_app.
  cbn [mbind outcome_bind]. rewrite bool_decide_eq_true_2 by reflexivity.
  cbn [negb]. rewrite read_1. cbn [mbind outcome_bind].
  rewrite read_1. cbn [mbind outcome_bind].
  change (vec_at [ascii_of_N (Z.to_N v)] 0) with (Ok (ascii_of_N (Z.to_N v))).
  cbn [mbind outcome_bind].
  rewrite (read_header_length_written hr reader_little)
    by (unfold vec_size in *; destruct Hv as [[-> ?]|[-> ?]]; [left|right];
        lia).
  cbn [mbind outcome_bind]. rewrite read_app. reflexivity.
Qed.

(** Without a null character in the header region the header buffer
    is read past its end. *)
Lemma load_npy_unterminated (v : Z) region payload :
  (v = 1 /\ vec_size region < 2 ^ 16) \/ (v = 2 /\ vec_size region < 2 ^ 32) ->
  Forall (fun x => x <> "000"%char) region ->
  load_npy hr (npy_file v region payload) = Undefined.
Proof.
  intros Hv Hn. rewrite (load_npy_region v region payload Hv).
  rewrite c_string_unterminated by exact Hn. reflexivity.
Qed.

(** With the header region terminated, the header [write_npy] wrote
    and the payload are read back. *)
Lemma load_npy_terminated (v : Z) shp dtype c junk payload s0 rest_shape :
  (v = 1 /\ vec_size (terminated (padded_header hw shp dtype c) junk) < 2 ^ 16)
  \/ (v = 2
      /\ vec_size (terminated (padded_header hw shp dtype c) junk) < 2 ^ 32) ->
  shp = s0 :: rest_shape ->
  Forall (fun e => 0 <= e < 2 ^ 31) shp ->
  vec_size payload = count_elements s0 rest_shape * size_of_DType dtype ->
  vec_size payload < 2 ^ 64 ->
  load_npy hr (npy_file v (terminated (padded_header hw shp dtype c) junk)
                 payload)
  = (data ← (if little_endian hw then Ok payload
             else swap_bytes payload (count_elements s0 rest_shape)
                    (size_of_DType dtype));
     Ok (data, shp, dtype, c)).
Proof.
  intros Hv -> Hs Hlen Hfit.
  set (shp := s0 :: rest_shape) in *.
  assert (Forall is_size_t shp) as Hs'.
  { eapply Forall_impl; [exact Hs|]. unfold is_size_t. intros e He. lia. }
  assert (mul64 (count_elements s0 rest_shape) (size_of_DType dtype)
          = vec_size payload) as Hn.
  { unfold mul64. rewrite <- Hlen. apply wrap_small.
    unfold is_size_t, vec_size in *. lia. }
  rewrite (load_npy_region v _ payload Hv).
  rewrite c_string_terminated by (apply padded_header_no_nul; exact Hs').
  cbn [mbind outcome_bind].
  destruct (padded_header_parts shp dtype c) as (trailer & Hparts & Htail).
  assert (vec_size (padded_header hw shp dtype c) < 2 ^ 64) as Hb.
  { unfold terminated, vec_size in *. rewrite length_app in Hv.
    destruct Hv as [[_ Hv]|[_ Hv]]; lia. }
  set (padded := padded_header hw shp dtype c) in *.
  rewrite Hparts at 1. rewrite parse_fortran_order_written.
  cbn [mbind outcome_bind].
  rewrite Hparts at 1. rewrite parse_descr_written.
  cbn [mbind outcome_bind].
  rewrite Hparts at 1.
  rewrite parse_shape_written;
    [| discriminate | exact Hs
     | rewrite <- Hparts; unfold vec_size in *; lia ].
  cbn [mbind outcome_bind]. change (vec_at shp 0) with (Ok s0).
  cbn [mbind outcome_bind]. change (tail shp) with rest_shape.
  rewrite Hn.
  rewrite <- (app_nil_r payload) at 2. rewrite read_app.
  cbn [mbind outcome_bind].
  unfold system_is_little_endian. rewrite reader_little.
  destruct (little_endian hw); reflexivity.
Qed.
End Layout.

(** ** [load] after [save] *)

Section HeaderSize.
Variable h : Host.

Lemma length_to_string_digits fuel : forall n (acc : list char),
  (length (to_string_digits fuel n acc) <= fuel + length acc)%nat.
Proof.
  induction fuel as [|fuel IH]; intros n acc; [simpl; lia|].
  rewrite to_string_digits_S. destruct (n <? 10); [simpl; lia|].
  etransitivity; [apply IH|]. simpl. lia.
Qed.

Lemma length_shape_text shp :
  (length (shape_text shp) <= 21 * length shp)%nat.
Proof.
  induction shp as [|e shp IH]; [simpl; lia|].
  unfold shape_text in *. cbn [flat_map].
  change (str ",") with [","%char] in *.
  rewrite !length_app. pose proof (length_to_string_digits 20 e []) as He.
  unfold to_string in *. cbn [length] in *. lia.
Qed.

Lemma header_prefix_length dtype c :
  (length (header_prefix h dtype c) <= 60)%nat.
Proof. destruct h as [[] cs], dtype, c; vm_compute; lia. Qed.

(** A header for fewer than 2^27 extents fits the 4-byte length field. *)
Lemma padded_header_fits shp dtype c :
  vec_size shp < 2 ^ 27 ->
  vec_size (padded_header h shp dtype c) < 2 ^ 32.
Proof.
  intros Hr. rewrite length_padded_header.
  destruct (padding_needed_range
              (add64 (6 + 2 + 2) (vec_size (header_text h shp dtype c))))
    as [Hp _].
  set (pad := padding_needed _) in *. clearbody pad.
  unfold header_text, vec_size in *. rewrite !length_app.
  pose proof (length_shape_text shp).
  pose proof (header_prefix_length dtype c).
  change (length (str "), }")) with 4%nat. lia.
Qed.
End HeaderSize.

Section SaveThenLoad.
Context {T : Type} `{Element T}.
Variables hw hr : Host.
Variable max_size : Z.
Implicit Types (a : NPArray T) (shp : list Z) (payload : list char).

(** [load_npy] on what [write_npy] wrote reads past the header
    buffer. *)
Lemma load_npy_after_write_npy shp dtype c payload s0 rest_shape file :
  little_endian hr = true ->
  shp = s0 :: rest_shape -> Forall is_size_t shp ->
  vec_size shp < 2 ^ 27 ->
  write_npy hw payload shp dtype c = Ok file ->
  load_npy hr file = Undefined.
Proof.
  intros Hle Hshp Hs Hrank Hw.
  pose proof (padded_header_fits hw shp dtype c Hrank) as Hb.
  destruct (Z.ltb_spec (vec_size payload)
              (mul64 (count_elements s0 rest_shape) (size_of_DType dtype)))
    as [Hshort|Hlong].
  - exfalso. subst shp.
    destruct (preamble_written hw (s0 :: rest_shape) dtype c Hb)
      as (v & _ & Hpre).
    unfold write_npy in Hw.
    change (vec_at (s0 :: rest_shape) 0) with (Ok s0) in Hw.
    cbn [mbind outcome_bind tail] in Hw. rewrite Hpre in Hw.
    cbn [mbind outcome_bind] in Hw.
    destruct (Z.ltb_spec (vec_size payload)
                (mul64 (count_elements s0 rest_shape) (size_of_DType dtype)));
      [discriminate | lia].
  - destruct (write_npy_file hw shp dtype c payload s0 rest_shape Hshp Hb
                Hlong) as (v & Hv & Hfile).
    rewrite Hfile in Hw. injection Hw as <-.
    apply (load_npy_unterminated hr Hle).
    + destruct Hv as [Hv | ->]; [left; exact Hv | right; split; [reflexivity | exact Hb]].
    + apply padded_header_no_nul. exact Hs.
Qed.

(** X1: [load] is undefined on every file that [save] wrote (reader
    little-endian, rank below 2^27): the header region [write_npy]
    writes holds no null character, and [load_npy] builds the header
    string from the buffer it read that region into, reading past the
    end of the buffer. *)
Theorem load_after_save_is_undefined a dtype s0 rest :
  little_endian hr = true ->
  typeid_DType = Some dtype ->
  shape_ a = s0 :: rest -> Forall is_size_t (shape_ a) ->
  vec_size (shape_ a) < 2 ^ 27 ->
  (file ← save hw a; load hr max_size file) = Undefined
  /\ (forall file, save hw a = Ok file ->
        load_npy hr file = Undefined
        /\ load hr max_size file = Undefined).
Proof.
  intros Hle Hty Hshp Hs Hrank.
  assert (forall file, save hw a = Ok file -> load_npy hr file = Undefined)
    as Hnpy.
  { intros file Hw. unfold save in Hw. rewrite Hty in Hw.
    eapply load_npy_after_write_npy; eassumption. }
  assert (forall file, save hw a = Ok file ->
            load hr max_size file = Undefined) as Hload.
  { intros file Hw. unfold load. rewrite Hty, (Hnpy file Hw). reflexivity. }
  split; [|auto].
  destruct (save hw a) as [file| |] eqn:Es; cbn [mbind outcome_bind].
  - apply Hload. reflexivity.
  - exfalso. unfold save in Es. rewrite Hty, Hshp in Es.
    unfold write_npy in Es.
    change (vec_at (s0 :: rest) 0) with (Ok s0) in Es.
    cbn [mbind outcome_bind tail] in Es.
    rewrite <- Hshp in Es.
    destruct (preamble_written hw (shape_ a) dtype (c_continuous_ a)
                (padded_header_fits hw _ dtype _ Hrank)) as (v & _ & Hpre).
    rewrite Hpre in Es. cbn [mbind outcome_bind] in Es.
    destruct (_ <? _); discriminate.
  - reflexivity.
Qed.
End SaveThenLoad.

Lemma load_after_save_is_undefined_witness :
  (file ← save x86_64 abcdef; load x86_64 (vector_max_size 1) file)
  = Undefined.
Proof.
  apply (load_after_save_is_undefined x86_64 x86_64 (vector_max_size 1)
           abcdef UCHAR 2 [3]); try reflexivity.
  repeat constructor; unfold is_size_t; lia.
Defined.

(** ** Further properties of the codec *)

(** X2: whenever [write_npy] selects major version 1, the payload begins
    at a multiple of 64. *)
Theorem version_1_payload_offset_aligned (h : Host) (shp : list Z)
    (dtype : DType) (c : bool) :
  vec_size (header_text h shp dtype c) < 2 ^ 64 - 10 ->
  fst (choose_version (10 + vec_size (header_text h shp dtype c))) = 1 ->
  exists off, payload_offset h shp dtype c = Ok off /\ off mod 64 = 0.
Proof.
  intros Hb Hv.
  destruct (payload_offset_alignment h shp dtype c Hb) as (off & Ho & Hm).
  rewrite Hv in Hm. exists off. split; assumption.
Qed.

Lemma version_1_payload_offset_aligned_witness :
  exists off, payload_offset x86_64 [2; 3] DOUBLE64 true = Ok off
              /\ off mod 64 = 0.
Proof.
  apply (version_1_payload_offset_aligned x86_64 [2; 3] DOUBLE64 true);
    reflexivity.
Defined.

(** X3: the registry maps every element kind to a token that it maps
    back to the same kind. *)
Theorem descr_round_trip (dtype : DType) :
  descr_to_DType (DType_to_descr dtype) = Ok dtype.
Proof. destruct dtype; reflexivity. Qed.

Example descr_unknown : descr_to_DType (str "x9") = Throw runtime_error.
Proof. reflexivity. Qed.

(** ** The flat index in stride form *)

Section Strides.
Implicit Types (shp indices : list Z).

Lemma row_major_fold_offset shp indices i :
  length indices = length shp -> (i < length shp)%nat ->
  snd (fold_left (spec_row_major_step shp indices) (rev (seq 1 i))
         (product (drop (S i) shp),
          row_major_offset (drop i shp) (drop i indices)))
  = row_major_offset shp indices.
Proof.
  intros Hl. induction i as [|i IH]; intros Hi.
  - simpl. rewrite !drop_0. reflexivity.
  - rewrite seq_S, rev_app_distr. cbn [rev app fold_left].
    destruct (lookup_lt_is_Some_2 shp (S i)) as [s Es]; [lia|].
    destruct (lookup_lt_is_Some_2 shp i) as [s' Es']; [lia|].
    destruct (lookup_lt_is_Some_2 indices i) as [x Ex]; [lia|].
    rewrite <- IH by lia. f_equal. f_equal.
    unfold spec_row_major_step. cbn [fst snd].
    replace (1 + i)%nat with (S i) by lia.
    replace (S i - 1)%nat with i by lia.
    rewrite (nth_of_lookup _ _ _ Es), (nth_of_lookup _ _ _ Ex).
    rewrite (drop_S shp _ i Es'), (drop_S indices _ i Ex).
    rewrite (drop_S shp _ (S i) Es). simpl.
    f_equal; lia.
Qed.

Lemma spec_row_major_offset shp indices :
  shp <> [] -> length indices = length shp ->
  spec_row_major shp indices = row_major_offset shp indices.
Proof.
  intros Hne Hl.
  assert (0 < length shp)%nat as Hpos
    by (destruct shp; [congruence | simpl; lia]).
  unfold spec_row_major.
  destruct (lookup_lt_is_Some_2 shp (length shp - 1)) as [s Es]; [lia|].
  destruct (lookup_lt_is_Some_2 indices (length shp - 1)) as [x Ex]; [lia|].
  rewrite <- (row_major_fold_offset shp indices (length shp - 1)) by lia.
  f_equal. f_equal. f_equal.
  - rewrite drop_ge by lia. reflexivity.
  - rewrite (nth_of_lookup _ _ _ Ex).
    rewrite (drop_S shp _ _ Es), (drop_S indices _ _ Ex).
    rewrite (drop_ge shp), (drop_ge indices) by lia. simpl. lia.
Qed.

Lemma column_major_offset_app shp : forall indices s x,
  length indices = length shp ->
  column_major_offset (shp ++ [s]) (indices ++ [x])
  = column_major_offset shp indices + product shp * x.
Proof.
  induction shp as [|s0 shp IH]; intros [|x0 indices] s x Hl;
    try discriminate; simpl.
  - lia.
  - rewrite IH by (simpl in Hl; lia). lia.
Qed.

Lemma row_major_offset_app shp : forall indices s x,
  length indices = length shp ->
  row_major_offset (shp ++ [s]) (indices ++ [x])
  = row_major_offset shp indices * s + x.
Proof.
  induction shp as [|s0 shp IH]; intros [|x0 indices] s x Hl;
    try discriminate; simpl.
  - lia.
  - rewrite IH by (simpl in Hl; lia). rewrite product_app. lia.
Qed.

Lemma column_major_fold_offset shp indices n : forall i,
  length indices = length shp -> (i + n < length shp)%nat ->
  snd (fold_left (spec_column_major_step shp indices) (seq i n)
         (product (take i shp),
          column_major_offset (take (S i) shp) (take (S i) indices)))
  = column_major_offset (take (S (i + n)) shp) (take (S (i + n)) indices).
Proof.
  induction n as [|n IH]; intros i Hl Hi.
  - simpl. rewrite Nat.add_0_r. reflexivity.
  - cbn [seq fold_left].
    destruct (lookup_lt_is_Some_2 shp i) as [s Es]; [lia|].
    destruct (lookup_lt_is_Some_2 shp (S i)) as [s' Es']; [lia|].
    destruct (lookup_lt_is_Some_2 indices (S i)) as [x Ex]; [lia|].
    replace (S (i + S n)) with (S (S i + n)) by lia.
    rewrite <- IH by lia. f_equal. f_equal.
    unfold spec_column_major_step. cbn [fst snd].
    replace (i + 1)%nat with (S i) by lia.
    rewrite (nth_of_lookup _ _ _ Es), (nth_of_lookup _ _ _ Ex).
    rewrite (take_S_r shp (S i) _ Es'), (take_S_r indices (S i) _ Ex).
    rewrite column_major_offset_app by (rewrite !length_take; lia).
    rewrite (take_S_r shp i _ Es), product_app. reflexivity.
Qed.

Lemma spec_column_major_offset shp indices :
  shp <> [] -> length indices = length shp ->
  spec_column_major shp indices = column_major_offset shp indices.
Proof.
  intros Hne Hl.
  assert (0 < length shp)%nat as Hpos
    by (destruct shp; [congruence | simpl; lia]).
  unfold spec_column_major.
  destruct (lookup_lt_is_Some_2 shp 0) as [s Es]; [lia|].
  destruct (lookup_lt_is_Some_2 indices 0) as [x Ex]; [lia|].
  pose proof (column_major_fold_offset shp indices (length shp - 1) 0%nat
                Hl) as Hf.
  rewrite (take_ge shp (S (0 + (length shp - 1)))) in Hf by lia.
  rewrite (take_ge indices (S (0 + (length shp - 1)))) in Hf by lia.
  rewrite <- Hf by lia. f_equal. f_equal. f_equal.
  rewrite (nth_of_lookup _ _ _ Ex).
  destruct shp as [|s0 shp]; [discriminate|].
  destruct indices as [|x0 indices]; [discriminate|].
  simpl in *. injection Ex as ->. lia.
Qed.

Lemma spec_linear_index_offset shp row_major indices :
  shp <> [] -> length indices = length shp ->
  spec_linear_index shp row_major indices
  = layout_offset shp row_major indices.
Proof.
  intros Hne Hl. unfold spec_linear_index, layout_offset.
  destruct row_major;
    [apply spec_row_major_offset | apply spec_column_major_offset];
    assumption.
Qed.

Lemma row_major_offset_bound shp indices :
  valid_indices indices shp ->
  0 <= row_major_offset shp indices < product shp.
Proof.
  induction 1 as [|x s xs ss Hx Hv IH]; simpl; [lia|].
  pose proof (product_pos _ _ Hv). nia.
Qed.

Lemma column_major_offset_bound shp indices :
  valid_indices indices shp ->
  0 <= column_major_offset shp indices < product shp.
Proof.
  induction 1 as [|x s xs ss Hx Hv IH]; simpl; [lia|].
  pose proof (product_pos _ _ Hv). nia.
Qed.

Lemma layout_offset_bound shp row_major indices :
  valid_indices indices shp ->
  0 <= layout_offset shp row_major indices < product shp.
Proof.
  intros Hv. unfold layout_offset.
  destruct row_major;
    [apply row_major_offset_bound | apply column_major_offset_bound];
    assumption.
Qed.

Lemma row_major_offset_inj shp : forall indices indices',
  valid_indices indices shp -> valid_indices indices' shp ->
  row_major_offset shp indices = row_major_offset shp indices' ->
  indices = indices'.
Proof.
  induction shp as [|s shp IH]; intros indices indices' Hv Hv' He.
  - inversion Hv. inversion Hv'. reflexivity.
  - inversion Hv as [|x s0 xs ss Hx Hvs]. inversion Hv' as [|x' s1 xs' ss' Hx' Hvs'].
    subst. simpl in He.
    pose proof (row_major_offset_bound _ _ Hvs).
    pose proof (row_major_offset_bound _ _ Hvs').
    assert (x = x') as -> by nia.
    f_equal. apply IH; try assumption. lia.
Qed.

Lemma column_major_offset_inj shp : forall indices indices',
  valid_indices indices shp -> valid_indices indices' shp ->
  column_major_offset shp indices = column_major_offset shp indices' ->
  indices = indices'.
Proof.
  induction shp as [|s shp IH]; intros indices indices' Hv Hv' He.
  - inversion Hv. inversion Hv'. reflexivity.
  - inversion Hv as [|x s0 xs ss Hx Hvs]. inversion Hv' as [|x' s1 xs' ss' Hx' Hvs'].
    subst. simpl in He.
    assert (column_major_offset shp xs = column_major_offset shp xs') as Hc
      by nia.
    f_equal; [nia|]. apply IH; assumption.
Qed.

Lemma layout_offset_inj shp row_major indices indices' :
  valid_indices indices shp -> valid_indices indices' shp ->
  layout_offset shp row_major indices = layout_offset shp row_major indices' ->
  indices = indices'.
Proof.
  unfold layout_offset. destruct row_major;
    [apply row_major_offset_inj | apply column_major_offset_inj].
Qed.

Lemma column_major_offset_reverse shp : forall indices,
  length indices = length shp ->
  column_major_offset shp indices
  = row_major_offset (reverse shp) (reverse indices).
Proof.
  induction shp as [|s shp IH]; intros [|x indices] Hl; try discriminate.
  - reflexivity.
  - rewrite !reverse_cons.
    rewrite row_major_offset_app by (rewrite !length_reverse; simpl in Hl; lia).
    simpl. rewrite IH by (simpl in Hl; lia). lia.
Qed.
End Strides.

(** ** Valid index tuples and flat positions correspond one to one *)

Section Onto.
Implicit Types (shp indices : list Z).

Lemma row_major_offset_onto shp : forall k,
  Forall is_size_t shp -> 0 <= k < product shp ->
  exists indices,
    valid_indices indices shp /\ row_major_offset shp indices = k.
Proof.
  induction shp as [|s shp IH]; intros k Hs Hk.
  - exists []. split; [constructor | simpl in *; lia].
  - apply Forall_cons in Hs as [Hs0 Hs].
    pose proof (product_nonneg _ Hs) as Hp. simpl in Hk.
    unfold is_size_t in Hs0.
    assert (0 < product shp) as Hpos by nia.
    destruct (IH (k mod product shp) Hs) as (indices & Hv & Ho).
    { apply Z.mod_pos_bound. exact Hpos. }
    exists (k / product shp :: indices). split.
    + constructor; [|exact Hv]. split.
      * apply Z.div_pos; lia.
      * apply Z.div_lt_upper_bound; lia.
    + simpl. rewrite Ho.
      rewrite (Z.div_mod k (product shp)) at 3 by lia. lia.
Qed.

Lemma column_major_offset_onto shp : forall k,
  Forall is_size_t shp -> 0 <= k < product shp ->
  exists indices,
    valid_indices indices shp /\ column_major_offset shp indices = k.
Proof.
  induction shp as [|s shp IH]; intros k Hs Hk.
  - exists []. split; [constructor | simpl in *; lia].
  - apply Forall_cons in Hs as [Hs0 Hs].
    pose proof (product_nonneg _ Hs) as Hp. simpl in Hk.
    unfold is_size_t in Hs0.
    assert (0 < s) as Hpos by nia.
    destruct (IH (k / s) Hs) as (indices & Hv & Ho).
    { split; [apply Z.div_pos; lia | apply Z.div_lt_upper_bound; lia]. }
    exists (k mod s :: indices). split.
    + constructor; [|exact Hv]. apply Z.mod_pos_bound. exact Hpos.
    + simpl. rewrite Ho.
      rewrite (Z.div_mod k s) at 3 by lia. lia.
Qed.

Lemma layout_offset_onto shp row_major k :
  Forall is_size_t shp -> 0 <= k < product shp ->
  exists indices,
    valid_indices indices shp /\ layout_offset shp row_major indices = k.
Proof.
  unfold layout_offset. destruct row_major;
    [apply row_major_offset_onto | apply column_major_offset_onto].
Qed.
End Onto.

Section FlatIndex.
Context {T : Type}.
Implicit Types (a : NPArray T) (indices : list Z).

Lemma address_offset a indices :
  consistent a -> shape_ a <> [] -> valid_indices indices (shape_ a) ->
  product (shape_ a) < 2 ^ 64 ->
  (if c_continuous_ a then c_continuous_index a indices
   else fortran_continuous_index a indices)
  = Ok (layout_offset (shape_ a) (c_continuous_ a) indices).
Proof.
  intros Hc Hne Hv Hp. rewrite address_spec by assumption.
  rewrite spec_linear_index_offset
    by (try assumption; exact (Forall2_length _ _ _ Hv)).
  rewrite wrap_small; [reflexivity|].
  pose proof (layout_offset_bound _ (c_continuous_ a) _ Hv).
  unfold is_size_t. lia.
Qed.

Lemma linear_index_offset a indices :
  consistent a -> shape_ a <> [] -> valid_indices indices (shape_ a) ->
  product (shape_ a) < 2 ^ 64 ->
  linear_index a indices
  = Ok (layout_offset (shape_ a) (c_continuous_ a) indices).
Proof.
  intros Hc Hne Hv Hp. unfold linear_index.
  rewrite check_indices_valid;
    [| apply Hc | apply valid_indices_lt; assumption].
  cbn [mbind outcome_bind]. apply address_offset; assumption.
Qed.

(** X4: for a valid index tuple, [linear_index] returns the offset in
    stride form (row-major: each index times the product of the
    extents after its axis; column-major: times the product of the
    extents before it), and that offset is below the product of the
    extents, hence below [size()] for an array that holds as many
    elements as its shape has. *)
Theorem linear_index_stride_form a indices :
  consistent a -> shape_ a <> [] -> valid_indices indices (shape_ a) ->
  product (shape_ a) < 2 ^ 64 ->
  linear_index a indices
  = Ok (layout_offset (shape_ a) (c_continuous_ a) indices)
  /\ 0 <= layout_offset (shape_ a) (c_continuous_ a) indices
     < product (shape_ a)
  /\ (size a = product (shape_ a) ->
      exists k, linear_index a indices = Ok k /\ 0 <= k < size a).
Proof.
  intros Hc Hne Hv Hp.
  pose proof (linear_index_offset a indices Hc Hne Hv Hp) as Hl.
  pose proof (layout_offset_bound _ (c_continuous_ a) _ Hv) as Hb.
  split; [exact Hl|]. split; [exact Hb|].
  intros Hsz. eexists. split; [exact Hl|]. rewrite Hsz. exact Hb.
Qed.

(** X5: [linear_index] is one to one on valid index tuples: two
    different valid tuples never get the same flat index. *)
Theorem linear_index_injective a indices indices' :
  consistent a -> shape_ a <> [] -> product (shape_ a) < 2 ^ 64 ->
  valid_indices indices (shape_ a) -> valid_indices indices' (shape_ a) ->
  indices <> indices' ->
  linear_index a indices <> linear_index a indices'.
Proof.
  intros Hc Hne Hp Hv Hv' Hd.
  rewrite !linear_index_offset by assumption.
  intros He. injection He as He. apply Hd.
  eapply layout_offset_inj; eassumption.
Qed.

(** X6: every flat position below the product of the extents is the
    [linear_index] of a valid index tuple: with X5, the valid tuples
    and the positions of the flat storage correspond one to one. *)
Theorem linear_index_onto a (k : Z) :
  consistent a -> shape_ a <> [] -> product (shape_ a) < 2 ^ 64 ->
  0 <= k < product (shape_ a) ->
  exists indices,
    valid_indices indices (shape_ a) /\ linear_index a indices = Ok k.
Proof.
  intros Hc Hne Hp Hk.
  destruct (layout_offset_onto (shape_ a) (c_continuous_ a) k)
    as (indices & Hv & Ho); [apply Hc | exact Hk |].
  exists indices. split; [exact Hv|].
  rewrite linear_index_offset by assumption. rewrite Ho. reflexivity.
Qed.

(** X7: column-major addressing is row-major addressing of the
    reversed shape with the reversed index tuple. *)
Theorem column_major_is_reversed_row_major a (b : NPArray T) indices :
  consistent a -> consistent b -> shape_ a <> [] ->
  shape_ b = reverse (shape_ a) ->
  c_continuous_ a = false -> c_continuous_ b = true ->
  valid_indices indices (shape_ a) ->
  linear_index a indices = linear_index b (reverse indices).
Proof.
  intros Ha Hb Hne Hsb Hca Hcb Hv.
  pose proof (Forall2_length _ _ _ Hv) as Hl.
  assert (valid_indices (reverse indices) (shape_ b)) as Hvb.
  { rewrite Hsb. apply Forall2_reverse. exact Hv. }
  assert (shape_ b <> []) as Hneb.
  { rewrite Hsb. intros Hr. apply Hne.
    apply (f_equal length) in Hr. rewrite length_reverse in Hr.
    destruct (shape_ a); [reflexivity | discriminate]. }
  unfold linear_index.
  rewrite !check_indices_valid;
    [| apply Hb | apply valid_indices_lt; assumption
     | apply Ha | apply valid_indices_lt; assumption].
  cbn [mbind outcome_bind].
  rewrite (address_spec a), (address_spec b) by assumption.
  rewrite !spec_linear_index_offset
    by (try assumption; eapply Forall2_length; eassumption).
  rewrite Hca, Hcb, Hsb. unfold layout_offset.
  rewrite column_major_offset_reverse by assumption. reflexivity.
Qed.

Lemma consistent_same_shape a (d : list T) :
  consistent a ->
  consistent (mkNPArray d (shape_ a) (c_continuous_ a) (dimensions_ a)).
Proof. intros Hc. exact Hc. Qed.

(** X8: on an array of rank at least one that holds as many elements
    as the product of its extents, that product fitting [size_t], a
    write through [operator()] at a valid index tuple is read back by
    [operator()] at that tuple, every other valid tuple still reads
    the element it had, and shape and size are unchanged. *)
Theorem call_assign_then_call a indices (v : T) :
  consistent a -> shape_ a <> [] -> valid_indices indices (shape_ a) ->
  size a = product (shape_ a) -> product (shape_ a) < 2 ^ 64 ->
  snd (call_assign indices v a) = Ok tt
  /\ call (fst (call_assign indices v a)) indices = Ok v
  /\ (forall indices',
        valid_indices indices' (shape_ a) -> indices' <> indices ->
        call (fst (call_assign indices v a)) indices' = call a indices')
  /\ shape (fst (call_assign indices v a)) = shape a
  /\ size (fst (call_assign indices v a)) = size a.
Proof.
  intros Hc Hne Hv Hsz Hp.
  assert (check_indices a indices = Ok tt) as Hchk.
  { apply check_indices_valid; [apply Hc | apply valid_indices_lt, Hv]. }
  pose proof (address_offset a indices Hc Hne Hv Hp) as Ha.
  pose proof (layout_offset_bound _ (c_continuous_ a) _ Hv) as Hb.
  set (k := layout_offset (shape_ a) (c_continuous_ a) indices) in *.
  unfold size, vec_size in Hsz.
  destruct (lookup_lt_is_Some_2 (data_ a) (Z.to_nat k)) as [old Eold];
    [lia|].
  unfold call_assign. rewrite Hchk. cbn [mbind outcome_bind].
  rewrite Ha, Eold. cbn [fst snd].
  set (a' := mkNPArray _ _ _ _).
  assert (consistent a') as Hc' by exact Hc.
  assert (forall indices', valid_indices indices' (shape_ a) ->
            call a' indices'
            = vec_at (<[Z.to_nat k := v]> (data_ a))
                (layout_offset (shape_ a) (c_continuous_ a) indices'))
    as Hcall.
  { intros indices' Hv'. unfold call.
    rewrite check_indices_valid;
      [| apply Hc' | apply valid_indices_lt, Hv'].
    cbn [mbind outcome_bind].
    rewrite (address_offset a' indices' Hc' Hne Hv' Hp). reflexivity. }
  split; [reflexivity|]. split; [|split; [|split]].
  - rewrite Hcall by assumption. fold k. unfold vec_at.
    rewrite list_lookup_insert_eq by lia. reflexivity.
  - intros indices' Hv' Hd. rewrite Hcall by assumption.
    unfold call.
    rewrite check_indices_valid;
      [| apply Hc | apply valid_indices_lt, Hv'].
    cbn [mbind outcome_bind].
    rewrite (address_offset a indices' Hc Hne Hv' Hp).
    cbn [mbind outcome_bind]. unfold vec_at.
    pose proof (layout_offset_bound _ (c_continuous_ a) _ Hv') as Hb'.
    rewrite list_lookup_insert_ne; [reflexivity|].
    intros Hk. apply Hd.
    apply (layout_offset_inj (shape_ a) (c_continuous_ a)); try assumption.
    fold k. lia.
  - reflexivity.
  - unfold size, vec_size. subst a'. cbn [data_].
    rewrite length_insert. reflexivity.
Qed.
End FlatIndex.

Lemma linear_index_stride_form_witness :
  linear_index (mkNPArray zeros6 [2; 3] true 2) [1; 2] = Ok (1 * 3 + 2)
  /\ linear_index (mkNPArray zeros6 [2; 3] false 2) [1; 2] = Ok (1 + 2 * 2).
Proof.
  split.
  - apply (linear_index_stride_form (mkNPArray zeros6 [2; 3] true 2) [1; 2]).
    + unfold consistent, is_size_t. simpl. repeat constructor; lia.
    + discriminate.
    + unfold valid_indices. repeat constructor; lia.
    + reflexivity.
  - apply (linear_index_stride_form (mkNPArray zeros6 [2; 3] false 2) [1; 2]).
    + unfold consistent, is_size_t. simpl. repeat constructor; lia.
    + discriminate.
    + unfold valid_indices. repeat constructor; lia.
    + reflexivity.
Defined.

Lemma linear_index_injective_witness :
  linear_index abcdef [1; 0] <> linear_index abcdef [0; 1].
Proof.
  apply (linear_index_injective abcdef [1; 0] [0; 1] abcdef_consistent).
  - discriminate.
  - reflexivity.
  - unfold valid_indices. repeat constructor; lia.
  - unfold valid_indices. repeat constructor; lia.
  - discriminate.
Defined.

Lemma linear_index_onto_witness :
  exists indices,
    valid_indices indices [2; 3] /\ linear_index abcdef indices = Ok 4.
Proof.
  apply (linear_index_onto abcdef 4 abcdef_consistent).
  - discriminate.
  - reflexivity.
  - simpl. lia.
Defined.

Lemma column_major_is_reversed_row_major_witness :
  linear_index (mkNPArray zeros6 [2; 3] false 2) [1; 2]
  = linear_index (mkNPArray zeros6 [3; 2] true 2) [2; 1].
Proof.
  apply (column_major_is_reversed_row_major
           (mkNPArray zeros6 [2; 3] false 2) (mkNPArray zeros6 [3; 2] true 2)
           [1; 2]).
  - unfold consistent, is_size_t. simpl. repeat constructor; lia.
  - unfold consistent, is_size_t. simpl. repeat constructor; lia.
  - discriminate.
  - reflexivity.
  - reflexivity.
  - reflexivity.
  - unfold valid_indices. repeat constructor; lia.
Defined.

Lemma call_assign_then_call_witness :
  call (fst (call_assign [1; 2] "z"%char abcdef)) [1; 2] = Ok "z"%char
  /\ call (fst (call_assign [1; 2] "z"%char abcdef)) [0; 1] = Ok "b"%char.
Proof.
  destruct (call_assign_then_call abcdef [1; 2] "z"%char abcdef_consistent)
    as (_ & Hsame & Hother & _).
  - discriminate.
  - unfold valid_indices. repeat constructor; lia.
  - reflexivity.
  - reflexivity.
  - split; [exact Hsame|].
    rewrite Hother; [reflexivity | | discriminate].
    unfold valid_indices. repeat constructor; lia.
Defined.

(** ** Constructors, [fill], [reallocate] and [reshape] *)

Section Operations.
Context {T : Type}.
Variable value_init : T.
Variable max_size : Z.
Implicit Types (a : NPArray T) (indices : list Z).

(** X9: [operator()] is [operator[]] at [linear_index]: it ends as
    [linear_index] does when that throws, and otherwise accesses the
    flat storage at the index [linear_index] returns. *)
Theorem call_is_subscript_at_linear_index a indices :
  call a indices = (k ← linear_index a indices; subscript a k).
Proof.
  unfold call, linear_index, subscript.
  destruct (check_indices a indices); reflexivity.
Qed.

Lemma call_offset a indices :
  consistent a -> shape_ a <> [] -> valid_indices indices (shape_ a) ->
  product (shape_ a) < 2 ^ 64 ->
  call a indices
  = vec_at (data_ a) (layout_offset (shape_ a) (c_continuous_ a) indices).
Proof.
  intros Hc Hne Hv Hp. unfold call.
  rewrite check_indices_valid;
    [| apply Hc | apply valid_indices_lt; assumption].
  cbn [mbind outcome_bind]. rewrite address_offset by assumption.
  reflexivity.
Qed.

Lemma vec_at_replicate n (x : T) (k : Z) :
  0 <= k < Z.of_nat n -> vec_at (replicate n x) k = Ok x.
Proof.
  intros Hk. unfold vec_at. rewrite lookup_replicate_2 by lia. reflexivity.
Qed.



(** X11: [NPArray(data, shape)] throws [std::runtime_error] for the
    empty shape and for a shape that does not stand for [data.size()]
    elements; otherwise it gives an array of that shape and layout
    holding [data]: [operator[](i)] is [data[i]], and, when the
    product of the extents fits [size_t], [operator()] at a valid
    index tuple is [data] at the stride-form offset. *)
Theorem data_constructor_spec (data : list T) (c : bool) :
  NPArray_data data [] c = Throw runtime_error
  /\ forall init_shape,
       init_shape <> [] ->
       (element_count init_shape <> Some (vec_size data) ->
        NPArray_data data init_shape c = Throw runtime_error)
       /\ (element_count init_shape = Some (vec_size data) ->
           exists a,
             NPArray_data data init_shape c = Ok a
             /\ shape a = init_shape /\ c_continuous a = c
             /\ size a = vec_size data
             /\ (forall i, subscript a i = vec_at data i)
             /\ (Forall is_size_t init_shape ->
                 is_size_t (vec_size init_shape) ->
                 product init_shape < 2 ^ 64 ->
                 forall indices,
                   valid_indices indices init_shape ->
                   call a indices
                   = vec_at data (layout_offset init_shape c indices))).
Proof.
  split; [reflexivity|].
  intros [|s0 rest] Hne; [congruence|]. unfold NPArray_data. simpl.
  destruct (Z.eqb_spec (count_elements s0 rest) (vec_size data)) as [He|Hd];
    simpl; split; try congruence.
  intros _. eexists. split; [reflexivity|].
  repeat (split; [reflexivity|]).
  intros Hs Hrank Hp indices Hv.
  rewrite call_offset; try assumption; [reflexivity|].
  unfold consistent. cbn [dimensions_ shape_]. auto.
Qed.

(** X12: [fill(val)] leaves shape, size and layout as they are and
    makes every element [val]: through [operator[]] at every position
    below [size()], and, on an array that holds as many elements as
    the product of its extents, that product fitting [size_t],
    through [operator()] at every valid index tuple; a second [fill]
    overrides the first. *)
Theorem fill_spec (val : T) a :
  shape (fill val a) = shape a
  /\ size (fill val a) = size a
  /\ c_continuous (fill val a) = c_continuous a
  /\ (forall i, 0 <= i < size a -> subscript (fill val a) i = Ok val)
  /\ (consistent a -> shape_ a <> [] ->
      size a = product (shape_ a) -> product (shape_ a) < 2 ^ 64 ->
      forall indices,
        valid_indices indices (shape_ a) ->
        call (fill val a) indices = Ok val)
  /\ (forall val', fill val (fill val' a) = fill val a).
Proof.
  split; [reflexivity|]. split.
  { unfold size, vec_size, fill. cbn [data_]. rewrite length_replicate.
    reflexivity. }
  split; [reflexivity|]. split; [|split].
  - intros i Hi. unfold subscript, fill. cbn [data_].
    apply vec_at_replicate. unfold size, vec_size in Hi. lia.
  - intros Hc Hne Hsz Hp indices Hv.
    rewrite call_offset; try assumption.
    unfold fill. cbn [data_ shape_ c_continuous_].
    apply vec_at_replicate.
    pose proof (layout_offset_bound _ (c_continuous_ a) _ Hv).
    unfold size, vec_size in Hsz. lia.
  - intros val'. unfold fill. cbn [data_ shape_ c_continuous_ dimensions_].
    rewrite length_replicate. reflexivity.
Qed.


(** X14: a [reshape] that succeeds is undone by a [reshape] to the old
    shape, and no [reshape] changes what [operator[]] returns. *)
Theorem reshape_round_trip (new_shape : list Z) a :
  inv a -> snd (reshape new_shape a) = Ok tt ->
  reshape (shape_ a) (fst (reshape new_shape a)) = (a, Ok tt)
  /\ forall i, subscript (fst (reshape new_shape a)) i = subscript a i.
Proof.
  intros ((Hrank & Hcount) & Hd) Hok.
  unfold reshape in *. destruct new_shape as [|s0 rest]; [discriminate|].
  destruct (Z.eqb_spec (count_elements s0 rest) (vec_size (data_ a)));
    [|discriminate].
  cbn [fst snd]. split; [|reflexivity].
  unfold shape, size in *.
  destruct a as [data shp c dims]. cbn [shape_ data_ c_continuous_ dimensions_] in *.
  destruct shp as [|t0 trest]; [simpl in Hrank; lia|].
  simpl in Hcount. injection Hcount as Hcount.
  rewrite Hcount, Z.eqb_refl, Hd. reflexivity.
Qed.
End Operations.

Example shape_constructor_2x3 :
  NPArray_shape 0 (vector_max_size 8) [2; 3] true
  = Ok (mkNPArray zeros6 [2; 3] true 2)
  /\ NPArray_shape 0 (vector_max_size 8) [2 ^ 32; 2 ^ 31] true
     = Throw length_error.
Proof. split; reflexivity. Qed.

Example reallocate_keeps_flat_prefix :
  fst (reallocate "0"%char (vector_max_size 1) [2; 2] abcdef)
  = mkNPArray (str "abcd") [2; 2] true 2
  /\ fst (reallocate "0"%char (vector_max_size 1) [2; 4] abcdef)
     = mkNPArray (str "abcdef00") [2; 4] true 2.
Proof. split; reflexivity. Qed.

Lemma abcdef_inv : inv abcdef.
Proof.
  unfold inv, array_invariant, shape, size. simpl. repeat split; lia.
Defined.

Lemma reshape_round_trip_witness :
  reshape [2; 3] (fst (reshape [3; 2] abcdef)) = (abcdef, Ok tt).
Proof.
  apply (reshape_round_trip [3; 2] abcdef abcdef_inv). reflexivity.
Defined.

(** ** Errors and edges of the codec *)

Ltac some_dtype Hn :=
  first [ apply (Hn CHAR); reflexivity | apply (Hn UCHAR); reflexivity
        | apply (Hn INT16); reflexivity | apply (Hn INT32); reflexivity
        | apply (Hn INT64); reflexivity | apply (Hn UINT16); reflexivity
        | apply (Hn UINT32); reflexivity | apply (Hn UINT64); reflexivity
        | apply (Hn FLOAT32); reflexivity | apply (Hn DOUBLE64); reflexivity
        | apply (Hn COMPLEX64); reflexivity
        | apply (Hn COMPLEX128); reflexivity ].

(** X15: [descr_to_DType] returns a kind only for that kind's own token,
    and throws [std::runtime_error] for every token outside the table. *)
Theorem descr_to_DType_exact (tok : list char) :
  (forall dtype, descr_to_DType tok = Ok dtype <-> tok = DType_to_descr dtype)
  /\ ((forall dtype, tok <> DType_to_descr dtype) ->
      descr_to_DType tok = Throw runtime_error)
  /\ descr_to_DType tok <> Undefined.
Proof.
  unfold descr_to_DType.
  repeat case_bool_decide;
    (split; [|split; [|discriminate]]);
    try (intros Hn; exfalso; subst tok; some_dtype Hn);
    try reflexivity.
  all: intros dtype; split;
    [ try discriminate; intros [= <-]; assumption
    | intros ->; destruct dtype;
      first [ reflexivity | contradiction
            | match goal with E : _ = _ |- _ => vm_compute in E; discriminate E end ] ].
Qed.

Section SwapEdges.
Implicit Types (data : list char).

(** X16: [swap_bytes] throws [std::runtime_error] for an element
    width other than 1, 2, 4, 8 and 16 only when there is a byte to
    process; with no byte to process it returns at once, whatever the
    width, and leaves the buffer as it is. *)
Theorem swap_bytes_unsupported_width data (n w : Z) :
  (mul64 n w = 0 -> swap_bytes data n w = Ok data)
  /\ (~ In w [1; 2; 4; 8; 16] -> mul64 n w <> 0 ->
      swap_bytes data n w = Throw runtime_error).
Proof.
  unfold swap_bytes. split.
  - intros ->. reflexivity.
  - intros Hw Hn.
    pose proof (wrap_range (n * w)) as Hr. fold (mul64 n w) in Hr.
    unfold is_size_t in Hr.
    destruct (Z.to_nat (mul64 n w)) as [|fuel] eqn:Ef; [lia|].
    rewrite swap_loop_step by lia.
    unfold swap_element.
    destruct (Z.eqb_spec w 1); [subst; simpl in Hw; tauto|].
    destruct (Z.eqb_spec w 2); [subst; simpl in Hw; tauto|].
    destruct (Z.eqb_spec w 4); [subst; simpl in Hw; tauto|].
    destruct (Z.eqb_spec w 8); [subst; simpl in Hw; tauto|].
    destruct (Z.eqb_spec w 16); [subst; simpl in Hw; tauto|].
    reflexivity.
Qed.

Lemma size_of_DType_supported dtype :
  In (size_of_DType dtype) [1; 2; 4; 8; 16].
Proof. destruct dtype; simpl; tauto. Qed.
End SwapEdges.

Section LoadEdges.
Variable h : Host.
Implicit Types (file rest extra : list char).

(** X17: [load_npy] throws [std::runtime_error] for a file of at
    least six bytes that does not begin with the magic string,
    whatever follows. *)
Theorem load_npy_bad_magic file :
  6 <= vec_size file -> take 6 file <> magic ->
  load_npy h file = Throw runtime_error.
Proof.
  intros Hl Hm. unfold load_npy. rewrite read_cons by lia.
  cbn [mbind outcome_bind]. change (Z.to_nat 6) with 6%nat.
  rewrite bool_decide_eq_false_2 by exact Hm. reflexivity.
Qed.

(** X18: the minor version byte is read and not looked at. *)
Theorem minor_version_is_ignored (major minor minor' : char) rest :
  load_npy h (magic ++ major :: minor :: rest)
  = load_npy h (magic ++ major :: minor' :: rest).
Proof.
  unfold load_npy. change 6 with (vec_size magic). rewrite !read_app.
  cbn [mbind outcome_bind].
  destruct (negb _); [reflexivity|].
  rewrite !read_1. cbn [mbind outcome_bind].
  rewrite !read_1. cbn [mbind outcome_bind]. reflexivity.
Qed.

Lemma read_more (n : Z) file extra r file' :
  read n file = Ok (r, file') ->
  read n (file ++ extra) = Ok (r, file' ++ extra).
Proof.
  unfold read, vec_size. rewrite length_app.
  destruct (Z.ltb_spec (Z.of_nat (length file)) n); [discriminate|].
  intros [= <- <-].
  destruct (Z.ltb_spec (Z.of_nat (length file + length extra)) n); [lia|].
  rewrite take_app_le, drop_app_le by lia. reflexivity.
Qed.

Lemma read_header_length_more major file extra v file' :
  read_header_length h major file = Ok (v, file') ->
  read_header_length h major (file ++ extra) = Ok (v, file' ++ extra).
Proof.
  unfold read_header_length. intros Hr.
  destruct (char_to_int h major =? 1).
  - bind_inv Hr. destruct a as [len f1].
    rewrite (read_more _ _ extra _ _ E). cbn [mbind outcome_bind].
    bind_inv Hr. injection Hr as <- <-. reflexivity.
  - destruct (char_to_int h major >=? 2).
    + bind_inv Hr. destruct a as [len f1].
      rewrite (read_more _ _ extra _ _ E). cbn [mbind outcome_bind].
      bind_inv Hr. injection Hr as <- <-. reflexivity.
    + injection Hr as <- <-. reflexivity.
Qed.

(** X19: [load_npy] reads nothing after the payload: when it returns
    a result for a file, it returns the same result for that file
    with any bytes appended. *)
Theorem load_npy_ignores_trailing_bytes file extra r :
  load_npy h file = Ok r -> load_npy h (file ++ extra) = Ok r.
Proof.
  unfold load_npy. intros Hr.
  repeat
    (match type of Hr with
     | (read ?n ?f ≫= _) = _ =>
         let E := fresh "E" in
         destruct (read n f) as [[? ?]| |] eqn:E;
         cbn [mbind outcome_bind] in Hr; try discriminate Hr;
         rewrite (read_more _ _ extra _ _ E)
     | (read_header_length ?h0 ?m ?f ≫= _) = _ =>
         let E := fresh "E" in
         destruct (read_header_length h0 m f) as [[? ?]| |] eqn:E;
         cbn [mbind outcome_bind] in Hr; try discriminate Hr;
         rewrite (read_header_length_more _ _ extra _ _ E)
     | (?m ≫= _) = _ =>
         let E := fresh "E" in
         destruct m eqn:E; cbn [mbind outcome_bind] in Hr;
         try discriminate Hr
     | (if negb ?b then _ else _) = _ =>
         destruct b; cbn [negb] in Hr |- *; try discriminate Hr
     end;
     cbn [mbind outcome_bind];
     repeat match goal with p : (_ * _)%type |- _ => destruct p end).
  exact Hr.
Qed.

(** X20: a header without the [fortran_order] key is not detected:
    [find] returns [npos], the wrapped start position is 16, and the
    layout is taken from whatever stands from position 16 up to the
    next comma. *)
Theorem missing_fortran_order_key_is_not_detected
    (header tok : list char) :
  vec_size header < 2 ^ 64 ->
  find (str "'fortran_order': ") header = npos ->
  token_until ","%char (drop 16 header) = Some tok ->
  parse_fortran_order header = Ok (bool_decide (tok = str "False")).
Proof.
  intros Hb Hf Ht. unfold parse_fortran_order, fortran_order_token.
  rewrite Hf. change (add64 npos 17) with 16.
  rewrite (order_loop_token header 16 _ 16%nat 0 [] _ tok eq_refl);
    try assumption; try lia.
  - cbn [mbind outcome_bind app]. destruct (bool_decide _); reflexivity.
  - rewrite length_drop. lia.
Qed.
End LoadEdges.

Lemma swap_bytes_unsupported_width_witness :
  swap_bytes (str "abcdef") 2 3 = Throw runtime_error.
Proof.
  apply (swap_bytes_unsupported_width (str "abcdef") 2 3).
  - simpl. lia.
  - discriminate.
Defined.

Lemma load_npy_bad_magic_witness :
  load_npy x86_64 (str "NUMPY-file") = Throw runtime_error.
Proof.
  apply (load_npy_bad_magic x86_64 (str "NUMPY-file")).
  - vm_compute. discriminate.
  - discriminate.
Defined.

Lemma missing_fortran_order_key_is_not_detected_witness :
  parse_fortran_order (str "{'descr': '<f8', 'shape': (2,3,), }")
  = Ok false.
Proof.
  apply (missing_fortran_order_key_is_not_detected
           (str "{'descr': '<f8', 'shape': (2,3,), }") (str "'shape':(2")).
  - reflexivity.
  - reflexivity.
  - reflexivity.
Defined.

Lemma load_npy_ignores_trailing_bytes_witness :
  load_npy x86_64 (abcdef_file ++ str "junk")
  = Ok (str "abcdef", [2; 3], UCHAR, true).
Proof.
  apply (load_npy_ignores_trailing_bytes x86_64 abcdef_file (str "junk")).
  vm_compute. reflexivity.
Defined.

(** ** Files with a terminated header, written on one host and loaded on
    another *)

Section AcrossHosts.
Variables hw hr : Host.
Hypothesis reader_little : little_endian hr = true.
Implicit Types (shp : list Z) (dtype : DType) (c : bool)
  (junk payload : list char).

Lemma swap_written_payload payload s0 rest_shape dtype :
  0 <= s0 -> s0 < 2 ^ 64 ->
  vec_size payload = count_elements s0 rest_shape * size_of_DType dtype ->
  vec_size payload < 2 ^ 64 ->
  swap_bytes payload (count_elements s0 rest_shape) (size_of_DType dtype)
  = Ok (reverse_elements (Z.to_nat (count_elements s0 rest_shape))
          (Z.to_nat (size_of_DType dtype)) payload).
Proof.
  intros H0 H1 Hlen Hfit.
  apply swap_bytes_reverses; [apply size_of_DType_supported | | lia | exact Hlen].
  assert (is_size_t s0) as Hz by (unfold is_size_t; lia).
  pose proof (count_elements_range rest_shape s0 Hz) as Hr.
  unfold is_size_t in Hr. lia.
Qed.

(** X21: a file laid out as [write_npy] lays it out on any host, with
    the header that host writes (extents below 2^31) followed by a
    null character in the header region, is loaded by [load_npy] on a
    little-endian host with the shape, element kind and layout of the
    header; the payload comes back as it is in the file when the
    header is a little-endian writer's, and with the bytes of every
    element reversed when it is a big-endian writer's. *)
Theorem load_npy_across_hosts (v : Z) shp dtype c junk payload s0 rest_shape :
  (v = 1 /\ vec_size (terminated (padded_header hw shp dtype c) junk) < 2 ^ 16)
  \/ (v = 2
      /\ vec_size (terminated (padded_header hw shp dtype c) junk) < 2 ^ 32) ->
  shp = s0 :: rest_shape ->
  Forall (fun e => 0 <= e < 2 ^ 31) shp ->
  vec_size payload = count_elements s0 rest_shape * size_of_DType dtype ->
  vec_size payload < 2 ^ 64 ->
  load_npy hr (npy_file v (terminated (padded_header hw shp dtype c) junk)
                 payload)
  = Ok (if little_endian hw then payload
        else reverse_elements
               (Z.to_nat (count_elements s0 rest_shape))
               (Z.to_nat (size_of_DType dtype)) payload,
        shp, dtype, c).
Proof.
  intros Hv Hshp Hs Hlen Hfit.
  rewrite (load_npy_terminated hw hr reader_little v shp dtype c junk payload
             s0 rest_shape Hv Hshp Hs Hlen Hfit).
  destruct (little_endian hw); [reflexivity|].
  subst shp. apply Forall_cons in Hs as [Hs0 _].
  rewrite swap_written_payload by (assumption || lia). reflexivity.
Qed.
End AcrossHosts.

Section OtherKind.
Context {T : Type} `{Element T}.
Variables hw hr : Host.
Variable max_size : Z.

End OtherKind.

Lemma load_npy_across_hosts_witness :
  load_npy x86_64
    (npy_file 1 (terminated (padded_header s390x [3] UINT16 true) [])
       (str "abcdef"))
  = Ok (str "badcfe", [3], UINT16, true).
Proof.
  apply (load_npy_across_hosts s390x x86_64 eq_refl 1 [3] UINT16 true []
           (str "abcdef") 3 []).
  - left. split; [reflexivity | vm_compute; reflexivity].
  - reflexivity.
  - repeat constructor; lia.
  - reflexivity.
  - reflexivity.
Defined.


(** ** [load] of an array from a file with a terminated header *)

Section Portable.
Context {T : Type} `{Element T}.
Variables hw hr : Host.
Variable max_size : Z.
Implicit Types (a : NPArray T) (data : list T).

Lemma reverse_elements_flat_map (f : T -> list char) (w : nat) data :
  Forall (fun x => length (f x) = w) data ->
  reverse_elements (length data) w (flat_map f data)
  = flat_map (fun x => reverse (f x)) data.
Proof.
  induction 1 as [|x data Hx _ IH]; [reflexivity|].
  cbn [length flat_map reverse_elements].
  rewrite take_app_length', drop_app_length' by (symmetry; exact Hx).
  rewrite IH. reflexivity.
Qed.

Lemma reinterpret_flat_map (f : T -> list char) data :
  Forall (fun x => vec_size (f x) = sizeof /\ from_bytes hr (f x) = x) data ->
  reinterpret hr (length data) (flat_map f data) = Ok data.
Proof.
  induction 1 as [|x data [Hl Hx] _ IH]; [reflexivity|].
  cbn [flat_map length reinterpret]. rewrite <- Hl, read_app.
  cbn [mbind outcome_bind]. rewrite IH. cbn [mbind outcome_bind].
  rewrite Hx. reflexivity.
Qed.

(** X23: [load] on a little-endian host reads an array back, with
    the same elements, shape and layout, from the file that holds
    what [save] writes for it on any host, big-endian ones included
    (the header, the object bytes of the elements), when the header
    region ends the header with a null character; for an array of at
    most [max_size()] elements whose object representations,
    byte-reversed when the byte orders differ, read back to the
    elements. *)
Theorem load_terminated_file_across_hosts a dtype s0 rest (v : Z) junk :
  little_endian hr = true ->
  typeid_DType = Some dtype -> sizeof = size_of_DType dtype ->
  Forall (transferable hw hr) (data_ a) ->
  shape_ a = s0 :: rest ->
  Forall (fun e => 0 <= e < 2 ^ 31) (shape_ a) ->
  dimensions_ a = vec_size (shape_ a) ->
  (v = 1
   /\ vec_size (terminated (padded_header hw (shape_ a) dtype
                              (c_continuous_ a)) junk) < 2 ^ 16)
  \/ (v = 2
      /\ vec_size (terminated (padded_header hw (shape_ a) dtype
                                 (c_continuous_ a)) junk) < 2 ^ 32) ->
  size a = count_elements s0 rest ->
  size a * sizeof < 2 ^ 64 ->
  size a <= max_size ->
  load hr max_size
    (npy_file v
       (terminated (padded_header hw (shape_ a) dtype (c_continuous_ a))
          junk)
       (flat_map (object_bytes hw) (data_ a)))
  = Ok a.
Proof.
  intros Hle Hty Hsz Htr Hshp Hext Hdim Hv Hcount Hfit Hmax.
  destruct a as [d shp c n]. unfold size in *.
  cbn [data_ shape_ c_continuous_ dimensions_] in *. subst shp n.
  assert (0 <= sizeof) as Hw0 by (rewrite Hsz; destruct dtype; simpl; lia).
  assert (Forall (fun x => length (object_bytes hw x) = Z.to_nat sizeof) d)
    as Hlens.
  { eapply Forall_impl; [exact Htr|]. intros x [Hl _].
    unfold vec_size in Hl. lia. }
  assert (vec_size (flat_map (object_bytes hw) d) = vec_size d * sizeof)
    as Hlen.
  { clear -Hlens Hw0. unfold vec_size.
    induction Hlens as [|x d Hx _ IH]; [reflexivity|].
    cbn [flat_map length]. rewrite length_app. lia. }
  unfold load. rewrite Hty.
  rewrite (load_npy_terminated hw hr Hle v (s0 :: rest) dtype c junk
             (flat_map (object_bytes hw) d) s0 rest Hv eq_refl Hext)
    by (rewrite Hlen; congruence || exact Hfit).
  assert ((if little_endian hw then Ok (flat_map (object_bytes hw) d)
           else swap_bytes (flat_map (object_bytes hw) d)
                  (count_elements s0 rest) (size_of_DType dtype))
          = Ok (flat_map
                  (fun x => if eqb (little_endian hw) (little_endian hr)
                            then object_bytes hw x
                            else reverse (object_bytes hw x)) d)) as ->.
  { rewrite Hle. destruct (little_endian hw); cbn [eqb]; [reflexivity|].
    rewrite swap_bytes_reverses;
      [| apply size_of_DType_supported
       | rewrite <- Hcount; unfold vec_size; lia
       | rewrite <- Hcount, <- Hsz; exact Hfit
       | rewrite Hlen; congruence ].
    rewrite <- Hcount, <- Hsz. unfold vec_size at 1. rewrite Nat2Z.id.
    rewrite reverse_elements_flat_map by exact Hlens. reflexivity. }
  cbn [mbind outcome_bind].
  rewrite bool_decide_eq_true_2 by reflexivity. cbn [negb].
  destruct (Z.ltb_spec (vec_size (s0 :: rest)) 1) as [Hlt|_];
    [unfold vec_size in Hlt; simpl in Hlt; lia|].
  change (vec_at (s0 :: rest) 0) with (Ok s0).
  cbn [mbind outcome_bind tail].
  rewrite <- Hcount.
  replace (Z.to_nat (vec_size d)) with (length d)
    by (unfold vec_size; lia).
  rewrite reinterpret_flat_map.
  - cbn [mbind outcome_bind].
    destruct (Z.gtb_spec (vec_size d) max_size); [lia|].
    cbn [mbind outcome_bind].
    unfold NPArray_data. rewrite <- Hcount, Z.eqb_refl. reflexivity.
  - eapply Forall_impl; [exact Htr|]. intros x [Hl1 Hx]. split; [|exact Hx].
    destruct (eqb _ _); [exact Hl1|].
    unfold vec_size in *. rewrite length_reverse. exact Hl1.
Qed.
End Portable.

Lemma load_terminated_file_across_hosts_witness :
  @load Z uint16_Element x86_64 (vector_max_size 2)
    (npy_file 1 (terminated (padded_header s390x [3] UINT16 true) [])
       (flat_map (@object_bytes Z uint16_Element s390x) [1; 258; 65535]))
  = Ok (mkNPArray [1; 258; 65535] [3] true 1).
Proof.
  apply (@load_terminated_file_across_hosts Z uint16_Element s390x x86_64
           (vector_max_size 2) (mkNPArray [1; 258; 65535] [3] true 1)
           UINT16 3 [] 1 []);
    try reflexivity.
  - repeat constructor.
  - repeat constructor; lia.
  - left. split; [reflexivity | vm_compute; reflexivity].
  - vm_compute. discriminate.
Defined.

(** ** Shape text with spaces *)

Section SpacedShape.
Implicit Types (header pre post t temp : list char) (shp : list Z)
  (items : list (nat * Z)) (final : option (nat * Z)).

Lemma skip_spaces_replicate k t :
  skip_spaces (replicate k " "%char ++ t) = skip_spaces t.
Proof. induction k as [|k IH]; [reflexivity|]. simpl. exact IH. Qed.

Lemma stoi_skip_spaces t : stoi t = stoi (skip_spaces t).
Proof.
  assert (skip_spaces (skip_spaces t) = skip_spaces t) as Hi.
  { induction t as [|c t IH]; [reflexivity|].
    simpl. destruct (isspace c) eqn:Ec; [exact IH|].
    simpl. rewrite Ec. reflexivity. }
  unfold stoi. rewrite Hi. reflexivity.
Qed.

Lemma stoi_spaced k e : 0 <= e < 2 ^ 31 -> stoi (spaced k e) = Ok e.
Proof.
  intros He. unfold spaced.
  rewrite stoi_skip_spaces, skip_spaces_replicate, <- stoi_skip_spaces.
  apply stoi_to_string. exact He.
Qed.

Lemma spaced_no_comma k e :
  0 <= e < 2 ^ 64 -> Forall (fun c => c <> ","%char) (spaced k e).
Proof.
  intros He. unfold spaced. apply Forall_app. split.
  - apply Forall_replicate. discriminate.
  - destruct (to_string_spec e He) as (Hd & _).
    eapply Forall_impl; [exact Hd|]. intros c Hc ->. discriminate.
Qed.

Lemma spaced_no_paren k e :
  0 <= e < 2 ^ 64 -> Forall (fun c => c <> ")"%char) (spaced k e).
Proof.
  intros He. unfold spaced. apply Forall_app. split.
  - apply Forall_replicate. discriminate.
  - destruct (to_string_spec e He) as (Hd & _).
    eapply Forall_impl; [exact Hd|]. intros c Hc ->. discriminate.
Qed.

Lemma spaced_not_empty k e : 0 <= e < 2 ^ 64 -> (0 < length (spaced k e))%nat.
Proof.
  intros He. unfold spaced. rewrite length_app.
  destruct (to_string_spec e He) as (_ & Hne & _).
  destruct (to_string e); [congruence | simpl; lia].
Qed.

(** A run of characters other than the comma goes to [temp]. *)
Lemma shape_loop_run header loc2 ds : forall n temp shp fuel t,
  drop n header = ds ++ t ->
  Forall (fun c => c <> ","%char) ds ->
  Z.of_nat (n + length ds) <= loc2 -> loc2 < 2 ^ 64 ->
  shape_loop (length ds + fuel) header (Z.of_nat n) loc2 temp shp
  = shape_loop fuel header (Z.of_nat (n + length ds)) loc2 (temp ++ ds) shp.
Proof.
  induction ds as [|c ds IH]; intros n temp shp fuel t Hd Hds Hn Hb.
  - simpl. rewrite Nat.add_0_r, app_nil_r. reflexivity.
  - apply Forall_cons in Hds as [Hc Hds].
    destruct (lookup_of_drop _ _ _ _ Hd) as [Hl Hd'].
    cbn [length Nat.add] in *.
    rewrite (shape_loop_step _ _ _ _ _ _ c Hl) by lia.
    rewrite bool_decide_eq_false_2 by exact Hc. cbn [negb].
    rewrite (IH (S n) (temp ++ [c]) shp fuel t) by (assumption || lia).
    rewrite <- app_assoc. f_equal. lia.
Qed.

Lemma spaced_items_cons k e items :
  spaced_items ((k, e) :: items)
  = spaced k e ++ ","%char :: spaced_items items.
Proof.
  unfold spaced_items. cbn [flat_map fst snd].
  rewrite <- app_assoc. reflexivity.
Qed.

Lemma spaced_items_no_paren items :
  Forall (fun item => 0 <= snd item < 2 ^ 31) items ->
  Forall (fun c => c <> ")"%char) (spaced_items items).
Proof.
  induction 1 as [|[k e] items He _ IH]; [constructor|].
  rewrite spaced_items_cons. apply Forall_app. split.
  - apply spaced_no_paren. simpl in He. lia.
  - constructor; [discriminate | exact IH].
Qed.

(** The extents that are followed by a comma are read, one per
    comma. *)
Lemma shape_loop_items header loc2 items : forall n shp fuel t,
  drop n header = spaced_items items ++ t ->
  Forall (fun item => 0 <= snd item < 2 ^ 31) items ->
  Z.of_nat (n + length (spaced_items items)) <= loc2 -> loc2 < 2 ^ 64 ->
  shape_loop (length (spaced_items items) + fuel) header (Z.of_nat n) loc2
    [] shp
  = shape_loop fuel header (Z.of_nat (n + length (spaced_items items))) loc2
      [] (shp ++ map snd items).
Proof.
  induction items as [|[k e] items IH]; intros n shp fuel t Hd Hes Hn Hb.
  - simpl. rewrite Nat.add_0_r, app_nil_r. reflexivity.
  - apply Forall_cons in Hes as [He Hes]. cbn [snd] in He.
    rewrite spaced_items_cons in *.
    rewrite <- app_assoc in Hd. rewrite length_app in *.
    cbn [app length] in *.
    rewrite <- Nat.add_assoc.
    rewrite (shape_loop_run header loc2 (spaced k e) n [] shp _ _ Hd)
      by (try apply spaced_no_comma; lia).
    cbn [app Nat.add].
    assert (drop (n + length (spaced k e)) header
            = ","%char :: spaced_items items ++ t) as Hd1.
    { rewrite <- drop_drop, Hd, drop_app_length. reflexivity. }
    destruct (lookup_of_drop _ _ _ _ Hd1) as [Hl Hd2].
    rewrite (shape_loop_step _ _ _ _ _ _ _ Hl) by lia.
    rewrite bool_decide_eq_true_2 by reflexivity. cbn [negb].
    assert ((vec_size (spaced k e) >? 0) = true) as ->.
    { pose proof (spaced_not_empty k e ltac:(lia)).
      unfold vec_size. apply Z.gtb_lt. lia. }
    rewrite stoi_spaced by assumption. cbn [mbind outcome_bind].
    rewrite wrap_small by (unfold is_size_t; lia).
    rewrite (IH _ (shp ++ [e]) fuel t Hd2 Hes) by lia.
    cbn [map snd]. rewrite <- app_assoc. cbn [app].
    f_equal. lia.
Qed.

(** X24: the shape is read from the text between the first opening
    and the first closing parenthesis, where every extent may follow
    any number of spaces and the last extent may or may not be
    followed by a comma, as in the headers NumPy writes: [(2, 3)]
    gives [2, 3], [(3,)] gives [3], and [()] gives the shape [1]. *)
Theorem parse_shape_spaced pre items final post :
  Forall (fun x => x <> "("%char /\ x <> ")"%char) pre ->
  Forall (fun e => 0 <= e < 2 ^ 31) (spaced_extents items final) ->
  vec_size (pre ++ "("%char :: spaced_body items final ++ ")"%char :: post)
    < 2 ^ 64 ->
  parse_shape (pre ++ "("%char :: spaced_body items final ++ ")"%char :: post)
  = Ok (match spaced_extents items final with
        | [] => [1]
        | es => es
        end).
Proof.
  intros Hpre Hes Hb.
  assert (Forall (fun item => 0 <= snd item < 2 ^ 31) items) as Hitems.
  { unfold spaced_extents in Hes. apply Forall_app in Hes as [Hm _].
    apply List.Forall_map in Hm. exact Hm. }
  set (ft := match final with
             | Some item => spaced (fst item) (snd item)
             | None => []
             end).
  assert (Forall (fun c => c <> ","%char) ft
          /\ Forall (fun c => c <> ")"%char) ft) as [Hftc Hftp].
  { unfold ft. destruct final as [[k e]|]; [|split; constructor].
    unfold spaced_extents in Hes. apply Forall_app in Hes as [_ He].
    apply Forall_inv in He. cbn [fst snd] in *.
    split; [apply spaced_no_comma | apply spaced_no_paren]; lia. }
  assert (spaced_body items final = spaced_items items ++ ft) as Hbody
    by reflexivity.
  rewrite Hbody in *. clear Hbody.
  assert (Forall (fun c => c <> ")"%char) (spaced_items items ++ ft))
    as Hnp.
  { apply Forall_app. split; [apply spaced_items_no_paren|]; assumption. }
  set (body := spaced_items items ++ ft) in *.
  set (header := pre ++ "("%char :: body ++ ")"%char :: post) in *.
  assert (length header
          = (length pre + 1 + length body + 1 + length post)%nat) as Hlen.
  { unfold header. rewrite length_app. cbn [length]. rewrite length_app.
    cbn [length]. lia. }
  unfold vec_size in Hb.
  assert (find (str "(") header = Z.of_nat (length pre)) as Hopen.
  { unfold find, header. change (str "(") with ["("%char].
    rewrite find_from_skip
      by (eapply Forall_impl; [exact Hpre|]; intros x [Hx _]; exact Hx).
    rewrite find_from_here. lia. }
  assert (find (str ")") header = Z.of_nat (length pre + 1 + length body))
    as Hclose.
  { unfold find, header. change (str ")") with [")"%char].
    rewrite find_from_skip
      by (eapply Forall_impl; [exact Hpre|]; intros x [_ Hx]; exact Hx).
    change ("("%char :: body ++ ")"%char :: post)
      with (["("%char] ++ body ++ ")"%char :: post).
    rewrite find_from_skip by (repeat constructor; discriminate).
    rewrite find_from_skip by exact Hnp.
    rewrite find_from_here. cbn [length]. lia. }
  assert (drop (S (length pre)) header = body ++ ")"%char :: post) as Hdrop.
  { unfold header.
    change ("("%char :: body ++ ")"%char :: post)
      with (["("%char] ++ body ++ ")"%char :: post).
    rewrite app_assoc. apply drop_app_length'.
    rewrite length_app. cbn [length]. lia. }
  unfold parse_shape. rewrite Hopen, Hclose.
  replace (add64 (Z.of_nat (length pre)) 1) with (Z.of_nat (S (length pre)))
    by (unfold add64; rewrite wrap_small; unfold is_size_t; lia).
  destruct (Z.eqb_spec (Z.of_nat (S (length pre)))
              (Z.of_nat (length pre + 1 + length body))) as [Heq|Hneq].
  - assert (length body = 0%nat) as Hz by lia.
    unfold body in Hz. rewrite length_app in Hz.
    destruct items as [|[k e] items].
    + destruct final as [[k e]|]; [|reflexivity].
      exfalso. unfold ft in Hz. cbn [fst snd] in Hz.
      unfold spaced_extents in Hes. apply Forall_app in Hes as [_ He].
      apply Forall_inv in He. cbn [snd] in He.
      pose proof (spaced_not_empty k e ltac:(lia)). simpl in Hz. lia.
    + exfalso. rewrite spaced_items_cons, length_app in Hz.
      cbn [length] in Hz. lia.
  - assert (0 < length body)%nat as Hpos by lia.
    replace (S (S (length header)))
      with (length (spaced_items items)
            + (length ft + (S (S (length header)) - length body)))%nat
      by (unfold body in *; rewrite length_app in *; lia).
    unfold body in Hdrop. rewrite <- app_assoc in Hdrop.
    rewrite (shape_loop_items header _ items (S (length pre)) [] _ _ Hdrop
               Hitems)
      by (unfold body in *; rewrite length_app in *; lia).
    assert (drop (S (length pre) + length (spaced_items items)) header
            = ft ++ ")"%char :: post) as Hdrop2.
    { rewrite <- drop_drop, Hdrop, drop_app_length. reflexivity. }
    rewrite (shape_loop_run header _ ft _ [] _ _ _ Hdrop2 Hftc)
      by (unfold body in *; rewrite length_app in *; lia).
    rewrite shape_loop_done
      by (unfold body in *; rewrite length_app in *; lia).
    cbn [mbind outcome_bind app].
    unfold spaced_extents. fold ft.
    destruct final as [[k e]|].
    + unfold ft. cbn [fst snd].
      unfold spaced_extents in Hes. apply Forall_app in Hes as [_ He].
      apply Forall_inv in He. cbn [snd] in He.
      assert ((vec_size (spaced k e) >? 0) = true) as ->.
      { pose proof (spaced_not_empty k e ltac:(lia)).
        unfold vec_size. apply Z.gtb_lt. lia. }
      rewrite stoi_spaced by assumption. cbn [mbind outcome_bind].
      rewrite wrap_small by (unfold is_size_t; lia).
      destruct (map snd items ++ [e]) as [|x xs] eqn:Ex; [|reflexivity].
      apply (f_equal length) in Ex. rewrite length_app in Ex.
      simpl in Ex. lia.
    + cbn [vec_size length]. change (Z.of_nat 0 >? 0) with false.
      rewrite app_nil_r.
      destruct items as [|[k e] items]; [|reflexivity].
      exfalso. unfold body, ft in Hpos. simpl in Hpos. lia.
Qed.
End SpacedShape.

Lemma parse_shape_spaced_witness :
  parse_shape
    (str "{'descr': '<f8', 'fortran_order': False, 'shape': (2, 3), }")
  = Ok [2; 3]
  /\ parse_shape
    (str "{'descr': '<f8', 'fortran_order': False, 'shape': (3,), }")
  = Ok [3]
  /\ parse_shape
    (str "{'descr': '<f8', 'fortran_order': False, 'shape': (), }")
  = Ok [1].
Proof.
  split; [|split].
  - apply (parse_shape_spaced
             (str "{'descr': '<f8', 'fortran_order': False, 'shape': ")
             [(0%nat, 2)] (Some (1%nat, 3)) (str ", }")).
    + repeat constructor; discriminate.
    + cbv [spaced_extents map snd app]. repeat constructor; lia.
    + reflexivity.
  - apply (parse_shape_spaced
             (str "{'descr': '<f8', 'fortran_order': False, 'shape': ")
             [(0%nat, 3)] None (str ", }")).
    + repeat constructor; discriminate.
    + cbv [spaced_extents map snd app]. repeat constructor; lia.
    + reflexivity.
  - apply (parse_shape_spaced
             (str "{'descr': '<f8', 'fortran_order': False, 'shape': ")
             [] None (str ", }")).
    + repeat constructor; discriminate.
    + constructor.
    + reflexivity.
Defined.

(** ** The [descr] field *)

Section Descr.
Implicit Types (header s tok acc : list char).

(** The loop collects exactly the token, from any position on. *)
Lemma descr_loop_token header (loc1 : Z) : forall s (n : nat) i acc fuel tok,
  drop n header = s -> Z.of_nat n = loc1 + i -> 0 <= loc1 -> 0 <= i ->
  vec_size header < 2 ^ 64 ->
  token_until "'"%char s = Some tok ->
  (length s < fuel)%nat ->
  descr_loop fuel header loc1 i acc = Ok (acc ++ tok).
Proof.
  induction s as [|c s IH]; intros n i acc fuel tok Hs Hn Hl Hi Hb Ht Hf;
    [discriminate|].
  destruct fuel as [|fuel]; [simpl in Hf; lia|].
  assert (header !! n = Some c) as Hc.
  { rewrite <- (Nat.add_0_r n), <- lookup_drop, Hs. reflexivity. }
  pose proof (lookup_lt_Some _ _ _ Hc) as Hlt.
  assert (drop (S n) header = s) as Hs'.
  { replace (S n) with (n + 1)%nat by lia. rewrite <- drop_drop, Hs.
    reflexivity. }
  assert (add64 i 1 = i + 1) as Hi1.
  { unfold add64. apply wrap_small. unfold is_size_t, vec_size in *. lia. }
  cbn [descr_loop].
  replace (add64 loc1 i) with (Z.of_nat n)
    by (unfold add64; rewrite wrap_small;
        unfold is_size_t, vec_size in *; lia).
  rewrite (str_at_lookup _ _ _ Hc). cbn [mbind outcome_bind].
  cbn [token_until] in Ht. rewrite Hi1.
  destruct (bool_decide (c = "'"%char)) eqn:Equote.
  - injection Ht as <-.
    destruct (bool_decide (c = " "%char)) eqn:Esp.
    + apply bool_decide_eq_true in Equote, Esp. congruence.
    + simpl. rewrite app_nil_r. reflexivity.
  - destruct (bool_decide (c = " "%char)) eqn:Esp; simpl.
    + apply (IH (S n)); try assumption; simpl in Hf; lia.
    + destruct (token_until "'"%char s) as [tok'|] eqn:Et; [|discriminate].
      injection Ht as <-.
      rewrite (IH (S n) (i + 1) (acc ++ [c]) fuel tok');
        try assumption; try reflexivity; try (simpl in Hf; lia).
      rewrite <- app_assoc. reflexivity.
Qed.

(** X25: when the header holds the key ['descr': ] at position [p],
    the character at [p + 9] is skipped unchecked, the character at
    [p + 10] is the byte-order mark (only [>] means big-endian), and
    the element kind is looked up for the characters from [p + 11] up
    to the next quote, spaces dropped. *)
Theorem descr_field_parse header (p : nat) (mark : char) tok :
  vec_size header < 2 ^ 64 ->
  find (str "'descr': ") header = Z.of_nat p ->
  header !! (p + 10)%nat = Some mark ->
  token_until "'"%char (drop (p + 11) header) = Some tok ->
  parse_descr header
  = (dtype ← descr_to_DType tok;
     Ok (dtype, negb (bool_decide (mark = ">"%char)))).
Proof.
  intros Hb Hf Hm Ht. unfold parse_descr. rewrite Hf.
  pose proof (lookup_lt_Some _ _ _ Hm) as Hlt. unfold vec_size in Hb.
  replace (add64 (Z.of_nat p) 9) with (Z.of_nat p + 9)
    by (unfold add64; rewrite wrap_small; unfold is_size_t; lia).
  replace (add64 (Z.of_nat p + 9) 1) with (Z.of_nat (p + 10))
    by (unfold add64; rewrite wrap_small; unfold is_size_t; lia).
  rewrite (str_at_lookup _ _ _ Hm). cbn [mbind outcome_bind].
  rewrite (descr_loop_token header (Z.of_nat p + 9) _ (p + 11)%nat 2 [] _ tok
             eq_refl); try assumption; try lia.
  - cbn [mbind outcome_bind app].
    destruct (descr_to_DType tok); reflexivity.
  - rewrite length_drop. lia.
Qed.
End Descr.

(** ** The header length on a big-endian host *)

Section BigEndianReader.
Variable h : Host.
Hypothesis host_big : little_endian h = false.

(** X26: on a big-endian host the call [swap_bytes(&length_temp, 2, 1)]
    (two elements of one byte) swaps nothing, and so does the 4-byte
    one: the length field is taken with its first byte as the most
    significant one. *)
Theorem header_length_on_big_endian_host (major_version : char) :
  (char_to_int h major_version = 1 ->
   forall b0 b1 rest,
     read_header_length h major_version (b0 :: b1 :: rest)
     = Ok (le_value [b1; b0], rest))
  /\ (2 <= char_to_int h major_version ->
      forall b0 b1 b2 b3 rest,
        read_header_length h major_version (b0 :: b1 :: b2 :: b3 :: rest)
        = Ok (le_value [b3; b2; b1; b0], rest)).
Proof.
  unfold read_header_length, system_is_little_endian, host_uint.
  rewrite host_big. split.
  - intros Hm b0 b1 rest. rewrite Hm. cbn [Z.eqb Pos.eqb].
    rewrite read_2. reflexivity.
  - intros Hm b0 b1 b2 b3 rest.
    destruct (Z.eqb_spec (char_to_int h major_version) 1); [lia|].
    destruct (Z.geb_spec (char_to_int h major_version) 2); [|lia].
    rewrite read_4. reflexivity.
Qed.
End BigEndianReader.

(** ** Extents that do not fit [int] *)

Section WideExtent.
Implicit Types (shp es : list Z) (dtype : DType) (c : bool)
  (rest payload : list char).

Lemma stoi_to_string_wide n :
  2 ^ 31 <= n < 2 ^ 64 -> stoi (to_string n) = Throw out_of_range.
Proof.
  intros Hn. destruct (to_string_spec n) as (Hd & Hne & Hv); [lia|].
  unfold stoi. destruct (to_string n) as [|d ds] eqn:Es; [congruence|].
  pose proof (Forall_inv Hd) as Hc. cbv beta in Hc.
  cbn [skip_spaces]. rewrite (digit_not_space d Hc).
  rewrite (digit_not d "-"%char Hc eq_refl), (digit_not d "+"%char Hc eq_refl).
  rewrite (leading_digits_all (d :: ds) Hd), Hv.
  destruct (Z.ltb_spec n (- 2 ^ 31)); [lia|].
  destruct (Z.ltb_spec (2 ^ 31 - 1) n); [reflexivity | lia].
Qed.

Lemma shape_text_spaced_items es :
  shape_text es = spaced_items (map (pair 0%nat) es).
Proof.
  induction es as [|e es IH]; [reflexivity|].
  unfold shape_text, spaced_items in *. cbn [flat_map map fst snd].
  rewrite IH. reflexivity.
Qed.

Lemma map_snd_pair (es : list Z) : map snd (map (pair 0%nat) es) = es.
Proof. induction es as [|e es IH]; [reflexivity|]. simpl. rewrite IH. reflexivity. Qed.

Lemma shape_text_app es1 es2 :
  shape_text (es1 ++ es2) = shape_text es1 ++ shape_text es2.
Proof. unfold shape_text. apply flat_map_app. Qed.

Lemma parse_shape_wide hw es1 e es2 dtype c rest :
  Forall (fun x => 0 <= x < 2 ^ 31) es1 -> 2 ^ 31 <= e < 2 ^ 64 ->
  Forall is_size_t es2 ->
  vec_size (header_prefix hw dtype c ++ shape_text (es1 ++ e :: es2)
            ++ ")"%char :: rest) < 2 ^ 64 ->
  parse_shape (header_prefix hw dtype c ++ shape_text (es1 ++ e :: es2)
               ++ ")"%char :: rest)
  = Throw out_of_range.
Proof.
  intros H1 He H2 Hb.
  destruct (header_prefix_parens_written hw dtype c)
    as (Hopen & Hclose & Hlen).
  assert (Forall is_size_t (es1 ++ e :: es2)) as Hs'.
  { apply Forall_app. split.
    - eapply Forall_impl; [exact H1|]. unfold is_size_t. intros x Hx. lia.
    - constructor; [unfold is_size_t; lia | exact H2]. }
  set (P := header_prefix hw dtype c) in *.
  set (shp := es1 ++ e :: es2) in *.
  unfold parse_shape. rewrite Hopen.
  unfold find. change (str ")") with [")"%char].
  rewrite find_from_skip by exact Hclose.
  rewrite find_from_skip by (apply shape_text_no_paren; exact Hs').
  rewrite find_from_here.
  unfold vec_size in *. rewrite !length_app in Hb. cbn [length] in Hb.
  replace (add64 (Z.of_nat (length P) - 1) 1) with (Z.of_nat (length P))
    by (unfold add64; rewrite wrap_small; unfold is_size_t; lia).
  assert (shape_text shp
          = spaced_items (map (pair 0%nat) es1)
            ++ to_string e ++ ","%char :: shape_text es2) as Htext.
  { unfold shp. rewrite shape_text_app, shape_text_spaced_items.
    unfold shape_text at 1. cbn [flat_map].
    rewrite <- app_assoc. reflexivity. }
  set (items := map (pair 0%nat) es1) in *.
  assert (length (shape_text shp)
          = (length (spaced_items items) + length (to_string e) + 1
             + length (shape_text es2))%nat) as Hlt.
  { rewrite Htext, !length_app. cbn [length]. lia. }
  destruct (Z.eqb_spec (Z.of_nat (length P))
              (0 + Z.of_nat (length P) + Z.of_nat (length (shape_text shp))));
    [lia|].
  rewrite !length_app. cbn [length].
  set (header := P ++ shape_text shp ++ ")"%char :: rest) in *.
  assert (drop (length P) header
          = spaced_items items
            ++ to_string e ++ ","%char :: shape_text es2 ++ ")"%char :: rest)
    as Hdrop.
  { unfold header. rewrite drop_app_length, Htext.
    rewrite <- !app_assoc. cbn [app]. reflexivity. }
  replace (S (S (length P + (length (shape_text shp) + S (length rest)))))
    with (length (spaced_items items)
          + (length (to_string e)
             + S (S (S (length P + length (shape_text es2)
                        + S (length rest))))))%nat
    by lia.
  rewrite (shape_loop_items header _ items (length P) [] _ _ Hdrop)
    by (try lia; unfold items; apply List.Forall_map; cbn [snd]; exact H1).
  assert (drop (length P + length (spaced_items items)) header
          = to_string e
            ++ ","%char :: shape_text es2 ++ ")"%char :: rest) as Hdrop2.
  { rewrite <- drop_drop, Hdrop, drop_app_length. reflexivity. }
  rewrite (shape_loop_run header _ (to_string e) _ [] _ _ _ Hdrop2)
    by (try lia; apply (spaced_no_comma 0 e); lia).
  assert (drop (length P + length (spaced_items items)
                + length (to_string e)) header
          = ","%char :: shape_text es2 ++ ")"%char :: rest) as Hdrop3.
  { rewrite <- drop_drop, Hdrop2, drop_app_length. reflexivity. }
  destruct (lookup_of_drop _ _ _ _ Hdrop3) as [Hl _].
  rewrite (shape_loop_step _ _ _ _ _ _ _ Hl) by lia.
  rewrite bool_decide_eq_true_2 by reflexivity. cbn [negb app].
  assert ((vec_size (to_string e) >? 0) = true) as ->.
  { pose proof (spaced_not_empty 0 e ltac:(lia)) as Hpos.
    unfold spaced in Hpos. cbn [replicate app] in Hpos.
    unfold vec_size. apply Z.gtb_lt. lia. }
  rewrite stoi_to_string_wide by lia. reflexivity.
Qed.

(** X27: a file laid out as [write_npy] lays it out, whose header is
    the one [write_npy] writes for a shape with an extent of 2^31 or
    more (terminated by a null character in the header region), is
    refused by [load_npy] on a little-endian host with
    [std::out_of_range], the error of [std::stoi], whatever the
    extents after that one are. *)
Theorem load_npy_wide_extent hw hr (v : Z) es1 e es2 dtype c junk payload :
  little_endian hr = true ->
  Forall (fun x => 0 <= x < 2 ^ 31) es1 -> 2 ^ 31 <= e < 2 ^ 64 ->
  Forall is_size_t es2 ->
  (v = 1
   /\ vec_size (terminated (padded_header hw (es1 ++ e :: es2) dtype c)
                  junk) < 2 ^ 16)
  \/ (v = 2
      /\ vec_size (terminated (padded_header hw (es1 ++ e :: es2) dtype c)
                     junk) < 2 ^ 32) ->
  load_npy hr
    (npy_file v
       (terminated (padded_header hw (es1 ++ e :: es2) dtype c) junk)
       payload)
  = Throw out_of_range.
Proof.
  intros Hle H1 He H2 Hv.
  set (shp := es1 ++ e :: es2) in *.
  assert (Forall is_size_t shp) as Hs'.
  { apply Forall_app. split.
    - eapply Forall_impl; [exact H1|]. unfold is_size_t. intros x Hx. lia.
    - constructor; [unfold is_size_t; lia | exact H2]. }
  rewrite (load_npy_region hr Hle v _ payload Hv).
  rewrite c_string_terminated by (apply padded_header_no_nul; exact Hs').
  cbn [mbind outcome_bind].
  destruct (padded_header_parts hw shp dtype c) as (trailer & Hparts & Htail).
  assert (vec_size (padded_header hw shp dtype c) < 2 ^ 64) as Hb.
  { unfold terminated, vec_size in *. rewrite length_app in Hv.
    destruct Hv as [[_ Hv]|[_ Hv]]; lia. }
  set (padded := padded_header hw shp dtype c) in *.
  rewrite Hparts at 1. rewrite parse_fortran_order_written.
  cbn [mbind outcome_bind].
  rewrite Hparts at 1. rewrite parse_descr_written.
  cbn [mbind outcome_bind].
  rewrite Hparts at 1. subst padded shp.
  rewrite parse_shape_wide;
    [reflexivity | exact H1 | exact He | exact H2 |].
  rewrite <- Hparts. exact Hb.
Qed.
End WideExtent.

(** ** Unchecked writes and the element count *)

Section Flat.
Context {T : Type}.
Implicit Types (a : NPArray T).

(** X28: a write through [operator[]] below [size()] is read back by
    [operator[]], every other position keeps its element, and shape
    and size stay; at [size()] or beyond nothing is checked and the
    access is undefined. *)
Theorem subscript_assign_then_subscript a (i : Z) (v : T) :
  (0 <= i < size a ->
   snd (subscript_assign i v a) = Ok tt
   /\ subscript (fst (subscript_assign i v a)) i = Ok v
   /\ (forall j, 0 <= j -> j <> i ->
         subscript (fst (subscript_assign i v a)) j = subscript a j)
   /\ shape (fst (subscript_assign i v a)) = shape a
   /\ size (fst (subscript_assign i v a)) = size a)
  /\ (size a <= i -> subscript_assign i v a = (a, Undefined)).
Proof.
  unfold subscript_assign, subscript, size, vec_size, vec_at. split.
  - intros Hi.
    destruct (lookup_lt_is_Some_2 (data_ a) (Z.to_nat i)) as [old Eold];
      [lia|].
    rewrite Eold. cbn [fst snd data_ shape_]. split; [reflexivity|].
    split; [rewrite list_lookup_insert_eq by lia; reflexivity|].
    split; [|split; [reflexivity | rewrite length_insert; reflexivity]].
    intros j Hj Hne. rewrite list_lookup_insert_ne by lia. reflexivity.
  - intros Hi. rewrite lookup_ge_None_2 by lia. reflexivity.
Qed.

(** X29: the element count of a shape is the product of its extents
    reduced modulo 2^64: an array built from a shape holds that many
    elements, which is fewer than the product when the product does
    not fit [size_t]. *)
Theorem element_count_wraps (shp : list Z) :
  shp <> [] -> Forall is_size_t shp ->
  element_count shp = Some (product shp mod 2 ^ 64)
  /\ forall (value_init : T) max_size c a,
       NPArray_shape value_init max_size shp c = Ok a ->
       size a = product shp mod 2 ^ 64.
Proof.
  intros Hne Hs. destruct shp as [|s0 rest]; [congruence|].
  pose proof (count_elements_range rest s0 (Forall_inv Hs)) as Hr.
  assert (count_elements s0 rest = product (s0 :: rest) mod 2 ^ 64) as Hc.
  { rewrite <- (wrap_small (count_elements s0 rest)) by exact Hr.
    apply count_elements_product. }
  split; [simpl; f_equal; exact Hc|].
  intros value_init max_size c a Ha. cbn [NPArray_shape] in Ha.
  unfold vec_resize in Ha. destruct (_ >? _); [discriminate|].
  injection Ha as <-. unfold size, vec_size. cbn [data_].
  rewrite length_resize, <- Hc. unfold is_size_t in Hr. lia.
Qed.
End Flat.

Lemma descr_field_parse_witness :
  parse_descr (str "{'descr': '|u8', 'fortran_order': False, 'shape': (3,), }")
  = Ok (UINT64, true).
Proof.
  apply (descr_field_parse
           (str "{'descr': '|u8', 'fortran_order': False, 'shape': (3,), }")
           1 "|"%char (str "u8")); reflexivity.
Defined.

Lemma load_npy_wide_extent_witness :
  load_npy x86_64
    (npy_file 1
       (terminated (padded_header x86_64 [2147483648; 0] UCHAR true) []) [])
  = Throw out_of_range.
Proof.
  apply (load_npy_wide_extent x86_64 x86_64 1 [] 2147483648 [0] UCHAR true
           [] []).
  - reflexivity.
  - constructor.
  - lia.
  - repeat constructor; unfold is_size_t; lia.
  - left. split; [reflexivity | vm_compute; reflexivity].
Defined.

Lemma element_count_wraps_witness :
  element_count [4294967296; 4294967296] = Some 0.
Proof.
  apply (element_count_wraps (T := char) [4294967296; 4294967296]).
  - discriminate.
  - repeat constructor; unfold is_size_t; lia.
Defined.

Lemma header_length_on_big_endian_host_witness :
  read_header_length s390x "001"%char ["v"%char; "000"%char]
  = Ok (118 * 256, []).
Proof.
  apply (proj1 (header_length_on_big_endian_host s390x eq_refl "001"%char)
           eq_refl "v"%char "000"%char []).
Defined.
